(** * Cross-regional duplicate-invoice detection: a shallow embedding

    The development embeds the two Python modules of the repository,
    [aptean_multi_regional_fraud_detector.py] (class
    [ApteanRegionalFraudDetector]) and [aptean_master_ai_system.py] (class
    [ApteanAIMasterSystem]), and proves the properties their specification
    states about them.

    Conventions of the embedding.
    - A Python [str] is a list of characters; a character is a code point
      below 256 (the Latin-1 range of Unicode) held in an [ascii].  The
      character classes of Python's [re] and the methods [str.lower],
      [str.strip] are given for that range.
    - A Python [float] is an exact rational ([Q]): the arithmetic of the
      programs is kept, its binary rounding is not.
    - A time stamp is the number of seconds (detector) or microseconds
      (master pipeline) it denotes; formatting and parsing of the time stamp
      text is the identity on that number.
    - The mutable database of a detector object and the clock read by
      [datetime.now()] are passed explicitly. *)

From Stdlib Require Import Ascii String Bool Arith NArith ZArith QArith.
From Stdlib Require Import Qabs Qround Qminmax Lia Lqa List.
Import ListNotations.

Set Implicit Arguments.

Close Scope Q_scope.

(** ** Python strings *)

Module Str.

Definition str := list ascii.

Definition of_string (s : string) : str := list_ascii_of_string s.

Definition code (c : ascii) : N := N_of_ascii c.

Definition chr (n : N) : ascii := ascii_of_N n.

Definition in_range (lo hi : N) (c : ascii) : bool :=
  ((lo <=? code c) && (code c <=? hi))%N.

Definition is_code (n : N) (c : ascii) : bool := (code c =? n)%N.

Definition eqc (a b : ascii) : bool := Ascii.eqb a b.

Fixpoint eqs (a b : str) : bool :=
  match a, b with
  | [], [] => true
  | x :: a', y :: b' => eqc x y && eqs a' b'
  | _, _ => false
  end.

(** [str.isspace] and the class [\s] of [re]. *)
Definition is_space (c : ascii) : bool :=
  in_range 9 13 c || in_range 28 32 c || is_code 133 c || is_code 160 c.

(** The class [\d] of [re]: the decimal digits. *)
Definition is_digit (c : ascii) : bool := in_range 48 57 c.

Definition is_ascii_upper (c : ascii) : bool := in_range 65 90 c.
Definition is_ascii_lower (c : ascii) : bool := in_range 97 122 c.

(** Upper-case letters: A-Z and the Latin-1 capitals but the sign 215. *)
Definition is_upper (c : ascii) : bool :=
  is_ascii_upper c || (in_range 192 222 c && negb (is_code 215 c)).

(** The class [\w] of [re]: [str.isalnum] or the underscore. *)
Definition is_word (c : ascii) : bool :=
  is_digit c || is_ascii_upper c || is_ascii_lower c || is_code 95 c
  || is_code 170 c || is_code 178 c || is_code 179 c || is_code 181 c
  || is_code 185 c || is_code 186 c || in_range 188 190 c
  || (in_range 192 255 c && negb (is_code 215 c) && negb (is_code 247 c)).

(** [str.lower] on one character. *)
Definition lower_char (c : ascii) : ascii :=
  if is_upper c then chr (code c + 32) else c.

Definition lower (s : str) : str := map lower_char s.

Fixpoint lstrip (s : str) : str :=
  match s with
  | c :: s' => if is_space c then lstrip s' else s
  | [] => []
  end.

Definition rstrip (s : str) : str := rev (lstrip (rev s)).

(** [str.strip()] *)
Definition strip (s : str) : str := rstrip (lstrip s).

Fixpoint starts_with (p s : str) : bool :=
  match p, s with
  | [], _ => true
  | x :: p', y :: s' => eqc x y && starts_with p' s'
  | _ :: _, [] => false
  end.

(** [p in s] for strings. *)
Fixpoint contains (p s : str) : bool :=
  starts_with p s ||
  match s with
  | [] => false
  | _ :: s' => contains p s'
  end.

(** [s.replace(c, "")] for a one-character [c]. *)
Definition remove_char (c : ascii) (s : str) : str :=
  filter (fun x => negb (eqc x c)) s.

(** Truth value of a string: non-empty. *)
Definition truthy (s : str) : bool :=
  match s with [] => false | _ :: _ => true end.

End Str.

Import Str.

(** ** The part of Python's [re] the programs use

    A backtracking matcher in continuation-passing style.  Quantifiers
    apply to character classes, which is all the patterns of the programs
    need; there is at most one capturing group in a pattern. *)

Module Re.

Inductive regex : Type :=
| Eps : regex
| Chr : (ascii -> bool) -> regex
| Rep : (ascii -> bool) -> nat -> option nat -> bool -> regex
| Seq : regex -> regex -> regex
| Alt : regex -> regex -> regex
| Grp : regex -> regex
| Bnd : regex
| Eos : regex.

(** Matcher state: the character before the cursor, the text after it, the
    number of characters consumed and the span of the group. *)
Record mstate : Type := MState {
  m_prev : option ascii;
  m_rest : str;
  m_pos : nat;
  m_grp : option (nat * nat)
}.

Definition mres : Type := (nat * option (nat * nat))%type.

Definition below (n : nat) (hi : option nat) : bool :=
  match hi with
  | None => true
  | Some h => n <? h
  end.

Section Repeat.
Variable p : ascii -> bool.
Variable lo : nat.
Variable hi : option nat.
Variable k : mstate -> option mres.

(** Greedy repetition: take as many characters as allowed, give them
    back one at a time while the continuation fails. *)
Fixpoint rep_greedy (n : nat) (prev : option ascii) (pos : nat)
    (g : option (nat * nat)) (rest : str) {struct rest} : option mres :=
  match rest with
  | c :: rest' =>
      if p c && below n hi then
        match rep_greedy (S n) (Some c) (S pos) g rest' with
        | Some r => Some r
        | None => if lo <=? n then k (MState prev rest pos g) else None
        end
      else if lo <=? n then k (MState prev rest pos g) else None
  | [] => if lo <=? n then k (MState prev rest pos g) else None
  end.

(** Lazy repetition: try the continuation first, take one more
    character when it fails. *)
Fixpoint rep_lazy (n : nat) (prev : option ascii) (pos : nat)
    (g : option (nat * nat)) (rest : str) {struct rest} : option mres :=
  match (if lo <=? n then k (MState prev rest pos g) else None) with
  | Some r => Some r
  | None =>
      match rest with
      | c :: rest' =>
          if p c && below n hi
          then rep_lazy (S n) (Some c) (S pos) g rest'
          else None
      | [] => None
      end
  end.
End Repeat.

Definition is_word_opt (o : option ascii) : bool :=
  match o with
  | Some c => is_word c
  | None => false
  end.

Fixpoint mt (r : regex) (k : mstate -> option mres) (st : mstate)
    : option mres :=
  match r with
  | Eps => k st
  | Chr p =>
      match m_rest st with
      | c :: rest' =>
          if p c then k (MState (Some c) rest' (S (m_pos st)) (m_grp st))
          else None
      | [] => None
      end
  | Rep p lo hi greedy =>
      (if greedy then rep_greedy else rep_lazy)
        p lo hi k 0 (m_prev st) (m_pos st) (m_grp st) (m_rest st)
  | Seq a b => mt a (mt b k) st
  | Alt a b =>
      match mt a k st with
      | Some res => Some res
      | None => mt b k st
      end
  | Grp a =>
      mt a (fun st' =>
              k (MState (m_prev st') (m_rest st') (m_pos st')
                        (Some (m_pos st, m_pos st')))) st
  | Bnd =>
      if xorb (is_word_opt (m_prev st)) (is_word_opt (hd_error (m_rest st)))
      then k st else None
  | Eos =>
      match m_rest st with
      | [] => k st
      | [c] => if is_code 10 c then k st else None
      | _ => None
      end
  end.

(** A match of [r] that starts at the head of [s], the character before
    being [prev]: its length and the span of the group. *)
Definition match_at (r : regex) (prev : option ascii) (s : str)
    : option mres :=
  mt r (fun st => Some (m_pos st, m_grp st)) (MState prev s 0 None).

Definition slice (s : str) (b e : nat) : str := firstn (e - b) (skipn b s).

(** What [findall] and [group(1)] give for a match: the group when the
    pattern has one, the whole match otherwise. *)
Definition item (s : str) (res : mres) : str :=
  match snd res with
  | Some (b, e) => slice s b e
  | None => firstn (fst res) s
  end.

(** [re.search(r, s)]: the leftmost match, as the text of its group. *)
Fixpoint search_from (r : regex) (prev : option ascii) (s : str)
    : option str :=
  match match_at r prev s with
  | Some res => Some (item s res)
  | None =>
      match s with
      | [] => None
      | c :: s' => search_from r (Some c) s'
      end
  end.

Definition search (r : regex) (s : str) : option str := search_from r None s.

(** [re.findall(r, s)]: the matches from left to right, none overlapping.
    [skip] counts the characters of the last match still to pass. *)
Fixpoint findall_from (r : regex) (skip : nat) (prev : option ascii)
    (s : str) : list str :=
  match skip with
  | S j =>
      match s with
      | [] => []
      | c :: s' => findall_from r j (Some c) s'
      end
  | O =>
      match match_at r prev s with
      | Some res =>
          item s res ::
          match s with
          | [] => []
          | c :: s' => findall_from r (pred (fst res)) (Some c) s'
          end
      | None =>
          match s with
          | [] => []
          | c :: s' => findall_from r 0 (Some c) s'
          end
      end
  end.

Definition findall (r : regex) (s : str) : list str := findall_from r 0 None s.

(** [re.sub(r, repl, s)] for a replacement text without group references. *)
Fixpoint sub_from (r : regex) (repl : str) (skip : nat)
    (prev : option ascii) (s : str) : str :=
  match skip with
  | S j =>
      match s with
      | [] => []
      | c :: s' => sub_from r repl j (Some c) s'
      end
  | O =>
      match match_at r prev s with
      | Some res =>
          repl ++
          match s with
          | [] => []
          | c :: s' =>
              (if fst res =? 0 then [c] else [])
              ++ sub_from r repl (pred (fst res)) (Some c) s'
          end
      | None =>
          match s with
          | [] => []
          | c :: s' => c :: sub_from r repl 0 (Some c) s'
          end
      end
  end.

Definition sub (r : regex) (repl : str) (s : str) : str :=
  sub_from r repl 0 None s.

(** *** Pattern syntax *)

Definition star (p : ascii -> bool) : regex := Rep p 0 None true.
Definition plus (p : ascii -> bool) : regex := Rep p 1 None true.
Definition opt (p : ascii -> bool) : regex := Rep p 0 (Some 1) true.
Definition plus_lazy (p : ascii -> bool) : regex := Rep p 1 None false.
Definition range (p : ascii -> bool) (lo hi : nat) : regex :=
  Rep p lo (Some hi) true.

(** A literal, case-sensitive or (flag [re.IGNORECASE]) not. *)
Definition lit_char (ci : bool) (l : ascii) : ascii -> bool :=
  fun c => if ci then eqc (lower_char c) (lower_char l) else eqc c l.

Fixpoint lit (ci : bool) (s : str) : regex :=
  match s with
  | [] => Eps
  | [l] => Chr (lit_char ci l)
  | l :: s' => Seq (Chr (lit_char ci l)) (lit ci s')
  end.

Fixpoint cat (rs : list regex) : regex :=
  match rs with
  | [] => Eps
  | [r] => r
  | r :: rs' => Seq r (cat rs')
  end.

Fixpoint alts (rs : list regex) : regex :=
  match rs with
  | [] => Eps
  | [r] => r
  | r :: rs' => Alt r (alts rs')
  end.

(** The dot: any character but the newline. *)
Definition dot (c : ascii) : bool := negb (is_code 10 c).

End Re.

Import Re.


(** ** [hashlib.md5(...).hexdigest()] *)

Module MD5.

Local Open Scope N_scope.

Definition w32 (x : N) : N := x mod 4294967296.

Definition rotl (x : N) (c : N) : N :=
  w32 (N.lor (N.shiftl x c) (N.shiftr x (32 - c))).

Definition not32 (x : N) : N := N.lxor x 4294967295.

Definition K : list N :=
  [ 0xd76aa478; 0xe8c7b756; 0x242070db; 0xc1bdceee;
    0xf57c0faf; 0x4787c62a; 0xa8304613; 0xfd469501;
    0x698098d8; 0x8b44f7af; 0xffff5bb1; 0x895cd7be;
    0x6b901122; 0xfd987193; 0xa679438e; 0x49b40821;
    0xf61e2562; 0xc040b340; 0x265e5a51; 0xe9b6c7aa;
    0xd62f105d; 0x02441453; 0xd8a1e681; 0xe7d3fbc8;
    0x21e1cde6; 0xc33707d6; 0xf4d50d87; 0x455a14ed;
    0xa9e3e905; 0xfcefa3f8; 0x676f02d9; 0x8d2a4c8a;
    0xfffa3942; 0x8771f681; 0x6d9d6122; 0xfde5380c;
    0xa4beea44; 0x4bdecfa9; 0xf6bb4b60; 0xbebfbc70;
    0x289b7ec6; 0xeaa127fa; 0xd4ef3085; 0x04881d05;
    0xd9d4d039; 0xe6db99e5; 0x1fa27cf8; 0xc4ac5665;
    0xf4292244; 0x432aff97; 0xab9423a7; 0xfc93a039;
    0x655b59c3; 0x8f0ccc92; 0xffeff47d; 0x85845dd1;
    0x6fa87e4f; 0xfe2ce6e0; 0xa3014314; 0x4e0811a1;
    0xf7537e82; 0xbd3af235; 0x2ad7d2bb; 0xeb86d391 ].

Definition S : list N :=
  [ 7; 12; 17; 22; 7; 12; 17; 22; 7; 12; 17; 22; 7; 12; 17; 22;
    5; 9; 14; 20; 5; 9; 14; 20; 5; 9; 14; 20; 5; 9; 14; 20;
    4; 11; 16; 23; 4; 11; 16; 23; 4; 11; 16; 23; 4; 11; 16; 23;
    6; 10; 15; 21; 6; 10; 15; 21; 6; 10; 15; 21; 6; 10; 15; 21 ].

(** [str.encode()]: UTF-8, one or two bytes for a code point below 256. *)
Definition encode (s : str) : list N :=
  flat_map (fun c =>
    let n := code c in
    if n <? 128 then [n] else [192 + n / 64; 128 + n mod 64]) s.

Definition le_bytes (count : nat) (x : N) : list N :=
  map (fun i => (x / 2 ^ (8 * N.of_nat i)) mod 256) (seq 0 count).

Definition pad (msg : list N) : list N :=
  let len := N.of_nat (length msg) in
  let zeros := N.to_nat ((119 - len mod 64) mod 64) in
  msg ++ [128] ++ repeat 0 zeros ++ le_bytes 8 (8 * len).

Fixpoint words (fuel : nat) (bs : list N) : list N :=
  match fuel, bs with
  | Datatypes.S f, b0 :: b1 :: b2 :: b3 :: bs' =>
      (b0 + 256 * b1 + 65536 * b2 + 16777216 * b3) :: words f bs'
  | _, _ => []
  end.

Definition state : Type := (N * N * N * N)%type.

Definition round (M : list N) (st : state) (i : nat) : state :=
  let '(a, b, c, d) := st in
  let f :=
    if (i <? 16)%nat then N.lor (N.land b c) (N.land (not32 b) d)
    else if (i <? 32)%nat then N.lor (N.land d b) (N.land (not32 d) c)
    else if (i <? 48)%nat then N.lxor b (N.lxor c d)
    else N.lxor c (N.lor b (not32 d)) in
  let g :=
    if (i <? 16)%nat then i
    else if (i <? 32)%nat then ((5 * i + 1) mod 16)%nat
    else if (i <? 48)%nat then ((3 * i + 5) mod 16)%nat
    else ((7 * i) mod 16)%nat in
  let f' := w32 (f + a + nth i K 0 + nth g M 0) in
  (d, w32 (b + rotl f' (nth i S 0)), b, c).

Definition block (st : state) (M : list N) : state :=
  let '(a0, b0, c0, d0) := st in
  let '(a, b, c, d) := fold_left (round M) (seq 0 64) st in
  (w32 (a0 + a), w32 (b0 + b), w32 (c0 + c), w32 (d0 + d)).

Fixpoint blocks (fuel : nat) (st : state) (ws : list N) : state :=
  match fuel, ws with
  | Datatypes.S f, _ :: _ => blocks f (block st (firstn 16 ws)) (skipn 16 ws)
  | _, _ => st
  end.

Definition hex_digit (n : N) : ascii :=
  if n <? 10 then chr (48 + n) else chr (87 + n).

Definition hex_byte (b : N) : str := [hex_digit (b / 16); hex_digit (b mod 16)].

Definition digest (msg : list N) : list N :=
  let bs := pad msg in
  let ws := words (length bs) bs in
  let '(a, b, c, d) :=
    blocks (length ws) (0x67452301, 0xefcdab89, 0x98badcfe, 0x10325476) ws in
  le_bytes 4 a ++ le_bytes 4 b ++ le_bytes 4 c ++ le_bytes 4 d.

Definition hexdigest (s : str) : str := flat_map hex_byte (digest (encode s)).

End MD5.

(** ** [difflib.SequenceMatcher(None, a, b).ratio()]

    The matcher of Ratcliff and Obershelp as the library implements it: the
    longest matching block, then recursively the parts to its left and to
    its right.  [isjunk] is [None]; with the default [autojunk], a
    character that occurs in more than 1% + 1 places of a second sequence
    of 200 characters or more starts no match ("popular"). *)

Module Difflib.

Definition count_char (c : ascii) (s : str) : nat :=
  length (filter (eqc c) s).

Definition mem_char (c : ascii) (l : list ascii) : bool := existsb (eqc c) l.

Fixpoint distinct (s : str) (seen : list ascii) : list ascii :=
  match s with
  | [] => rev seen
  | c :: s' => distinct s' (if mem_char c seen then seen else c :: seen)
  end.

(** The popular characters of the whole second sequence. *)
Definition popular (b : str) : list ascii :=
  let n := length b in
  if 200 <=? n
  then filter (fun c => (n / 100 + 1) <? count_char c b) (distinct b [])
  else [].

(** One row of [j2len]: for the character [x] of the first sequence, the
    length of the match that ends at each place of the second one, from
    the row of the character before ([prev], shifted by one place). *)
Fixpoint next_row (pop : list ascii) (x : ascii) (b : str) (prev : list nat)
    (diag : nat) : list nat :=
  match b with
  | [] => []
  | y :: b' =>
      let here := if eqc x y && negb (mem_char y pop) then S diag else 0 in
      here :: next_row pop x b' (tl prev) (hd 0 prev)
  end.

Definition best : Type := (nat * nat * nat)%type.

(** The scan of one row: a strictly longer match replaces the best one. *)
Fixpoint scan_row (i : nat) (row : list nat) (j : nat) (bst : best) : best :=
  match row with
  | [] => bst
  | k :: row' =>
      let '(_, _, size) := bst in
      scan_row i row' (S j)
        (if size <? k then (S i - k, S j - k, k) else bst)
  end.

Fixpoint scan_rows (pop : list ascii) (a b : str) (i : nat)
    (prev : list nat) (bst : best) : best :=
  match a with
  | [] => bst
  | x :: a' =>
      let row := next_row pop x b prev 0 in
      scan_rows pop a' b (S i) row (scan_row i row 0 bst)
  end.

Fixpoint common_prefix (a b : str) : nat :=
  match a, b with
  | x :: a', y :: b' => if eqc x y then S (common_prefix a' b') else 0
  | _, _ => 0
  end.

(** [find_longest_match] on the slices [a] and [b]: the block found by the
    scan, extended to both sides while the characters agree. *)
Definition find_longest_match (pop : list ascii) (a b : str) : best :=
  let '(i, j, k) := scan_rows pop a b 0 [] (0, 0, 0) in
  let l := common_prefix (rev (firstn i a)) (rev (firstn j b)) in
  let r := common_prefix (skipn (i + k) a) (skipn (j + k) b) in
  (i - l, j - l, l + k + r).

(** The sum of the sizes of [get_matching_blocks()]. *)
Fixpoint matches (fuel : nat) (pop : list ascii) (a b : str) : nat :=
  match fuel with
  | O => 0
  | S f =>
      let '(i, j, k) := find_longest_match pop a b in
      if k =? 0 then 0
      else k + matches f pop (firstn i a) (firstn j b)
             + matches f pop (skipn (i + k) a) (skipn (j + k) b)
  end.

Local Open Scope Q_scope.

Definition ratio (a b : str) : Q :=
  let total := (length a + length b)%nat in
  if (total =? 0)%nat then 1
  else 2 * inject_Z (Z.of_nat (matches (S (length a)) (popular b) a b))
       / inject_Z (Z.of_nat total).

End Difflib.

(** ** Numbers *)

Module Num.

Local Open Scope Q_scope.

Fixpoint pow10 (k : nat) : positive :=
  match k with
  | O => 1%positive
  | S k' => (10 * pow10 k')%positive
  end.

Definition digit_val (c : ascii) : Z := Z.of_N (code c) - 48.

Definition digits_val (ds : str) : Z :=
  fold_left (fun acc c => (10 * acc + digit_val c)%Z) ds 0%Z.

Fixpoint split_point (s : str) : str * option str :=
  match s with
  | [] => ([], None)
  | c :: s' =>
      if is_code 46 c then ([], Some s')
      else let '(i, f) := split_point s' in (c :: i, f)
  end.

(** [float(s)] for a text of decimal digits with at most one point, the
    texts the amount patterns can give once the commas are removed.  Any
    other text, and a text without a digit, raises [ValueError]: [None]. *)
Definition parse_float (s : str) : option Q :=
  let '(i, f) := split_point s in
  let f' := match f with Some x => x | None => [] end in
  if forallb is_digit i && forallb is_digit f'
     && negb ((length i + length f' =? 0)%nat)
  then Some (Qmake (digits_val (i ++ f')) (pow10 (length f')))
  else None.

(** Rounding of a rational to the nearest integer, ties to the even one. *)
Definition round_half_even (x : Q) : Z :=
  let fl := Qfloor x in
  let d := x - inject_Z fl in
  match Qcompare d (1 # 2) with
  | Lt => fl
  | Gt => (fl + 1)%Z
  | Eq => if Z.even fl then fl else (fl + 1)%Z
  end.

(** [round(x, 2)] *)
Definition round2 (x : Q) : Q := Qmake (round_half_even (x * 100)) 100.

(** [min(a, b)] and [max(a, b)] of Python: the first argument unless the
    second is strictly smaller (larger). *)
Definition pmin (a b : Q) : Q := if Qlt_le_dec b a then b else a.
Definition pmax (a b : Q) : Q := if Qlt_le_dec a b then b else a.

Definition gtb (a b : Q) : bool := if Qlt_le_dec b a then true else false.
Definition ltb (a b : Q) : bool := if Qlt_le_dec a b then true else false.

End Num.

Import Num.

(** ** Python dictionaries with text keys

    A [dict] keeps its keys in the order of their first insertion; an
    assignment to a key it holds replaces the value in place. *)

Module Dict.

Definition dict (V : Type) : Type := list (str * V).

Fixpoint set {V : Type} (d : dict V) (key : str) (v : V) : dict V :=
  match d with
  | [] => [(key, v)]
  | (k', v') :: d' =>
      if eqs k' key then (k', v) :: d' else (k', v') :: set d' key v
  end.

(** [d.get(key, default)] *)
Fixpoint get {V : Type} (d : dict V) (key : str) (default : V) : V :=
  match d with
  | [] => default
  | (k', v') :: d' => if eqs k' key then v' else get d' key default
  end.

Definition values {V : Type} (d : dict V) : list V := map snd d.

Definition keys {V : Type} (d : dict V) : list str := map fst d.

End Dict.

(** ** The standalone detector: [ApteanRegionalFraudDetector] *)

Module Detector.

Record InvoiceFingerprint : Type := {
  content_hash : str;
  vendor_name : str;
  line_items : list str;
  amounts : list Q;
  po_reference : str;
  delivery_address : str;
  normalized_content : str;
  extracted_keywords : list str
}.

Record RegionalInvoice : Type := {
  invoice_id : str;
  region : str;
  currency : str;
  total_amount : Q;
  submission_timestamp : Z;
  fingerprint : InvoiceFingerprint;
  processing_status : str
}.

(** *** Character classes of the patterns *)

(** The class of currency symbols as the file has it: the dollar sign and
    the code points 199, 168, 172 and 163; its other members (U+201A,
    U+03C0, U+2022) are above 255. *)
Definition currency_symbol (c : ascii) : bool :=
  is_code 36 c || is_code 199 c || is_code 168 c || is_code 172 c
  || is_code 163 c.

(** [[A-Z0-9-]] under [re.IGNORECASE]. *)
Definition ref_char (c : ascii) : bool :=
  is_ascii_upper c || is_ascii_lower c || is_digit c || is_code 45 c.

(** [[A-Z0-9-]], case-sensitive. *)
Definition ref_char_cs (c : ascii) : bool :=
  is_ascii_upper c || is_digit c || is_code 45 c.

(** [[\s#:-]] *)
Definition po_sep (c : ascii) : bool :=
  is_space c || is_code 35 c || is_code 58 c || is_code 45 c.

(** [[/-]] *)
Definition date_sep (c : ascii) : bool := is_code 47 c || is_code 45 c.

(** [[,.]] *)
Definition comma_point (c : ascii) : bool := is_code 44 c || is_code 46 c.

(** [[\d,]] *)
Definition digit_comma (c : ascii) : bool := is_digit c || is_code 44 c.

Definition nl : ascii -> bool := is_code 10.

(** *** [_normalize_content_for_comparison] *)

Definition re_currency_symbol : regex := Chr currency_symbol.

Definition re_currency_code : regex :=
  cat [Bnd;
       Grp (alts (map (fun w => lit true (of_string w))
                      ["USD"; "EUR"; "GBP"; "INR"; "JPY"; "CAD"]%string));
       Bnd].

Definition re_invoice_number : regex :=
  cat [lit true (of_string "Invoice"); star is_space; opt (is_code 35);
       opt (is_code 58); star is_space; plus ref_char].

Definition re_date : regex :=
  cat [range is_digit 1 2; Chr date_sep; range is_digit 1 2; Chr date_sep;
       range is_digit 2 4].

Definition re_amount : regex :=
  cat [plus is_digit; opt comma_point; star is_digit].

Definition re_spaces : regex := plus is_space.

Definition _normalize_content_for_comparison (invoice_text : str) : str :=
  let normalized := sub re_currency_symbol (of_string "CURRENCY") invoice_text in
  let normalized := sub re_currency_code (of_string "CURRENCY") normalized in
  let normalized := sub re_invoice_number (of_string "INVOICE_NUMBER") normalized in
  let normalized := sub re_date (of_string "DATE") normalized in
  let normalized := sub re_amount (of_string "AMOUNT") normalized in
  let normalized := sub re_spaces (of_string " ") (strip normalized) in
  lower normalized.

(** *** [_extract_keywords] *)

Definition re_words (ws : list string) : regex :=
  cat [Bnd; Grp (alts (map (fun w => lit true (of_string w)) ws)); Bnd].

Definition re_product_keywords : regex :=
  re_words ["software"; "license"; "consultation"; "equipment"; "service";
            "support"; "maintenance"; "installation"]%string.

Definition re_tech_keywords : regex :=
  re_words ["Microsoft"; "Office"; "SAP"; "Oracle"; "AWS"; "Google";
            "Enterprise"; "Professional"; "Premium"]%string.

Definition str_eq_dec : forall a b : str, {a = b} + {a <> b} :=
  list_eq_dec ascii_dec.

(** [list(set(keywords))]: the keywords without duplicates.  Python leaves
    the order of the list open; the model keeps the first occurrences. *)
Definition list_set (l : list str) : list str := nodup str_eq_dec l.

Definition _extract_keywords (invoice_text : str) : list str :=
  let keywords := [] in
  let product_keywords := findall re_product_keywords invoice_text in
  let keywords := keywords ++ map lower product_keywords in
  let tech_keywords := findall re_tech_keywords invoice_text in
  let keywords := keywords ++ map lower tech_keywords in
  list_set keywords.

(** *** [_generate_content_fingerprint] *)

(** A label pattern [Label:\s*(.+?)\n], case-insensitive. *)
Definition re_label (label : string) : regex :=
  cat [lit true (of_string label); star is_space; Grp (plus_lazy dot);
       Chr nl].

(** An address pattern [Label:\s*(.+?)(?:\n|$)], case-insensitive. *)
Definition re_label_eol (label : string) : regex :=
  cat [lit true (of_string label); star is_space; Grp (plus_lazy dot);
       Alt (Chr nl) Eos].

(** A reference pattern [Label[\s#:-]*([A-Z0-9-]+)], case-insensitive. *)
Definition re_reference (label : string) : regex :=
  cat [lit true (of_string label); star po_sep; Grp (plus ref_char)].

Definition vendor_patterns : list regex :=
  map re_label ["From:"; "Vendor:"; "Supplier:"; "Company:"]%string.

Definition line_patterns : list regex :=
  map re_label ["Description:"; "Product:"; "Service:"; "Item:"]%string.

(** The group of the amount patterns: digits and commas, then an optional
    point and digits. *)
Definition re_number_group : regex :=
  Grp (cat [plus digit_comma; opt (is_code 46); star is_digit]).

Definition amount_patterns : list regex :=
  [ cat [Chr currency_symbol; star is_space; re_number_group];
    cat [re_number_group; star is_space;
         alts (map (fun w => lit false (of_string w))
                   ["USD"; "EUR"; "GBP"; "INR"; "JPY"]%string)] ].

Definition po_patterns : list regex :=
  map re_reference ["PO"; "Purchase Order"; "Reference"]%string.

Definition address_patterns : list regex :=
  map re_label_eol ["Delivery:"; "Ship to:"; "Address:"]%string.

(** The loop [for pattern in patterns: match = re.search(...); if match:
    value = match.group(1).strip(); break] over an initial [""]. *)
Fixpoint first_match (patterns : list regex) (text : str) : str :=
  match patterns with
  | [] => []
  | pattern :: rest =>
      match search pattern text with
      | Some g => strip g
      | None => first_match rest text
      end
  end.

(** The amounts of one pattern; a text [float] rejects is passed over. *)
Definition amounts_of (pattern : regex) (text : str) : list Q :=
  flat_map (fun m =>
              match parse_float (remove_char (chr 44) m) with
              | Some amount => [amount]
              | None => []
              end)
           (findall pattern text).

Definition _generate_content_fingerprint (invoice_text : str)
    : InvoiceFingerprint :=
  let vendor_name := first_match vendor_patterns invoice_text in
  let line_items :=
    flat_map (fun pattern => map strip (findall pattern invoice_text))
             line_patterns in
  let amounts :=
    flat_map (fun pattern => amounts_of pattern invoice_text)
             amount_patterns in
  let po_reference := first_match po_patterns invoice_text in
  let delivery_address := first_match address_patterns invoice_text in
  let normalized_content := _normalize_content_for_comparison invoice_text in
  let keywords := _extract_keywords invoice_text in
  let content_hash := MD5.hexdigest normalized_content in
  {| content_hash := content_hash;
     vendor_name := vendor_name;
     line_items := line_items;
     amounts := amounts;
     po_reference := po_reference;
     delivery_address := delivery_address;
     normalized_content := normalized_content;
     extracted_keywords := keywords |}.

(** *** Configuration: [__init__] *)

Local Open Scope Q_scope.

Definition currency_rates_to_usd : Dict.dict Q :=
  [ (of_string "USD", 1); (of_string "EUR", 118 # 100);
    (of_string "GBP", 128 # 100); (of_string "INR", 12 # 1000);
    (of_string "CAD", 74 # 100); (of_string "JPY", 67 # 10000) ].

(** [fraud_patterns] *)
Definition time_window_hours : Z := 72.
Definition similarity_threshold : Q := 85 # 100.
Definition vendor_variance_threshold : Q := 1 # 10.
Definition po_reference_weight : Q := 3 # 10.
Definition delivery_address_weight : Q := 25 # 100.
Definition line_items_weight : Q := 45 # 100.

(** The invoice handed in: a [dict]; a field it lacks is [None]. *)
Record InvoiceData : Type := {
  d_invoice_id : option str;
  d_region : option str;
  d_currency : option str;
  d_total_amount : option Q;
  d_invoice_text : option str
}.

(** [invoice_data.get(key, default)] *)
Definition get_or {A : Type} (field : option A) (default : A) : A :=
  match field with
  | Some v => v
  | None => default
  end.

(** *** [_create_regional_invoice]; [now] is [datetime.now()] in seconds. *)
Definition _create_regional_invoice (now : Z) (invoice_data : InvoiceData)
    : RegionalInvoice :=
  let invoice_text := get_or (d_invoice_text invoice_data) [] in
  let fingerprint := _generate_content_fingerprint invoice_text in
  {| invoice_id := get_or (d_invoice_id invoice_data) [];
     region := get_or (d_region invoice_data) [];
     currency := get_or (d_currency invoice_data) [];
     total_amount := get_or (d_total_amount invoice_data) 0;
     submission_timestamp := now;
     fingerprint := fingerprint;
     processing_status := of_string "pending" |}.

(** *** [_quick_similarity_check] *)
Definition _quick_similarity_check (invoice1 invoice2 : RegionalInvoice)
    : bool :=
  let f1 := fingerprint invoice1 in
  let f2 := fingerprint invoice2 in
  if truthy (po_reference f1) && truthy (po_reference f2)
     && eqs (lower (po_reference f1)) (lower (po_reference f2))
  then true
  else if truthy (vendor_name f1) && truthy (vendor_name f2)
          && gtb (Difflib.ratio (lower (vendor_name f1))
                                (lower (vendor_name f2))) (8 # 10)
  then true
  else if truthy (delivery_address f1) && truthy (delivery_address f2)
          && contains (lower (delivery_address f1))
                      (lower (delivery_address f2))
  then true
  else false.

(** *** [_search_cross_regional_duplicates] *)

(** [timedelta(hours=...)] in seconds. *)
Definition time_window : Z := (time_window_hours * 3600)%Z.

Fixpoint search_database (current_invoice : RegionalInvoice)
    (database : list RegionalInvoice) : list RegionalInvoice :=
  match database with
  | [] => []
  | existing_invoice :: rest =>
      if (Z.abs (submission_timestamp current_invoice
                 - submission_timestamp existing_invoice) >? time_window)%Z
      then search_database current_invoice rest
      else if eqs (region existing_invoice) (region current_invoice)
      then search_database current_invoice rest
      else if _quick_similarity_check current_invoice existing_invoice
      then existing_invoice :: search_database current_invoice rest
      else search_database current_invoice rest
  end.

Definition _search_cross_regional_duplicates
    (cross_regional_database : list RegionalInvoice)
    (current_invoice : RegionalInvoice) : list RegionalInvoice :=
  search_database current_invoice cross_regional_database.

(** *** [_compare_line_items] *)
Definition _compare_line_items (items1 items2 : list str) : Q :=
  if negb (0 <? length items1)%nat || negb (0 <? length items2)%nat then 0
  else
    let '(total_similarity, comparisons) :=
      fold_left
        (fun acc item1 =>
           fold_left
             (fun '(total, count) item2 =>
                (total + Difflib.ratio (lower item1) (lower item2), S count))
             items2 acc)
        items1 (0, O) in
    if (0 <? comparisons)%nat
    then total_similarity / inject_Z (Z.of_nat comparisons)
    else 0.

(** *** [_analyze_currency_relationship] *)

Record CurrencyAnalysis : Type := {
  amount1_usd : Q;
  amount2_usd : Q;
  variance_percentage : Q;
  suspicious : bool;
  currency_pair : str
}.

Definition to_usd (invoice : RegionalInvoice) : Q :=
  total_amount invoice * Dict.get currency_rates_to_usd (currency invoice) 1.

(** The local [variance] of [_analyze_currency_relationship]. *)
Definition variance (invoice1 invoice2 : RegionalInvoice) : Q :=
  let amount1_usd := to_usd invoice1 in
  let amount2_usd := to_usd invoice2 in
  if gtb amount1_usd 0
  then Qabs (amount1_usd - amount2_usd) / amount1_usd
  else 1.

Definition _analyze_currency_relationship (invoice1 invoice2 : RegionalInvoice)
    : CurrencyAnalysis :=
  {| amount1_usd := round2 (to_usd invoice1);
     amount2_usd := round2 (to_usd invoice2);
     variance_percentage := round2 (variance invoice1 invoice2 * 100);
     suspicious := ltb (variance invoice1 invoice2) vendor_variance_threshold;
     currency_pair := currency invoice1 ++ of_string "-" ++ currency invoice2 |}.

(** *** [_analyze_submission_timing]

    The field [regions], a display text with a character above 255, is
    left out. *)

Record TemporalAnalysis : Type := {
  time_difference_hours : Q;
  submission_order : str;
  suspicious_timing : bool
}.

Definition hours_diff (invoice1 invoice2 : RegionalInvoice) : Q :=
  inject_Z (Z.abs (submission_timestamp invoice1
                   - submission_timestamp invoice2)) / 3600.

Definition _analyze_submission_timing (invoice1 invoice2 : RegionalInvoice)
    : TemporalAnalysis :=
  {| time_difference_hours := round2 (hours_diff invoice1 invoice2);
     submission_order :=
       if ltb (hours_diff invoice1 invoice2) 24
       then of_string "sequential" else of_string "spread";
     suspicious_timing :=
       ltb (hours_diff invoice1 invoice2) (inject_Z time_window_hours) |}.

(** *** [_compare_invoices_detailed] *)

Record MatchingElements : Type := {
  content_similarity : Q;
  po_reference_match : Q;
  address_similarity : Q;
  line_items_similarity : Q
}.

Record Comparison : Type := {
  overall_similarity : Q;
  matching_elements : MatchingElements;
  currency_analysis : CurrencyAnalysis;
  temporal_analysis : TemporalAnalysis
}.

Definition _compare_invoices_detailed (invoice1 invoice2 : RegionalInvoice)
    : Comparison :=
  let f1 := fingerprint invoice1 in
  let f2 := fingerprint invoice2 in
  let content_similarity :=
    Difflib.ratio (normalized_content f1) (normalized_content f2) in
  let po_match :=
    if truthy (po_reference f1) && truthy (po_reference f2)
       && eqs (lower (po_reference f1)) (lower (po_reference f2))
    then 1 else 0 in
  let address_similarity :=
    if truthy (delivery_address f1) && truthy (delivery_address f2)
    then Difflib.ratio (lower (delivery_address f1))
                       (lower (delivery_address f2))
    else 0 in
  let line_items_similarity :=
    _compare_line_items (line_items f1) (line_items f2) in
  let overall_similarity :=
    content_similarity * (3 # 10)
    + po_match * po_reference_weight
    + address_similarity * delivery_address_weight
    + line_items_similarity * line_items_weight in
  {| overall_similarity := overall_similarity;
     matching_elements :=
       {| content_similarity := content_similarity;
          po_reference_match := po_match;
          address_similarity := address_similarity;
          line_items_similarity := line_items_similarity |};
     currency_analysis := _analyze_currency_relationship invoice1 invoice2;
     temporal_analysis := _analyze_submission_timing invoice1 invoice2 |}.

(** *** [_analyze_content_similarity] *)

Record Evidence : Type := {
  ev_matches : list RegionalInvoice;
  ev_similarity_scores : Dict.dict Q;
  ev_matching_elements : Dict.dict MatchingElements;
  ev_currency_analysis : Dict.dict CurrencyAnalysis;
  ev_temporal_analysis : Dict.dict TemporalAnalysis
}.

Definition empty_evidence : Evidence :=
  {| ev_matches := [];
     ev_similarity_scores := [];
     ev_matching_elements := [];
     ev_currency_analysis := [];
     ev_temporal_analysis := [] |}.

(** One turn of the loop over the potential duplicates. *)
Definition add_evidence (current_invoice : RegionalInvoice)
    (evidence : Evidence) (duplicate : RegionalInvoice) : Evidence :=
  let match_evidence := _compare_invoices_detailed current_invoice duplicate in
  if gtb (overall_similarity match_evidence) similarity_threshold then
    let id := invoice_id duplicate in
    {| ev_matches := ev_matches evidence ++ [duplicate];
       ev_similarity_scores :=
         Dict.set (ev_similarity_scores evidence) id
                  (overall_similarity match_evidence);
       ev_matching_elements :=
         Dict.set (ev_matching_elements evidence) id
                  (matching_elements match_evidence);
       ev_currency_analysis :=
         Dict.set (ev_currency_analysis evidence) id
                  (currency_analysis match_evidence);
       ev_temporal_analysis :=
         Dict.set (ev_temporal_analysis evidence) id
                  (temporal_analysis match_evidence) |}
  else evidence.

Definition _analyze_content_similarity (current_invoice : RegionalInvoice)
    (potential_duplicates : list RegionalInvoice) : Evidence :=
  fold_left (add_evidence current_invoice) potential_duplicates
            empty_evidence.

(** *** [_calculate_fraud_confidence] *)

(** [max(values)]: the first largest value; [ValueError] ([None]) for an
    empty sequence. *)
Definition py_max (values : list Q) : option Q :=
  match values with
  | [] => None
  | v :: rest => Some (fold_left pmax rest v)
  end.

Definition _calculate_fraud_confidence (evidence : Evidence) : option Q :=
  match ev_matches evidence with
  | [] => Some 0
  | _ :: _ =>
      match py_max (Dict.values (ev_similarity_scores evidence)) with
      | None => None
      | Some max_similarity =>
          let confidence := max_similarity in
          let region_multiplier :=
            pmin (15 # 10)
                 (1 + (inject_Z (Z.of_nat (length (ev_matches evidence))) - 1)
                      * (2 # 10)) in
          let confidence := confidence * region_multiplier in
          let confidence :=
            fold_left
              (fun confidence currency_data =>
                 if suspicious currency_data
                 then confidence + (1 # 10) else confidence)
              (Dict.values (ev_currency_analysis evidence)) confidence in
          let confidence :=
            fold_left
              (fun confidence temporal_data =>
                 if suspicious_timing temporal_data
                 then confidence + (5 # 100) else confidence)
              (Dict.values (ev_temporal_analysis evidence)) confidence in
          Some (pmin (99 # 100) confidence)
      end
  end.

(** *** [_calculate_potential_loss] *)
Definition _calculate_potential_loss (current_invoice : RegionalInvoice)
    (duplicates : list RegionalInvoice) : Q :=
  let duplicate_usd :=
    fold_left (fun duplicate_usd duplicate => duplicate_usd + to_usd duplicate)
              duplicates 0 in
  round2 duplicate_usd.

(** *** [_generate_action_recommendation]

    The four texts the function returns, by their first words. *)
Inductive Action : Type :=
| IMMEDIATE_ACTION
| HIGH_PRIORITY
| ENHANCED_REVIEW
| MONITOR.

Definition _generate_action_recommendation (confidence_score : Q) : Action :=
  if gtb confidence_score (90 # 100) then IMMEDIATE_ACTION
  else if gtb confidence_score (85 # 100) then HIGH_PRIORITY
  else if gtb confidence_score (75 # 100) then ENHANCED_REVIEW
  else MONITOR.

(** *** [_generate_fraud_alert]

    [alert_id] is kept as the clock reading and the region it is printed
    from; [business_impact], a dictionary of display texts, is left out. *)

Record FraudAlert : Type := {
  alert_id : Z * str;
  fraud_type : str;
  confidence_score : Q;
  affected_regions : list str;
  duplicate_invoices : list RegionalInvoice;
  potential_loss : Q;
  evidence_details : Evidence;
  recommended_action : Action
}.

Definition _generate_fraud_alert (now : Z) (current_invoice : RegionalInvoice)
    (duplicates : list RegionalInvoice) (evidence : Evidence)
    (confidence_score : Q) (potential_loss : Q) : FraudAlert :=
  let affected_regions := region current_invoice :: map region duplicates in
  let all_invoices := current_invoice :: duplicates in
  {| alert_id := (now, region current_invoice);
     fraud_type := of_string "Multi-Regional Duplicate Attack";
     confidence_score := confidence_score;
     affected_regions := list_set affected_regions;
     duplicate_invoices := all_invoices;
     potential_loss := potential_loss;
     evidence_details := evidence;
     recommended_action := _generate_action_recommendation confidence_score |}.

(** *** [_add_to_regional_database] *)
Definition _add_to_regional_database
    (cross_regional_database : list RegionalInvoice)
    (invoice : RegionalInvoice) : list RegionalInvoice :=
  cross_regional_database ++ [invoice].

(** *** [detect_multi_regional_fraud]

    The state of the detector is its database.  [now] and [later] are the
    two readings of the clock, at the creation of the invoice and of the
    alert.  The outcome is [None] when an exception is raised, else the
    value returned ([None] of Python: no alert) and the database left. *)
Definition detect_multi_regional_fraud (now later : Z)
    (cross_regional_database : list RegionalInvoice)
    (invoice_data : InvoiceData)
    : option (option FraudAlert * list RegionalInvoice) :=
  let current_invoice := _create_regional_invoice now invoice_data in
  let potential_duplicates :=
    _search_cross_regional_duplicates cross_regional_database
                                      current_invoice in
  let fraud_evidence :=
    _analyze_content_similarity current_invoice potential_duplicates in
  match _calculate_fraud_confidence fraud_evidence with
  | None => None
  | Some confidence_score =>
      let potential_loss :=
        _calculate_potential_loss current_invoice potential_duplicates in
      if gtb confidence_score (75 # 100) then
        Some (Some (_generate_fraud_alert later current_invoice
                      potential_duplicates fraud_evidence confidence_score
                      potential_loss),
              cross_regional_database)
      else
        Some (None,
              _add_to_regional_database cross_regional_database
                                        current_invoice)
  end.

End Detector.

(** ** The master pipeline: [ApteanAIMasterSystem], fraud analysis *)

Module Master.

Local Open Scope Q_scope.

(** The class of currency symbols of this file: the dollar sign and the
    code points 163 and 165; its other members (U+20AC, U+20B9) are above
    255. *)
Definition currency_symbol (c : ascii) : bool :=
  is_code 36 c || is_code 163 c || is_code 165 c.

(** The class of small letters, digits and the hyphen, case-sensitive. *)
Definition id_char (c : ascii) : bool :=
  is_ascii_lower c || is_digit c || is_code 45 c.

Definition re_invoice_id : regex :=
  cat [lit false (of_string "invoice"); star is_space; opt (is_code 35);
       opt (is_code 58); star is_space; plus id_char].

(** *** [_create_content_fingerprint] *)
Definition _create_content_fingerprint (invoice_text : str) : str :=
  let normalized := lower invoice_text in
  let normalized :=
    sub (Chr currency_symbol) (of_string "CURRENCY") normalized in
  let normalized := sub Detector.re_amount (of_string "AMOUNT") normalized in
  let normalized := sub re_invoice_id (of_string "INVOICE_ID") normalized in
  let normalized := sub Detector.re_date (of_string "DATE") normalized in
  let normalized :=
    sub Detector.re_spaces (of_string " ") (strip normalized) in
  normalized.

(** An entry of [cross_regional_database]: a dictionary with these five
    keys; [timestamp] is the time in microseconds that its ISO text
    denotes. *)
Record Entry : Type := {
  e_invoice_id : str;
  e_region : str;
  e_content_fingerprint : str;
  e_usd_amount : Q;
  e_timestamp : Z
}.

Record Duplicate : Type := {
  dup_invoice_id : str;
  dup_region : str;
  dup_similarity : Q;
  dup_amount_usd : Q;
  dup_time_diff_hours : Q
}.

Record FraudResult : Type := {
  fraud_detected : bool;
  fraud_type : option str;
  confidence : Q;
  potential_duplicates : list Duplicate;
  potential_loss_usd : Q;
  regions_affected : nat
}.

(** The two fields of [invoice_data] the analysis reads besides the text. *)
Record InvoiceData : Type := {
  d_invoice_text : option str;
  d_invoice_id : option str;
  d_region : option str
}.

Definition similarity_threshold : Q := 85 # 100.
Definition time_window_hours : Q := 72.

Definition time_diff (current_time existing_time : Z) : Q :=
  Qabs (inject_Z (current_time - existing_time) / 1000000 / 3600).

Fixpoint scan_database (current_time : Z) (region content_fingerprint : str)
    (database : list Entry) : list Duplicate :=
  match database with
  | [] => []
  | existing_invoice :: rest =>
      if eqs (e_region existing_invoice) region
      then scan_database current_time region content_fingerprint rest
      else
        let time_diff := time_diff current_time (e_timestamp existing_invoice) in
        if gtb time_diff time_window_hours
        then scan_database current_time region content_fingerprint rest
        else
          let similarity :=
            Difflib.ratio content_fingerprint
                          (e_content_fingerprint existing_invoice) in
          if gtb similarity similarity_threshold
          then {| dup_invoice_id := e_invoice_id existing_invoice;
                  dup_region := e_region existing_invoice;
                  dup_similarity := similarity;
                  dup_amount_usd := e_usd_amount existing_invoice;
                  dup_time_diff_hours := time_diff |}
               :: scan_database current_time region content_fingerprint rest
          else scan_database current_time region content_fingerprint rest
  end.

(** *** [_multi_regional_fraud_analysis]

    [current_time] is [datetime.now()] in microseconds; the result is the
    dictionary returned and the database left. *)
Definition _multi_regional_fraud_analysis (current_time : Z)
    (cross_regional_database : list Entry) (invoice_data : InvoiceData)
    (usd_amount : Q) : FraudResult * list Entry :=
  let invoice_text := Detector.get_or (d_invoice_text invoice_data) [] in
  let invoice_id := Detector.get_or (d_invoice_id invoice_data) [] in
  let region := Detector.get_or (d_region invoice_data) (of_string "Unknown") in
  let content_fingerprint := _create_content_fingerprint invoice_text in
  let potential_duplicates :=
    scan_database current_time region content_fingerprint
                  cross_regional_database in
  let result :=
    match potential_duplicates with
    | dup :: rest =>
        {| fraud_detected := true;
           fraud_type := Some (of_string "Multi-Regional Duplicate Attack");
           confidence := fold_left pmax (map dup_similarity rest)
                                   (dup_similarity dup);
           potential_duplicates := potential_duplicates;
           potential_loss_usd :=
             fold_left Qplus (map dup_amount_usd potential_duplicates) 0;
           regions_affected :=
             S (length (Detector.list_set
                          (map dup_region potential_duplicates))) |}
    | [] =>
        {| fraud_detected := false;
           fraud_type := None;
           confidence := 0;
           potential_duplicates := potential_duplicates;
           potential_loss_usd := 0;
           regions_affected := 1 |}
    end in
  (result,
   cross_regional_database ++
   [{| e_invoice_id := invoice_id;
       e_region := region;
       e_content_fingerprint := content_fingerprint;
       e_usd_amount := usd_amount;
       e_timestamp := current_time |}]).

End Master.

(** ** Matches and scans, for the proofs about the normalizer *)

Module Scan.

(** What the matcher explores: [Match r st st'] when [r] can take the
    matcher from the state [st] to the state [st']. *)
Definition within (n : nat) (hi : option nat) : Prop :=
  match hi with
  | None => True
  | Some h => n <= h
  end.

Definition last_char (prev : option ascii) (cs : str) : option ascii :=
  match rev cs with
  | c :: _ => Some c
  | [] => prev
  end.

Inductive Match : regex -> mstate -> mstate -> Prop :=
| M_Eps : forall st, Match Eps st st
| M_Chr : forall p prev c rest pos g,
    p c = true ->
    Match (Chr p) (MState prev (c :: rest) pos g)
                  (MState (Some c) rest (S pos) g)
| M_Rep : forall p lo hi greedy prev cs rest pos g,
    forallb p cs = true -> lo <= length cs -> within (length cs) hi ->
    Match (Rep p lo hi greedy) (MState prev (cs ++ rest) pos g)
          (MState (last_char prev cs) rest (pos + length cs) g)
| M_Seq : forall a b st st' st'',
    Match a st st' -> Match b st' st'' -> Match (Seq a b) st st''
| M_AltL : forall a b st st', Match a st st' -> Match (Alt a b) st st'
| M_AltR : forall a b st st', Match b st st' -> Match (Alt a b) st st'
| M_Grp : forall a st st',
    Match a st st' ->
    Match (Grp a) st
          (MState (m_prev st') (m_rest st') (m_pos st')
                  (Some (m_pos st, m_pos st')))
| M_Bnd : forall st,
    xorb (is_word_opt (m_prev st)) (is_word_opt (hd_error (m_rest st)))
    = true ->
    Match Bnd st st
| M_Eos : forall st,
    (m_rest st = [] \/ exists c, m_rest st = [c] /\ is_code 10 c = true) ->
    Match Eos st st.

(** A detector that reads a text from the left, one character at a time,
    until it accepts, rejects or the text ends. *)
Inductive outcome (Q : Type) : Type :=
| Acc : outcome Q
| Rej : outcome Q
| Go : Q -> outcome Q.

Arguments Acc {Q}.
Arguments Rej {Q}.
Arguments Go {Q} _.

Section Automaton.
Variable Q : Type.
Variable delta : Q -> ascii -> outcome Q.
Variable fin : Q -> bool.
Variable init : Q.
Variable okp : option ascii -> bool.

Fixpoint run (q : Q) (s : str) : bool :=
  match s with
  | [] => fin q
  | c :: s' =>
      match delta q c with
      | Acc => true
      | Rej => false
      | Go q' => run q' s'
      end
  end.

(** The detector fires at the head of [s], [prev] being the character
    before. *)
Definition fires (prev : option ascii) (s : str) : bool :=
  okp prev && run init s.

(** The detector fires at no place of [s]. *)
Fixpoint nowhere (prev : option ascii) (s : str) : Prop :=
  fires prev s = false
  /\ match s with
     | [] => True
     | c :: s' => nowhere (Some c) s'
     end.

(** Wherever the pattern [r] does not match in [s], the detector does not
    fire. *)
Fixpoint copy_ok (r : regex) (prev : option ascii) (s : str) : Prop :=
  (match_at r prev s = None -> fires prev s = false)
  /\ match s with
     | [] => True
     | c :: s' => copy_ok r (Some c) s'
     end.

(** The detector fires at no place of a token, whatever follows it. *)
Fixpoint token_ok (prev : option ascii) (token : str) : Prop :=
  match token with
  | [] => True
  | x :: token' =>
      (forall w, fires prev (x :: token' ++ w) = false)
      /\ token_ok (Some x) token'
  end.

End Automaton.

(** The detector of the invoice-number pattern. *)
Inductive inv_state : Type :=
| I0 | I1 | I2 | I3 | I4 | I5 | I6 | T1 | T2 | T4.

Definition letter (l : string) (c : ascii) : bool :=
  match of_string l with
  | [x] => lit_char true x c
  | _ => false
  end.

Definition inv_delta (q : inv_state) (c : ascii) : outcome inv_state :=
  match q with
  | I0 => if letter "I" c then Go I1 else Rej
  | I1 => if letter "n" c then Go I2 else Rej
  | I2 => if letter "v" c then Go I3 else Rej
  | I3 => if letter "o" c then Go I4 else Rej
  | I4 => if letter "i" c then Go I5 else Rej
  | I5 => if letter "c" c then Go I6 else Rej
  | I6 => if letter "e" c then Go T1 else Rej
  | T1 => if is_space c then Go T1
          else if is_code 35 c then Go T2
          else if is_code 58 c then Go T4
          else if Detector.ref_char c then Acc else Rej
  | T2 => if is_code 58 c then Go T4
          else if is_space c then Go T4
          else if Detector.ref_char c then Acc else Rej
  | T4 => if is_space c then Go T4
          else if Detector.ref_char c then Acc else Rej
  end.

Definition inv_fin (q : inv_state) : bool := false.
Definition inv_okp (prev : option ascii) : bool := true.

Definition inv_fires : option ascii -> str -> bool :=
  fires inv_delta inv_fin I0 inv_okp.

(** The detector of the currency-code pattern. *)
Inductive code_state : Type :=
| C0 | Cu | Cus | Ce | Ceu | Cg | Cgb | Ci | Cin | Cj | Cjp | Cc | Cca | Cend.

Definition code_delta (q : code_state) (c : ascii) : outcome code_state :=
  match q with
  | C0 => if letter "U" c then Go Cu
          else if letter "E" c then Go Ce
          else if letter "G" c then Go Cg
          else if letter "I" c then Go Ci
          else if letter "J" c then Go Cj
          else if letter "C" c then Go Cc
          else Rej
  | Cu => if letter "S" c then Go Cus else Rej
  | Cus => if letter "D" c then Go Cend else Rej
  | Ce => if letter "U" c then Go Ceu else Rej
  | Ceu => if letter "R" c then Go Cend else Rej
  | Cg => if letter "B" c then Go Cgb else Rej
  | Cgb => if letter "P" c then Go Cend else Rej
  | Ci => if letter "N" c then Go Cin else Rej
  | Cin => if letter "R" c then Go Cend else Rej
  | Cj => if letter "P" c then Go Cjp else Rej
  | Cjp => if letter "Y" c then Go Cend else Rej
  | Cc => if letter "A" c then Go Cca else Rej
  | Cca => if letter "D" c then Go Cend else Rej
  | Cend => if is_word c then Rej else Acc
  end.

Definition code_fin (q : code_state) : bool :=
  match q with
  | Cend => true
  | _ => false
  end.

Definition code_okp (prev : option ascii) : bool := negb (is_word_opt prev).

Definition code_fires : option ascii -> str -> bool :=
  fires code_delta code_fin C0 code_okp.

(** Every run of blanks replaced by one space: what the substitution of
    the blanks pattern does.  [in_run] tells that the character before was
    a blank. *)
Fixpoint collapse (in_run : bool) (s : str) : str :=
  match s with
  | [] => []
  | c :: s' =>
      if is_space c
      then (if in_run then collapse true s'
            else chr 32 :: collapse true s')
      else c :: collapse false s'
  end.

(** The 256 characters. *)
Definition all_chars : list ascii := map ascii_of_nat (seq 0 256).

(** A text without currency symbol and digit, in which neither detector
    fires. *)
Definition plain (s : str) : Prop :=
  Forall (fun c => Detector.currency_symbol c = false) s
  /\ Forall (fun c => is_digit c = false) s
  /\ nowhere code_delta code_fin C0 code_okp None s
  /\ nowhere inv_delta inv_fin I0 inv_okp None s.

(** *** Vocabulary of the proofs about the normalizer *)

(** The pattern [r] matches at no place of [s]: the substitution changes
    nothing. *)
Fixpoint unmatched (r : regex) (prev : option ascii) (s : str) : Prop :=
  match_at r prev s = None
  /\ match s with
     | [] => True
     | c :: s' => unmatched r (Some c) s'
     end.

(** Every match of [r] begins with a character of the class [P]. *)
Definition starts (P : ascii -> bool) (r : regex) : Prop :=
  forall st st',
    Match r st st' ->
    exists c rest,
      m_rest st = c :: rest /\ P c = true /\ m_pos st < m_pos st'.

(** The length of the longest prefix in the class [p]. *)
Fixpoint span (p : ascii -> bool) (s : str) : nat :=
  match s with
  | c :: s' => if p c then S (span p s') else 0
  | [] => 0
  end.

(** The shape of a text after the word [Invoice], for the pattern and for
    the detector. *)
Definition inv_tail (x : str) : Prop :=
  exists sp1 h k sp2 c rest,
    x = sp1 ++ h ++ k ++ sp2 ++ [c] ++ rest
    /\ forallb is_space sp1 = true
    /\ forallb (is_code 35) h = true /\ length h <= 1
    /\ forallb (is_code 58) k = true /\ length k <= 1
    /\ forallb is_space sp2 = true
    /\ Detector.ref_char c = true.

(** The head of the text is no blank. *)
Definition no_lead (s : str) : Prop :=
  match s with
  | c :: _ => is_space c = false
  | [] => True
  end.

(** The states of the two detectors, and their numbers. *)
Definition inv_states : list inv_state :=
  [I0; I1; I2; I3; I4; I5; I6; T1; T2; T4].

Definition code_states : list code_state :=
  [C0; Cu; Cus; Ce; Ceu; Cg; Cgb; Ci; Cin; Cj; Cjp; Cc; Cca; Cend].

Definition inv_index (q : inv_state) : nat :=
  match q with
  | I0 => 0 | I1 => 1 | I2 => 2 | I3 => 3 | I4 => 4 | I5 => 5 | I6 => 6
  | T1 => 7 | T2 => 8 | T4 => 9
  end.

Definition code_index (q : code_state) : nat :=
  match q with
  | C0 => 0 | Cu => 1 | Cus => 2 | Ce => 3 | Ceu => 4 | Cg => 5 | Cgb => 6
  | Ci => 7 | Cin => 8 | Cj => 9 | Cjp => 10 | Cc => 11 | Cca => 12
  | Cend => 13
  end.

Definition same_outcome (Q : Type) (index : Q -> nat) (a b : outcome Q)
    : bool :=
  match a, b with
  | Acc, Acc => true
  | Rej, Rej => true
  | Go x, Go y => index x =? index y
  | _, _ => false
  end.

(** The five substitutions of the volatile patterns, in the order of
    [_normalize_content_for_comparison]. *)
Definition volatile (s : str) : str :=
  sub Detector.re_amount (of_string "AMOUNT")
    (sub Detector.re_date (of_string "DATE")
       (sub Detector.re_invoice_number (of_string "INVOICE_NUMBER")
          (sub Detector.re_currency_code (of_string "CURRENCY")
             (sub Detector.re_currency_symbol (of_string "CURRENCY") s)))).


End Scan.

(** ** Vocabulary of the properties *)

Module Props.

Import Detector.

Local Open Scope Q_scope.

(** [p] occurs in [s] as a contiguous part. *)
Definition substring (p s : str) : Prop :=
  exists before after : str, s = before ++ p ++ after.

(** Both references are present and equal up to the case of letters. *)
Definition same_po (i1 i2 : RegionalInvoice) : Prop :=
  po_reference (fingerprint i1) <> []
  /\ po_reference (fingerprint i2) <> []
  /\ lower (po_reference (fingerprint i1))
     = lower (po_reference (fingerprint i2)).

Definition similar_vendor (i1 i2 : RegionalInvoice) : Prop :=
  vendor_name (fingerprint i1) <> []
  /\ vendor_name (fingerprint i2) <> []
  /\ 8 # 10 < Difflib.ratio (lower (vendor_name (fingerprint i1)))
                            (lower (vendor_name (fingerprint i2))).

(** The address of [i1] occurs in the address of [i2]. *)
Definition address_within (i1 i2 : RegionalInvoice) : Prop :=
  delivery_address (fingerprint i1) <> []
  /\ delivery_address (fingerprint i2) <> []
  /\ substring (lower (delivery_address (fingerprint i1)))
               (lower (delivery_address (fingerprint i2))).

(** Sum of a list of rationals. *)
Definition total (l : list Q) : Q := fold_right Qplus 0 l.

(** Mean of the similarity of all pairs of two lists of line items. *)
Definition pairwise_average (items1 items2 : list str) : Q :=
  total (map (fun p => Difflib.ratio (lower (fst p)) (lower (snd p)))
             (list_prod items1 items2))
  / inject_Z (Z.of_nat (length (list_prod items1 items2))).

Definition po_indicator (i1 i2 : RegionalInvoice) : Q :=
  if truthy (po_reference (fingerprint i1))
     && truthy (po_reference (fingerprint i2))
     && eqs (lower (po_reference (fingerprint i1)))
            (lower (po_reference (fingerprint i2)))
  then 1 else 0.

(** The similarity of the delivery addresses, [0] when one is missing. *)
Definition address_score (i1 i2 : RegionalInvoice) : Q :=
  if truthy (delivery_address (fingerprint i1))
     && truthy (delivery_address (fingerprint i2))
  then Difflib.ratio (lower (delivery_address (fingerprint i1)))
                     (lower (delivery_address (fingerprint i2)))
  else 0.


(** The stored invoice lies in the time window of the current one and in
    another region. *)
Definition in_window (current existing : RegionalInvoice) : Prop :=
  (Z.abs (submission_timestamp current - submission_timestamp existing)
   <= 72 * 3600)%Z.

Definition in_windowb (current existing : RegionalInvoice) : bool :=
  (Z.abs (submission_timestamp current - submission_timestamp existing)
   <=? 72 * 3600)%Z.

Definition other_regionb (current existing : RegionalInvoice) : bool :=
  negb (eqs (region existing) (region current)).

(** The detailed similarity of a candidate is above the pairwise
    threshold. *)
Definition is_match (current candidate : RegionalInvoice) : bool :=
  gtb (overall_similarity (_compare_invoices_detailed current candidate))
      (85 # 100).

Definition flagged_currency (current candidate : RegionalInvoice) : bool :=
  suspicious (_analyze_currency_relationship current candidate).

Definition flagged_timing (current candidate : RegionalInvoice) : bool :=
  ltb (hours_diff current candidate) 72.

Definition count {A : Type} (f : A -> bool) (l : list A) : Q :=
  inject_Z (Z.of_nat (length (filter f l))).

(** The largest of a list of rationals, [0] for the empty list. *)
Definition largest (l : list Q) : Q :=
  match l with
  | [] => 0
  | v :: rest => fold_right Qmax v rest
  end.

Definition clamp (lo hi x : Q) : Q := Qmax lo (Qmin hi x).

(** The confidence as the specification words it, for the matches [ms] of
    the invoice [current]. *)
Definition aggregate_spec (current : RegionalInvoice)
    (ms : list RegionalInvoice) : Q :=
  match ms with
  | [] => 0
  | _ :: _ =>
      clamp 0 (99 # 100)
        (largest
           (map (fun m =>
                   overall_similarity (_compare_invoices_detailed current m))
                ms)
         * Qmin (15 # 10)
                (1 + (2 # 10) * (inject_Z (Z.of_nat (length ms)) - 1))
         + (10 # 100) * count (flagged_currency current) ms
         + (5 # 100) * count (flagged_timing current) ms)
  end.



(** A run of the detector over a list of submissions, one clock reading
    each; an alert leaves the database as it is. *)
Fixpoint run (db : list RegionalInvoice) (subs : list (Z * InvoiceData))
    : option (list (option FraudAlert) * list RegionalInvoice) :=
  match subs with
  | [] => Some ([], db)
  | (now, d) :: rest =>
      match detect_multi_regional_fraud now now db d with
      | None => None
      | Some (res, db') =>
          match run db' rest with
          | None => None
          | Some (ress, db'') => Some (res :: ress, db'')
          end
      end
  end.

(** A run of the master analysis over a list of submissions: the clock
    reading, the invoice and its amount in the common unit. *)
Fixpoint master_run (db : list Master.Entry)
    (subs : list (Z * Master.InvoiceData * Q))
    : list Master.FraudResult * list Master.Entry :=
  match subs with
  | [] => ([], db)
  | (now, d, usd) :: rest =>
      let '(res, db') := Master._multi_regional_fraud_analysis now db d usd in
      let '(ress, db'') := master_run db' rest in
      (res :: ress, db'')
  end.

(** What the master analysis reads of an invoice. *)
Definition master_view (d : InvoiceData) : Master.InvoiceData :=
  {| Master.d_invoice_text := d_invoice_text d;
     Master.d_invoice_id := d_invoice_id d;
     Master.d_region := d_region d |}.

End Props.

(** ** Sample invoices *)

Module Samples.

Import Detector.

Local Open Scope Q_scope.

Definition text_widget : string :=
  "From: Acme GmbH
Description: Widget
Delivery: Munich
PO: A-1
".


Definition invoice (id reg cur : string) (amount : Q) (text : string)
    : InvoiceData :=
  {| d_invoice_id := Some (of_string id);
     d_region := Some (of_string reg);
     d_currency := Some (of_string cur);
     d_total_amount := Some amount;
     d_invoice_text := Some (of_string text) |}.

Definition de_1 : InvoiceData := invoice "DE-1" "Germany" "EUR" 100 text_widget.
Definition us_1 : InvoiceData := invoice "US-1" "USA" "USD" 118 text_widget.

(** A fingerprint with the two delivery addresses of the first scenario
    of the specification and nothing else. *)
Definition address_fingerprint (address : string) : InvoiceFingerprint :=
  {| content_hash := [];
     vendor_name := [];
     line_items := [];
     amounts := [];
     po_reference := [];
     delivery_address := of_string address;
     normalized_content := [];
     extracted_keywords := [] |}.

Definition address_invoice (reg address : string) : RegionalInvoice :=
  {| invoice_id := [];
     region := of_string reg;
     currency := of_string "USD";
     total_amount := 0;
     submission_timestamp := 0;
     fingerprint := address_fingerprint address;
     processing_status := of_string "pending" |}.

(** An invoice of amount zero, for the variance. *)
Definition zero_invoice (reg : string) : RegionalInvoice :=
  address_invoice reg "".

End Samples.


(** ** The master pipeline: routing, currency, vendor, decision, statistics

    The other methods of [ApteanAIMasterSystem].  What [process_invoice]
    prints, and [_calculate_comprehensive_business_impact], which only
    builds display texts, are left out; so is the field [business_impact]
    of the result. *)

Module Pipeline.

Local Open Scope Q_scope.

(** *** Configuration: [__init__] *)

Record Center : Type := {
  center_currency : str;
  center_timezone : str;
  center_language : str
}.

Definition center (cur tz lang : string) : Center :=
  {| center_currency := of_string cur;
     center_timezone := of_string tz;
     center_language := of_string lang |}.

Definition regional_centers : Dict.dict Center :=
  [ (of_string "Germany", center "EUR" "CET" "German");
    (of_string "USA", center "USD" "EST/PST" "English");
    (of_string "UK", center "GBP" "GMT" "English");
    (of_string "India", center "INR" "IST" "Hindi/English");
    (of_string "France", center "EUR" "CET" "French");
    (of_string "Canada", center "CAD" "EST/PST" "English") ].

Definition currency_rates_to_usd : Dict.dict Q :=
  [ (of_string "USD", 1); (of_string "EUR", 118 # 100);
    (of_string "GBP", 128 # 100); (of_string "INR", 12 # 1000);
    (of_string "CAD", 74 # 100); (of_string "JPY", 67 # 10000) ].

(** A character above 255, the euro sign or the rupee sign: no character
    of a text of the model is one. *)
Definition beyond (c : ascii) : bool := false.

(** [[\d,]+\.?\d*] *)
Definition re_number : regex :=
  cat [plus Detector.digit_comma; opt (is_code 46); star is_digit].

(** A symbol, blanks and a number; a number, blanks and a code.  The
    patterns are used with [re.IGNORECASE]. *)
Definition re_symbol_number (symbol : regex) : regex :=
  cat [symbol; star is_space; re_number].

Definition re_number_code (code : string) : regex :=
  cat [re_number; star is_space; lit true (of_string code)].

Definition currency_patterns : Dict.dict (list regex) :=
  [ (of_string "USD",
     [re_symbol_number (Chr (is_code 36)); re_number_code "USD"]);
    (of_string "EUR",
     [re_symbol_number (Chr beyond); re_number_code "EUR"]);
    (of_string "INR",
     [re_symbol_number (Chr beyond);
      cat [lit true (of_string "Rs"); opt (is_code 46); star is_space;
           re_number]]);
    (of_string "GBP",
     [re_symbol_number (Chr (is_code 163)); re_number_code "GBP"]);
    (of_string "JPY",
     [cat [Chr (is_code 165); star is_space; plus Detector.digit_comma];
      cat [plus Detector.digit_comma; star is_space;
           lit true (of_string "JPY")]]);
    (of_string "CAD",
     [re_symbol_number (cat [lit true (of_string "C"); Chr (is_code 36)]);
      re_number_code "CAD"]) ].

Record Vendor : Type := {
  variations : list str;
  vendor_risk_level : str
}.

Definition legitimate_vendors : Dict.dict Vendor :=
  [ (of_string "Microsoft",
     {| variations := map of_string
          ["Microsoft Corporation"; "Microsoft India";
           "Microsoft Deutschland"; "Microsoft UK"]%string;
        vendor_risk_level := of_string "LOW" |});
    (of_string "SAP",
     {| variations := map of_string
          ["SAP SE"; "SAP America"; "SAP Labs India";
           "SAP Deutschland"]%string;
        vendor_risk_level := of_string "LOW" |});
    (of_string "Amazon",
     {| variations := map of_string
          ["Amazon.com Inc"; "Amazon Web Services"; "Amazon India";
           "Amazon EU"]%string;
        vendor_risk_level := of_string "LOW" |}) ].

(** The misspellings, each an alternation of literals. *)
Definition misspellings (ws : list string) : regex :=
  alts (map (fun w => lit true (of_string w)) ws).

Definition fraud_patterns : list regex :=
  [ misspellings ["Mircosoft"; "Mcirosoft"; "Microsooft"]%string;
    misspellings ["Gogle"; "Googel"; "Gooogle"]%string;
    misspellings ["Amazone"; "Amazoon"; "Amzon"]%string ].

(** *** Helpers of the model *)

(** [d[key]]: [None] stands for [KeyError]. *)
Fixpoint lookup {V : Type} (d : Dict.dict V) (key : str) : option V :=
  match d with
  | [] => None
  | (k', v') :: d' => if eqs k' key then Some v' else lookup d' key
  end.

(** [max(d.keys(), key=lambda x: d[x])]: the first key of the largest
    value; [lt a b] is [a < b]. *)
Fixpoint max_key_from {V : Type} (lt : V -> V -> bool) (d : Dict.dict V)
    (best : str) (best_value : V) : str :=
  match d with
  | [] => best
  | (k, v) :: d' =>
      if lt best_value v then max_key_from lt d' k v
      else max_key_from lt d' best best_value
  end.

Definition max_key {V : Type} (lt : V -> V -> bool) (d : Dict.dict V)
    (default : str) : str :=
  match d with
  | [] => default
  | (k, v) :: d' => max_key_from lt d' k v
  end.

Definition is_some {A : Type} (o : option A) : bool :=
  match o with
  | Some _ => true
  | None => false
  end.

(** [sum(1 for indicator in indicators
         if indicator.lower() in invoice_text.lower())] *)
Definition indicator_score (indicators : list str) (invoice_text : str)
    : nat :=
  length (filter (fun indicator =>
                    contains (lower indicator) (lower invoice_text))
                 indicators).

(** The loop [for name, indicators in table.items(): score = ...;
    if score > 0: scores[name] = score]. *)
Definition indicator_scores (table : Dict.dict (list str))
    (invoice_text : str) : Dict.dict nat :=
  fold_left
    (fun scores '(name, indicators) =>
       let score := indicator_score indicators invoice_text in
       if (0 <? score)%nat then Dict.set scores name score else scores)
    table [].

(** *** [_geographic_routing_analysis] *)

(** The three indicators of Hindi are written in Devanagari, above 255:
    no text of the model contains one, and the list is empty here. *)
Definition language_indicators : Dict.dict (list str) :=
  [ (of_string "German",
     map of_string
       ["Rechnung"; "Betrag"; "Datum"; "USt-IdNr"; "MwSt";
        "Deutschland"]%string);
    (of_string "English",
     map of_string ["Invoice"; "Amount"; "Total"; "Payment"; "Tax"]%string);
    (of_string "Hindi", []);
    (of_string "French",
     map of_string ["Facture"; "Montant"; "TVA"; "France"]%string) ].

(** [M], u with diaeresis (code 252), [nchen]. *)
Definition munich : str := of_string "M" ++ [chr 252] ++ of_string "nchen".

Definition location_indicators : Dict.dict (list str) :=
  [ (of_string "Germany",
     [of_string "Deutschland"; munich; of_string "Berlin";
      of_string "Hamburg"]);
    (of_string "USA",
     map of_string ["USA"; "United States"; "California"; "New York"]%string);
    (of_string "UK",
     map of_string ["United Kingdom"; "London"; "Birmingham"]%string);
    (of_string "India",
     map of_string ["India"; "Bangalore"; "Mumbai"; "Delhi"]%string);
    (of_string "France", map of_string ["France"; "Paris"; "Lyon"]%string);
    (of_string "Canada",
     map of_string ["Canada"; "Toronto"; "Vancouver"]%string) ].

(** The loops over the currency patterns that stop at the first pattern
    found in the text. *)
Fixpoint detect_currency (patterns : Dict.dict (list regex))
    (invoice_text : str) : option str :=
  match patterns with
  | [] => None
  | (currency, ps) :: rest =>
      if existsb (fun pattern => is_some (search pattern invoice_text)) ps
      then Some currency
      else detect_currency rest invoice_text
  end.

Definition opt_eqs (o : option str) (s : str) : bool :=
  match o with
  | Some x => eqs x s
  | None => false
  end.

Definition region_score (language_scores : Dict.dict nat)
    (detected_currency : option str) (location_scores : Dict.dict nat)
    (region : str) (config : Center) : Q :=
  let score := 0 in
  let score :=
    if (0 <? Dict.get language_scores (center_language config) O)%nat
    then score + (4 # 10) else score in
  let score :=
    if opt_eqs detected_currency (center_currency config)
    then score + (3 # 10) else score in
  let score :=
    if (0 <? Dict.get location_scores region O)%nat
    then score + (3 # 10) else score in
  score.

Record GeographicResult : Type := {
  geo_region : str;
  geo_confidence : Q;
  detected_language : str;
  detected_currency : str;
  processing_pipeline : Center
}.

(** [None] stands for the [KeyError] of [self.regional_centers[best_region]]. *)
Definition _geographic_routing_analysis (invoice_data : Master.InvoiceData)
    : option GeographicResult :=
  let invoice_text :=
    Detector.get_or (Master.d_invoice_text invoice_data) [] in
  let language_scores := indicator_scores language_indicators invoice_text in
  let detected := detect_currency currency_patterns invoice_text in
  let location_scores := indicator_scores location_indicators invoice_text in
  let region_scores :=
    fold_left
      (fun scores '(region, config) =>
         Dict.set scores region
           (region_score language_scores detected location_scores
                         region config))
      regional_centers [] in
  let best_region := max_key ltb region_scores (of_string "USA") in
  let confidence := Dict.get region_scores best_region (1 # 2) in
  match lookup regional_centers best_region with
  | None => None
  | Some pipeline =>
      Some {| geo_region := best_region;
              geo_confidence := confidence;
              detected_language :=
                max_key Nat.ltb language_scores (of_string "English");
              detected_currency :=
                match detected with
                | Some currency => currency
                | None => of_string "USD"
                end;
              processing_pipeline := pipeline |}
  end.

(** *** [_currency_standardization_analysis] *)

(** [re.sub(r'[^\d.,]', '', match)] *)
Definition numeric_text_of (m : str) : str :=
  sub (Chr (fun c => negb (is_digit c || is_code 46 c || is_code 44 c)))
      [] m.

(** [text.split(',')[-1]]: what follows the last comma. *)
Fixpoint last_part (s : str) (acc : str) : str :=
  match s with
  | [] => rev acc
  | c :: s' => if is_code 44 c then last_part s' [] else last_part s' (c :: acc)
  end.

Definition replace_comma_by_point (s : str) : str :=
  map (fun c => if is_code 44 c then chr 46 else c) s.

(** The body of the [try]: the text given to [float]. *)
Definition decimal_text (numeric_text : str) : str :=
  let has_comma := existsb (is_code 44) numeric_text in
  let has_point := existsb (is_code 46) numeric_text in
  if has_comma && has_point then remove_char (chr 44) numeric_text
  else if has_comma then
    if (length (last_part numeric_text []) <=? 2)%nat
    then replace_comma_by_point numeric_text
    else remove_char (chr 44) numeric_text
  else numeric_text.

(** The amounts of one currency: over its patterns, over their matches. *)
Definition amounts_in (patterns : list regex) (invoice_text : str) : list Q :=
  flat_map
    (fun pattern =>
       flat_map
         (fun m =>
            match parse_float (decimal_text (numeric_text_of m)) with
            | Some amount => [amount]
            | None => []
            end)
         (findall pattern invoice_text))
    patterns.

Definition detect_amounts (invoice_text : str) : Dict.dict Q :=
  fold_left
    (fun detected_amounts '(currency, patterns) =>
       match Detector.py_max (amounts_in patterns invoice_text) with
       | Some largest => Dict.set detected_amounts currency largest
       | None => detected_amounts
       end)
    currency_patterns [].

Record CurrencyResult : Type := {
  conversion_performed : bool;
  original_currency : str;
  original_amount : Q;
  usd_amount : Q;
  exchange_rate : Q;
  cur_confidence : Q
}.

(** [None] stands for the [KeyError] of
    [detected_amounts[primary_currency]]. *)
Definition _currency_standardization_analysis
    (invoice_data : Master.InvoiceData) : option CurrencyResult :=
  let invoice_text :=
    Detector.get_or (Master.d_invoice_text invoice_data) [] in
  let detected_amounts := detect_amounts invoice_text in
  match detected_amounts with
  | [] =>
      Some {| conversion_performed := false;
              original_currency := of_string "USD";
              original_amount := 0;
              usd_amount := 0;
              exchange_rate := 1;
              cur_confidence := 0 |}
  | _ :: _ =>
      let primary_currency := max_key ltb detected_amounts [] in
      match lookup detected_amounts primary_currency with
      | None => None
      | Some original_amount =>
          let '(usd_amount, conversion_performed, exchange_rate) :=
            if eqs primary_currency (of_string "USD")
            then (original_amount, false, 1)
            else
              let exchange_rate :=
                Dict.get currency_rates_to_usd primary_currency 1 in
              (original_amount * exchange_rate, true, exchange_rate) in
          Some {| conversion_performed := conversion_performed;
                  original_currency := primary_currency;
                  original_amount := original_amount;
                  usd_amount := round2 usd_amount;
                  exchange_rate := exchange_rate;
                  cur_confidence := 9 # 10 |}
      end
  end.

(** *** [_vendor_verification_analysis] *)

Record VendorResult : Type := {
  legitimacy_status : str;
  ven_confidence : Q;
  risk_level : str;
  ven_vendor_name : str;
  fraud_indicators : list str
}.

(** The three variables the two loops assign. *)
Definition verdict : Type := (str * Q * str)%type.

(** The inner loop: the first variation similar enough decides, and ends
    the loop over the variations of this vendor. *)
Fixpoint check_variations (vendor_name : str) (vs : list str)
    (risk : str) (v : verdict) : verdict :=
  match vs with
  | [] => v
  | variation :: rest =>
      let similarity :=
        Difflib.ratio (lower vendor_name) (lower variation) in
      if gtb similarity (85 # 100)
      then (of_string "LEGITIMATE", similarity, risk)
      else check_variations vendor_name rest risk v
  end.

Definition check_vendors (vendor_name : str) (v : verdict) : verdict :=
  fold_left
    (fun v '(_, details) =>
       check_variations vendor_name (variations details)
                        (vendor_risk_level details) v)
    legitimate_vendors v.

Definition _vendor_verification_analysis (invoice_data : Master.InvoiceData)
    : VendorResult :=
  let invoice_text :=
    Detector.get_or (Master.d_invoice_text invoice_data) [] in
  let vendor_name :=
    Detector.first_match Detector.vendor_patterns invoice_text in
  if negb (truthy vendor_name) then
    {| legitimacy_status := of_string "UNKNOWN";
       ven_confidence := 1 # 2;
       risk_level := of_string "MEDIUM";
       ven_vendor_name := of_string "Not detected";
       fraud_indicators := [] |}
  else
    let '(legitimacy_status, confidence, risk_level) :=
      check_vendors vendor_name
        (of_string "UNKNOWN", 1 # 2, of_string "MEDIUM") in
    if existsb (fun pattern => is_some (search pattern vendor_name))
               fraud_patterns
    then
      {| legitimacy_status := of_string "FRAUDULENT";
         ven_confidence := 95 # 100;
         risk_level := of_string "CRITICAL";
         ven_vendor_name := vendor_name;
         fraud_indicators := [of_string "Misspelled legitimate vendor name"] |}
    else
      {| legitimacy_status := legitimacy_status;
         ven_confidence := confidence;
         risk_level := risk_level;
         ven_vendor_name := vendor_name;
         fraud_indicators := [] |}.

(** *** [_make_final_decision] *)

(** The six recommendations, by their first words. *)
Inductive Recommendation : Type :=
| BLOCK_FRAUD_RISK
| BLOCK_FRAUDULENT_VENDOR
| MANUAL_REVIEW
| APPROVE
| ENHANCED_VERIFICATION
| INSUFFICIENT_DATA.

Record Decision : Type := {
  recommendation : Recommendation;
  dec_confidence : Q;
  factors : list (str * Q)
}.

Definition _make_final_decision (geographic_result : GeographicResult)
    (currency_result : CurrencyResult) (vendor_result : VendorResult)
    (fraud_result : Master.FraudResult) : Decision :=
  let factors := [] in
  let factors :=
    if gtb (geo_confidence geographic_result) (8 # 10)
    then factors ++ [(of_string "geographic_high_confidence", 2 # 10)]
    else if gtb (geo_confidence geographic_result) (5 # 10)
    then factors ++ [(of_string "geographic_medium_confidence", 1 # 10)]
    else factors in
  let factors :=
    if gtb (cur_confidence currency_result) (8 # 10)
    then factors ++ [(of_string "currency_high_confidence", 1 # 10)]
    else factors in
  let factors :=
    if eqs (legitimacy_status vendor_result) (of_string "LEGITIMATE")
    then factors ++ [(of_string "vendor_legitimate", 3 # 10)]
    else if eqs (legitimacy_status vendor_result) (of_string "FRAUDULENT")
    then factors ++ [(of_string "vendor_fraudulent", - (5 # 10))]
    else if eqs (risk_level vendor_result) (of_string "CRITICAL")
    then factors ++ [(of_string "vendor_critical_risk", - (3 # 10))]
    else factors in
  let factors :=
    if Master.fraud_detected fraud_result then
      if gtb (Master.confidence fraud_result) (9 # 10)
      then factors ++ [(of_string "fraud_high_confidence", - (4 # 10))]
      else factors ++ [(of_string "fraud_medium_confidence", - (2 # 10))]
    else factors ++ [(of_string "no_fraud_detected", 2 # 10)] in
  let base_confidence :=
    fold_left (fun base_confidence '(_, weight) => base_confidence + weight)
              factors (5 # 10) in
  let overall_confidence := pmax (1 # 10) (pmin (99 # 100) base_confidence) in
  let recommendation :=
    if Master.fraud_detected fraud_result
       && gtb (Master.confidence fraud_result) (85 # 100)
    then BLOCK_FRAUD_RISK
    else if eqs (legitimacy_status vendor_result) (of_string "FRAUDULENT")
    then BLOCK_FRAUDULENT_VENDOR
    else if eqs (risk_level vendor_result) (of_string "CRITICAL")
    then MANUAL_REVIEW
    else if gtb overall_confidence (8 # 10) then APPROVE
    else if gtb overall_confidence (6 # 10) then ENHANCED_VERIFICATION
    else INSUFFICIENT_DATA in
  {| recommendation := recommendation;
     dec_confidence := overall_confidence;
     factors := factors |}.

(** *** [_update_system_stats] and [get_system_statistics] *)

Record Stats : Type := {
  total_invoices_processed : nat;
  frauds_detected : nat;
  duplicates_prevented : nat;
  total_savings_usd : Q
}.

Definition initial_stats : Stats :=
  {| total_invoices_processed := 0;
     frauds_detected := 0;
     duplicates_prevented := 0;
     total_savings_usd := 0 |}.

Definition _update_system_stats (processing_stats : Stats)
    (fraud_result : Master.FraudResult) (currency_result : CurrencyResult)
    : Stats :=
  let total := S (total_invoices_processed processing_stats) in
  if Master.fraud_detected fraud_result then
    {| total_invoices_processed := total;
       frauds_detected := S (frauds_detected processing_stats);
       duplicates_prevented :=
         duplicates_prevented processing_stats
         + length (Master.potential_duplicates fraud_result);
       total_savings_usd :=
         total_savings_usd processing_stats
         + Master.potential_loss_usd fraud_result |}
  else
    {| total_invoices_processed := total;
       frauds_detected := frauds_detected processing_stats;
       duplicates_prevented := duplicates_prevented processing_stats;
       total_savings_usd := total_savings_usd processing_stats |}.

(** The state of the system: its database and its statistics. *)
Record System : Type := {
  cross_regional_database : list Master.Entry;
  processing_stats : Stats
}.

Definition initial_system : System :=
  {| cross_regional_database := []; processing_stats := initial_stats |}.

Record Statistics : Type := {
  st_processing_stats : Stats;
  database_size : nat;
  supported_regions : list str;
  supported_currencies : list str;
  fraud_detection_rate : Q
}.

Definition get_system_statistics (self : System) : Statistics :=
  {| st_processing_stats := processing_stats self;
     database_size := length (cross_regional_database self);
     supported_regions := Dict.keys regional_centers;
     supported_currencies := Dict.keys currency_patterns;
     fraud_detection_rate :=
       inject_Z (Z.of_nat (frauds_detected (processing_stats self)))
       / inject_Z (Z.of_nat
                     (Nat.max 1 (total_invoices_processed
                                   (processing_stats self))))
       * 100 |}.

(** *** [process_invoice] *)

(** The seven readings of the clock, in microseconds: at the start, after
    each of the first three steps, inside the fraud analysis, after it and
    at the end. *)
Record Readings : Type := {
  start_time : Z;
  after_geographic : Z;
  after_currency : Z;
  after_vendor : Z;
  in_analysis : Z;
  after_fraud : Z;
  end_time : Z
}.

Inductive StepResult : Type :=
| Geographic : GeographicResult -> StepResult
| Currency : CurrencyResult -> StepResult
| VendorCheck : VendorResult -> StepResult
| Fraud : Master.FraudResult -> StepResult.

Record ProcessingResult : Type := {
  invoice_id : str;
  geographic_routing : GeographicResult;
  currency_conversion : CurrencyResult;
  vendor_verification : VendorResult;
  fraud_detection : Master.FraudResult;
  final_recommendation : Recommendation;
  confidence_score : Q;
  processing_time_seconds : Q;
  audit_trail : list (str * Z * StepResult)
}.

(** [None] stands for an exception; the state is left as it was then. *)
Definition process_invoice (clock : Readings) (self : System)
    (invoice_data : Master.InvoiceData) : option (ProcessingResult * System) :=
  match _geographic_routing_analysis invoice_data with
  | None => None
  | Some geographic_result =>
      let audit_trail :=
        [(of_string "geographic_routing", after_geographic clock,
          Geographic geographic_result)] in
      match _currency_standardization_analysis invoice_data with
      | None => None
      | Some currency_result =>
          let audit_trail :=
            audit_trail ++
            [(of_string "currency_conversion", after_currency clock,
              Currency currency_result)] in
          let vendor_result := _vendor_verification_analysis invoice_data in
          let audit_trail :=
            audit_trail ++
            [(of_string "vendor_verification", after_vendor clock,
              VendorCheck vendor_result)] in
          let '(fraud_result, database) :=
            Master._multi_regional_fraud_analysis
              (in_analysis clock) (cross_regional_database self) invoice_data
              (usd_amount currency_result) in
          let audit_trail :=
            audit_trail ++
            [(of_string "fraud_detection", after_fraud clock,
              Fraud fraud_result)] in
          let final_decision :=
            _make_final_decision geographic_result currency_result
                                 vendor_result fraud_result in
          let processing_time :=
            inject_Z (end_time clock - start_time clock) / 1000000 in
          Some ({| invoice_id :=
                     Detector.get_or (Master.d_invoice_id invoice_data)
                                     (of_string "UNKNOWN");
                   geographic_routing := geographic_result;
                   currency_conversion := currency_result;
                   vendor_verification := vendor_result;
                   fraud_detection := fraud_result;
                   final_recommendation := recommendation final_decision;
                   confidence_score := dec_confidence final_decision;
                   processing_time_seconds := processing_time;
                   audit_trail := audit_trail |},
                {| cross_regional_database := database;
                   processing_stats :=
                     _update_system_stats (processing_stats self)
                                          fraud_result currency_result |})
      end
  end.

(** A run of the system over a list of invoices, each with its readings
    of the clock. *)
Fixpoint process_all (self : System)
    (invoices : list (Readings * Master.InvoiceData))
    : option (list ProcessingResult * System) :=
  match invoices with
  | [] => Some ([], self)
  | (clock, invoice_data) :: rest =>
      match process_invoice clock self invoice_data with
      | None => None
      | Some (result, self') =>
          match process_all self' rest with
          | None => None
          | Some (results, self'') => Some (result :: results, self'')
          end
      end
  end.

End Pipeline.


(** ** Vocabulary of the further properties *)

Module More.

(** The entries of a row of the matcher, from the column [j - 1] on, are
    at most [m] and at most the number of their column. *)
Fixpoint bounded_row (m j : nat) (row : list nat) : Prop :=
  match row with
  | [] => True
  | k :: row' => k <= m /\ k <= j /\ bounded_row m (S j) row'
  end.

(** A block lies within sequences of the lengths [la] and [lb]. *)
Definition best_ok (la lb : nat) (bst : Difflib.best) : Prop :=
  let '(i, j, k) := bst in i + k <= la /\ j + k <= lb.

(** The length of the longest common beginning of [x] and [y] made of
    characters outside [pop]. *)
Fixpoint cpnp (pop : list ascii) (x y : str) : nat :=
  match x, y with
  | c :: x', d :: y' =>
      if Str.eqc c d && negb (Difflib.mem_char d pop)
      then S (cpnp pop x' y') else 0
  | _, _ => 0
  end.

(** The row of the matcher for the reversed beginning [ra] of the first
    sequence: at each place of [b], the common ending of [ra] and of the
    second sequence up to this place ([rpre] is its reversed beginning). *)
Fixpoint rowf (pop : list ascii) (ra rpre b : str) : list nat :=
  match b with
  | [] => []
  | y :: b' => cpnp pop ra (y :: rpre) :: rowf pop ra (y :: rpre) b'
  end.

(** Every beginning of the sequence ends with at most [m] characters
    outside [pop]. *)
Fixpoint bounded_runs (pop : list ascii) (m : nat) (rpre b : str) : Prop :=
  match b with
  | [] => True
  | y :: b' =>
      cpnp pop (y :: rpre) (y :: rpre) <= m
      /\ bounded_runs pop m (y :: rpre) b'
  end.

(** What successive calls of [process_invoice] keep true of the state. *)
Definition stats_invariant (self : Pipeline.System) (n frauds : nat) : Prop :=
  let stats := Pipeline.processing_stats self in
  length (Pipeline.cross_regional_database self) = n
  /\ Pipeline.total_invoices_processed stats = n
  /\ Pipeline.frauds_detected stats = frauds
  /\ (frauds <= n)%nat
  /\ (frauds <= Pipeline.duplicates_prevented stats)%nat
  /\ (0 <= Pipeline.total_savings_usd stats)%Q
  /\ Forall (fun e => (0 <= Master.e_usd_amount e)%Q)
            (Pipeline.cross_regional_database self).

Definition detected (res : Pipeline.ProcessingResult) : bool :=
  Master.fraud_detected (Pipeline.fraud_detection res).

(** An invoice text with a reference of purchase order and a delivery
    address but no line item, and two submissions of it. *)
Definition text_no_items : string :=
  "From: Acme GmbH
Delivery: Munich
PO: A-1
".

Definition de_2 : Detector.InvoiceData :=
  Samples.invoice "DE-2" "Germany" "EUR" 100 text_no_items.
Definition us_2 : Detector.InvoiceData :=
  Samples.invoice "US-2" "USA" "USD" 118 text_no_items.

(** The readings of a clock that stands still at [t]. *)
Definition clock_at (t : Z) : Pipeline.Readings :=
  {| Pipeline.start_time := t;
     Pipeline.after_geographic := t;
     Pipeline.after_currency := t;
     Pipeline.after_vendor := t;
     Pipeline.in_analysis := t;
     Pipeline.after_fraud := t;
     Pipeline.end_time := t |}.

End More.


(** ** Proofs *)

Import Detector Props Samples.

Local Open Scope Q_scope.

(** *** Booleans of the model against propositions *)

Lemma eqc_iff (a b : ascii) : eqc a b = true <-> a = b.
Proof. unfold eqc. apply Ascii.eqb_eq. Qed.

Lemma eqs_iff (a b : str) : eqs a b = true <-> a = b.
Proof.
  revert b. induction a as [|x a IH]; intros [|y b]; simpl; split; intro H;
    try reflexivity; try discriminate.
  - apply andb_true_iff in H. destruct H as [Hx Ha].
    apply eqc_iff in Hx. apply IH in Ha. now subst.
  - injection H as -> ->. apply andb_true_iff. split.
    + now apply eqc_iff.
    + now apply IH.
Qed.

Lemma truthy_iff (s : str) : truthy s = true <-> s <> [].
Proof. destruct s; simpl; split; intro H; congruence. Qed.

Lemma gtb_iff (a b : Q) : gtb a b = true <-> b < a.
Proof.
  unfold gtb. destruct (Qlt_le_dec b a) as [H|H]; split; intro H'; auto.
  - discriminate.
  - lra.
Qed.

Lemma gtb_false_iff (a b : Q) : gtb a b = false <-> a <= b.
Proof.
  unfold gtb. destruct (Qlt_le_dec b a) as [H|H]; split; intro H'; auto.
  - discriminate.
  - lra.
Qed.

Lemma ltb_iff (a b : Q) : ltb a b = true <-> a < b.
Proof.
  unfold ltb. destruct (Qlt_le_dec a b) as [H|H]; split; intro H'; auto.
  - discriminate.
  - lra.
Qed.

Lemma starts_with_iff (p s : str) :
  starts_with p s = true <-> exists rest, s = p ++ rest.
Proof.
  revert s. induction p as [|x p IH]; intros s; simpl.
  - split; [intros _; now exists s | reflexivity].
  - destruct s as [|y s].
    + split; [discriminate | intros [rest H]; discriminate].
    + rewrite andb_true_iff, eqc_iff, IH. split.
      * intros [-> [rest ->]]. now exists rest.
      * intros [rest H]. injection H as -> ->. split; [reflexivity|now exists rest].
Qed.

Lemma contains_iff (p s : str) : contains p s = true <-> substring p s.
Proof.
  unfold substring. induction s as [|y s IH].
  - simpl. rewrite orb_false_r, starts_with_iff. split.
    + intros [rest H]. exists [], rest. exact H.
    + intros [[|b before] [after H]].
      * now exists after.
      * discriminate.
  - simpl. rewrite orb_true_iff, starts_with_iff, IH. split.
    + intros [[rest H]|[before [after H]]].
      * exists [], rest. exact H.
      * exists (y :: before), after. simpl. now rewrite H.
    + intros [[|b before] [after H]].
      * left. now exists after.
      * right. injection H as _ H. now exists before, after.
Qed.

(** *** The pre-filter *)

Lemma quick_check_cases (i1 i2 : RegionalInvoice) :
  _quick_similarity_check i1 i2 = true
  <-> same_po i1 i2 \/ similar_vendor i1 i2 \/ address_within i1 i2.
Proof.
  unfold _quick_similarity_check, same_po, similar_vendor, address_within.
  set (f1 := fingerprint i1). set (f2 := fingerprint i2).
  rewrite <- !truthy_iff, <- eqs_iff, <- gtb_iff, <- contains_iff.
  destruct (truthy (po_reference f1) && truthy (po_reference f2)
            && eqs (lower (po_reference f1)) (lower (po_reference f2))) eqn:Hpo.
  { split; [intros _; left | reflexivity].
    apply andb_true_iff in Hpo. destruct Hpo as [Hpo ?].
    apply andb_true_iff in Hpo. tauto. }
  destruct (truthy (vendor_name f1) && truthy (vendor_name f2)
            && gtb (Difflib.ratio (lower (vendor_name f1))
                                  (lower (vendor_name f2))) (8 # 10)) eqn:Hv.
  { split; [intros _; right; left | reflexivity].
    apply andb_true_iff in Hv. destruct Hv as [Hv ?].
    apply andb_true_iff in Hv. tauto. }
  destruct (truthy (delivery_address f1) && truthy (delivery_address f2)
            && contains (lower (delivery_address f1))
                        (lower (delivery_address f2))) eqn:Ha.
  { split; [intros _; right; right | reflexivity].
    apply andb_true_iff in Ha. destruct Ha as [Ha ?].
    apply andb_true_iff in Ha. tauto. }
  split; [discriminate|].
  intros [(A & B & C)|[(A & B & C)|(A & B & C)]].
  - rewrite A, B, C in Hpo. discriminate.
  - rewrite A, B, C in Hv. discriminate.
  - rewrite A, B, C in Ha. discriminate.
Qed.

(** C4, as amended.  The pre-filter holds exactly when the purchase-order
    references are both present and equal up to case, or the vendor names are
    both present and their similarity ratio is above 0.8, or the delivery
    addresses are both present and the address of the first invoice (the one
    submitted) occurs, up to case, in the address of the second (the one
    stored); that is the only direction tested.  Two invoices with the same
    non-empty purchase-order reference pass. *)
Theorem quick_check_characterised (i1 i2 : RegionalInvoice) :
  (_quick_similarity_check i1 i2 = true
   <-> same_po i1 i2 \/ similar_vendor i1 i2 \/ address_within i1 i2)
  /\ (po_reference (fingerprint i1) <> [] ->
      po_reference (fingerprint i1) = po_reference (fingerprint i2) ->
      _quick_similarity_check i1 i2 = true).
Proof.
  split.
  - apply quick_check_cases.
  - intros Hne Heq. apply quick_check_cases. left.
    unfold same_po. rewrite <- Heq. auto.
Qed.

(** C4, the claim as stated fails: the address of the stored invoice occurs
    in the address of the submitted one, both present, and the pre-filter
    rejects the pair. *)
Lemma quick_check_one_direction :
  _quick_similarity_check (address_invoice "USA" "Munich Office, Germany")
                          (address_invoice "Germany" "Munich Office") = false
  /\ substring
       (lower (delivery_address
                 (fingerprint (address_invoice "Germany" "Munich Office"))))
       (lower (delivery_address
                 (fingerprint
                    (address_invoice "USA" "Munich Office, Germany"))))
  /\ delivery_address (fingerprint (address_invoice "Germany" "Munich Office"))
     <> []
  /\ _quick_similarity_check (address_invoice "Germany" "Munich Office")
       (address_invoice "USA" "Munich Office, Germany") = true.
Proof.
  split; [vm_compute; reflexivity|].
  split; [|split; [discriminate | vm_compute; reflexivity]].
  exists [], (of_string ", germany"). vm_compute. reflexivity.
Qed.

(** *** The candidate search *)

Lemma search_database_filter (cur : RegionalInvoice)
    (db : list RegionalInvoice) :
  search_database cur db
  = filter (_quick_similarity_check cur)
      (filter (fun ex => in_windowb cur ex && other_regionb cur ex) db).
Proof.
  induction db as [|ex db IH]; simpl; [reflexivity|].
  unfold in_windowb, other_regionb, time_window, time_window_hours.
  rewrite Z.gtb_ltb, Z.ltb_antisym.
  change (72 * 3600)%Z with 259200%Z in *.
  destruct (Z.abs (submission_timestamp cur - submission_timestamp ex)
            <=? 259200)%Z; simpl; [|exact IH].
  destruct (eqs (region ex) (region cur)); simpl; [exact IH|].
  destruct (_quick_similarity_check cur ex); now rewrite IH.
Qed.

(** C5.  The search keeps, in the order of the database, exactly the stored
    invoices that lie at most 72 hours from the submitted one (a distance of
    exactly 72 hours is kept) and in another region, and of these the ones
    the pre-filter accepts; an invoice outside the window or of the same
    region is dropped before the pre-filter sees it. *)
Theorem search_keeps_window_and_other_region (db : list RegionalInvoice)
    (cur : RegionalInvoice) :
  _search_cross_regional_duplicates db cur
  = filter (_quick_similarity_check cur)
      (filter (fun ex => in_windowb cur ex && other_regionb cur ex) db)
  /\ (forall ex,
        In ex (filter (fun ex => in_windowb cur ex && other_regionb cur ex) db)
        <-> In ex db /\ in_window cur ex /\ region ex <> region cur)
  /\ (forall ex,
        In ex (_search_cross_regional_duplicates db cur)
        <-> In ex db /\ in_window cur ex /\ region ex <> region cur
            /\ _quick_similarity_check cur ex = true)
  /\ (forall ex,
        Z.abs (submission_timestamp cur - submission_timestamp ex)
        = (72 * 3600)%Z -> in_windowb cur ex = true).
Proof.
  assert (Hf : forall ex,
             in_windowb cur ex && other_regionb cur ex = true
             <-> in_window cur ex /\ region ex <> region cur).
  { intro ex. unfold in_windowb, other_regionb, in_window.
    rewrite andb_true_iff, Z.leb_le, negb_true_iff.
    rewrite <- not_true_iff_false, eqs_iff. tauto. }
  unfold _search_cross_regional_duplicates.
  rewrite search_database_filter.
  split; [reflexivity|]. split; [|split].
  - intro ex. rewrite filter_In, Hf. tauto.
  - intro ex. rewrite !filter_In, Hf. tauto.
  - intros ex H. unfold in_windowb. rewrite H. apply Z.leb_refl.
Qed.

(** *** The currency reconciler *)





(** *** The fingerprint *)



(** *** The detailed comparison *)

Lemma total_app (l1 l2 : list Q) : total (l1 ++ l2) == total l1 + total l2.
Proof.
  induction l1 as [|x l1 IH]; simpl.
  - ring.
  - rewrite IH. ring.
Qed.

(** The inner loop of [_compare_line_items] adds the similarities of one
    item to every item of the other invoice. *)
Lemma inner_loop (item1 : str) (items2 : list str) (t : Q) (c : nat) :
  exists t',
    fold_left
      (fun '(total, count) item2 =>
         (total + Difflib.ratio (lower item1) (lower item2), S count))
      items2 (t, c) = (t', (c + length items2)%nat)
    /\ t' == t + total (map (fun item2 =>
                               Difflib.ratio (lower item1) (lower item2))
                            items2).
Proof.
  revert t c. induction items2 as [|y items2 IH]; intros t c; simpl.
  - exists t. rewrite Nat.add_0_r. split; [reflexivity|ring].
  - destruct (IH (t + Difflib.ratio (lower item1) (lower y)) (S c))
      as (t' & E & H).
    exists t'. split; [rewrite E; f_equal; lia | rewrite H; ring].
Qed.

Lemma outer_loop (items1 items2 : list str) (t : Q) (c : nat) :
  exists t',
    fold_left
      (fun acc item1 =>
         fold_left
           (fun '(total, count) item2 =>
              (total + Difflib.ratio (lower item1) (lower item2), S count))
           items2 acc)
      items1 (t, c)
    = (t', (c + length (list_prod items1 items2))%nat)
    /\ t' == t + total (map (fun p => Difflib.ratio (lower (fst p))
                                                    (lower (snd p)))
                            (list_prod items1 items2)).
Proof.
  revert t c. induction items1 as [|x items1 IH]; intros t c; simpl.
  - exists t. rewrite Nat.add_0_r. split; [reflexivity|ring].
  - destruct (inner_loop x items2 t c) as (t1 & E1 & H1). rewrite E1.
    destruct (IH t1 (c + length items2)%nat) as (t' & E & H).
    exists t'. rewrite E. split.
    + f_equal. rewrite length_app, length_map. lia.
    + rewrite H, H1, map_app, total_app, map_map. simpl. ring.
Qed.

Lemma compare_line_items_average (items1 items2 : list str) :
  items1 <> [] -> items2 <> [] ->
  _compare_line_items items1 items2 == pairwise_average items1 items2.
Proof.
  intros H1 H2. unfold _compare_line_items, pairwise_average.
  destruct items1 as [|x items1]; [congruence|].
  destruct items2 as [|y items2]; [congruence|].
  cbn [length Nat.ltb Nat.leb negb orb].
  destruct (outer_loop (x :: items1) (y :: items2) 0 0) as (t' & E & H).
  rewrite E. cbn [Nat.add]. cbn [list_prod length map app Nat.ltb Nat.leb].
  cbn [list_prod length map app] in H. rewrite H.
  field. discriminate.
Qed.


(** *** The evidence and the confidence *)

Lemma add_evidence_no (cur : RegionalInvoice) (ev : Evidence)
    (d : RegionalInvoice) :
  is_match cur d = false -> add_evidence cur ev d = ev.
Proof.
  unfold is_match, add_evidence, similarity_threshold. now intros ->.
Qed.

Lemma add_evidence_yes (cur : RegionalInvoice) (ev : Evidence)
    (d : RegionalInvoice) :
  is_match cur d = true ->
  add_evidence cur ev d
  = {| ev_matches := ev_matches ev ++ [d];
       ev_similarity_scores :=
         Dict.set (ev_similarity_scores ev) (invoice_id d)
           (overall_similarity (_compare_invoices_detailed cur d));
       ev_matching_elements :=
         Dict.set (ev_matching_elements ev) (invoice_id d)
           (matching_elements (_compare_invoices_detailed cur d));
       ev_currency_analysis :=
         Dict.set (ev_currency_analysis ev) (invoice_id d)
           (currency_analysis (_compare_invoices_detailed cur d));
       ev_temporal_analysis :=
         Dict.set (ev_temporal_analysis ev) (invoice_id d)
           (temporal_analysis (_compare_invoices_detailed cur d)) |}.
Proof.
  unfold is_match, add_evidence, similarity_threshold. now intros ->.
Qed.

Lemma analyze_none (cur : RegionalInvoice) (cands : list RegionalInvoice)
    (ev : Evidence) :
  filter (is_match cur) cands = [] ->
  fold_left (add_evidence cur) cands ev = ev.
Proof.
  induction cands as [|d cands IH]; simpl; [reflexivity|].
  destruct (is_match cur d) eqn:E; [discriminate|].
  intro H. rewrite add_evidence_no by exact E. now apply IH.
Qed.

Lemma analyze_single (cur : RegionalInvoice) (cands : list RegionalInvoice)
    (ev : Evidence) (m : RegionalInvoice) :
  filter (is_match cur) cands = [m] ->
  fold_left (add_evidence cur) cands ev = add_evidence cur ev m.
Proof.
  revert ev. induction cands as [|d cands IH]; intros ev; simpl;
    [discriminate|].
  destruct (is_match cur d) eqn:E; intro H.
  - injection H as -> H. now apply analyze_none.
  - rewrite add_evidence_no by exact E. now apply IH.
Qed.

Lemma analyze_matches (cur : RegionalInvoice) (cands : list RegionalInvoice)
    (ev : Evidence) :
  ev_matches (fold_left (add_evidence cur) cands ev)
  = ev_matches ev ++ filter (is_match cur) cands.
Proof.
  revert ev. induction cands as [|d cands IH]; intros ev; simpl.
  - now rewrite app_nil_r.
  - rewrite IH. destruct (is_match cur d) eqn:E.
    + rewrite add_evidence_yes by exact E. simpl. now rewrite <- app_assoc.
    + now rewrite add_evidence_no by exact E.
Qed.

Lemma dict_set_values (V : Type) (P : V -> Prop) (d : Dict.dict V)
    (key : str) (v : V) :
  Forall P (Dict.values d) -> P v -> Forall P (Dict.values (Dict.set d key v)).
Proof.
  unfold Dict.values. induction d as [|[k' v'] d IH]; simpl; intros Hd Hv.
  - constructor; [exact Hv|constructor].
  - inversion Hd; subst. destruct (eqs k' key); simpl; constructor; auto.
Qed.

Lemma dict_set_not_empty (V : Type) (d : Dict.dict V) (key : str) (v : V) :
  Dict.set d key v <> [].
Proof. destruct d as [|[k' v'] d]; simpl; [|destruct (eqs k' key)]; discriminate. Qed.

(** Every score of the evidence is above the threshold, and there is one
    as soon as there is a match. *)
Lemma analyze_scores (cur : RegionalInvoice) (cands : list RegionalInvoice)
    (ev : Evidence) :
  Forall (fun v => 85 # 100 < v) (Dict.values (ev_similarity_scores ev)) ->
  (ev_matches ev <> [] -> ev_similarity_scores ev <> []) ->
  Forall (fun v => 85 # 100 < v)
    (Dict.values
       (ev_similarity_scores (fold_left (add_evidence cur) cands ev)))
  /\ (ev_matches (fold_left (add_evidence cur) cands ev) <> [] ->
      ev_similarity_scores (fold_left (add_evidence cur) cands ev) <> []).
Proof.
  revert ev. induction cands as [|d cands IH]; intros ev H1 H2; simpl;
    [now split|].
  destruct (is_match cur d) eqn:E.
  - apply IH; rewrite add_evidence_yes by exact E; simpl.
    + apply dict_set_values; [exact H1|]. now apply gtb_iff.
    + intros _. apply dict_set_not_empty.
  - rewrite add_evidence_no by exact E. now apply IH.
Qed.

Lemma pmax_cases (a b : Q) : pmax a b = a \/ pmax a b = b.
Proof. unfold pmax. destruct (Qlt_le_dec a b); auto. Qed.

Lemma fold_pmax_forall (P : Q -> Prop) (l : list Q) (v : Q) :
  P v -> Forall P l -> P (fold_left pmax l v).
Proof.
  revert v. induction l as [|x l IH]; intros v Hv Hl; simpl; [exact Hv|].
  inversion Hl; subst. apply IH; [|assumption].
  destruct (pmax_cases v x) as [-> | ->]; assumption.
Qed.

Lemma boost_ge (A : Type) (f : A -> bool) (w : Q) (l : list A) (c : Q) :
  0 <= w ->
  c <= fold_left (fun c x => if f x then c + w else c) l c.
Proof.
  intro Hw. revert c. induction l as [|x l IH]; intro c; simpl; [lra|].
  destruct (f x).
  - specialize (IH (c + w)). lra.
  - apply IH.
Qed.

Lemma largest_above (c : Q) (l : list Q) :
  l <> [] -> Forall (fun v => c < v) l -> c < largest l.
Proof.
  destruct l as [|v rest]; [congruence|]. intros _ H. simpl.
  inversion H as [|? ? Hv Hrest]; subst. clear H.
  induction rest as [|x rest IH]; simpl; [exact Hv|].
  inversion Hrest; subst.
  pose proof (Q.le_max_l x (fold_right Qmax v rest)). lra.
Qed.

Lemma multiplier_two (n : nat) :
  (2 <= n)%nat ->
  12 # 10 <= pmin (15 # 10)
                  (1 + (inject_Z (Z.of_nat n) - 1) * (2 # 10))
  /\ 12 # 10 <= Qmin (15 # 10)
                     (1 + (2 # 10) * (inject_Z (Z.of_nat n) - 1)).
Proof.
  intro H.
  assert (Hn : 2 <= inject_Z (Z.of_nat n)).
  { change 2 with (inject_Z 2). rewrite <- Zle_Qle. lia. }
  split.
  - unfold pmin. destruct (Qlt_le_dec _ _); lra.
  - apply Q.min_glb; lra.
Qed.

Lemma clamp_range (x : Q) : 0 <= clamp 0 (99 # 100) x <= 99 # 100.
Proof.
  unfold clamp. split.
  - apply Q.le_max_l.
  - apply Q.max_lub; [lra|apply Q.le_min_l].
Qed.

Lemma clamp_above (x : Q) : 99 # 100 <= x -> clamp 0 (99 # 100) x == 99 # 100.
Proof.
  intro H. unfold clamp.
  rewrite (Q.min_l (99 # 100) x) by exact H.
  apply Q.max_r. lra.
Qed.

Lemma clamp_pmin (x : Q) : 0 <= x -> pmin (99 # 100) x == clamp 0 (99 # 100) x.
Proof.
  intro H. unfold clamp, pmin. destruct (Qlt_le_dec x (99 # 100)) as [L|L].
  - rewrite (Q.min_r (99 # 100) x) by lra. symmetry. now apply Q.max_r.
  - rewrite (Q.min_l (99 # 100) x) by lra. symmetry. apply Q.max_r. lra.
Qed.

Lemma clamp_compat (lo hi a b : Q) : a == b -> clamp lo hi a == clamp lo hi b.
Proof. intro H. unfold clamp. now rewrite H. Qed.

Lemma count_one (A : Type) (f : A -> bool) (m : A) :
  count f [m] == if f m then 1 else 0.
Proof. unfold count. simpl. destruct (f m); reflexivity. Qed.

Lemma count_nonneg (A : Type) (f : A -> bool) (l : list A) : 0 <= count f l.
Proof.
  unfold count. change 0 with (inject_Z 0). rewrite <- Zle_Qle. lia.
Qed.

(** The confidence of the evidence gathered over any list of candidates is
    defined, and it is the confidence the specification words. *)
Lemma confidence_meets_spec (cur : RegionalInvoice)
    (cands : list RegionalInvoice) :
  exists c,
    _calculate_fraud_confidence (_analyze_content_similarity cur cands)
    = Some c
    /\ c == aggregate_spec cur (filter (is_match cur) cands).
Proof.
  unfold _analyze_content_similarity.
  destruct (filter (is_match cur) cands) as [|m [|m' ms]] eqn:F.
  - rewrite analyze_none by exact F. exists 0. split; reflexivity.
  - rewrite (analyze_single _ _ _ F).
    assert (Hm : is_match cur m = true).
    { assert (In m (filter (is_match cur) cands)) as I by (rewrite F; now left).
      now apply filter_In in I. }
    rewrite add_evidence_yes by exact Hm.
    unfold _calculate_fraud_confidence.
    cbn [ev_matches ev_similarity_scores ev_currency_analysis
         ev_temporal_analysis empty_evidence app Dict.set Dict.values map snd
         py_max fold_left length currency_analysis temporal_analysis
         _compare_invoices_detailed].
    eexists. split; [reflexivity|].
    assert (Hs : 85 # 100
                 < overall_similarity (_compare_invoices_detailed cur m))
      by now apply gtb_iff.
    set (s := overall_similarity (_compare_invoices_detailed cur m)) in *.
    unfold aggregate_spec, count, flagged_currency, flagged_timing.
    cbn [map largest fold_right length filter suspicious_timing
         _analyze_submission_timing].
    unfold time_window_hours.
    change (inject_Z 72) with 72.
    change (pmin (15 # 10) (1 + (inject_Z (Z.of_nat 1) - 1) * (2 # 10)))
      with (1 + (inject_Z (Z.of_nat 1) - 1) * (2 # 10)).
    change (Qmin (15 # 10) (1 + (2 # 10) * (inject_Z (Z.of_nat 1) - 1)))
      with (1 + (2 # 10) * (inject_Z (Z.of_nat 1) - 1)).
    destruct (suspicious (_analyze_currency_relationship cur m));
      destruct (ltb (hours_diff cur m) 72);
      cbn [length Z.of_nat Pos.of_succ_nat]; unfold inject_Z;
      (rewrite clamp_pmin by lra); apply clamp_compat; subst s; ring.
  - pose proof (analyze_matches cur cands empty_evidence) as Hmat.
    rewrite F in Hmat. simpl in Hmat.
    destruct (analyze_scores cur cands empty_evidence) as [Hall Hne];
      [constructor | simpl; congruence |].
    set (ev := fold_left (add_evidence cur) cands empty_evidence) in *.
    unfold _calculate_fraud_confidence. rewrite Hmat.
    destruct (Dict.values (ev_similarity_scores ev)) as [|v rest] eqn:V.
    { exfalso. apply Hne; [rewrite Hmat; discriminate|].
      unfold Dict.values in V. now apply map_eq_nil in V. }
    cbn [py_max].
    assert (Hv : 85 # 100 < fold_left pmax rest v).
    { inversion Hall; subst. now apply fold_pmax_forall. }
    set (mx := fold_left pmax rest v) in *.
    destruct (multiplier_two (n := length (m :: m' :: ms))) as [M1 M2];
      [simpl; lia|].
    set (mult := pmin (15 # 10) _) in *.
    eexists. split; [reflexivity|].
    assert (Hpre : 99 # 100 <= mx * mult) by nra.
    match goal with
    | |- pmin _ ?x == _ => assert (G : 99 # 100 <= x)
    end.
    { eapply Qle_trans; [|apply boost_ge; lra].
      eapply Qle_trans; [|apply boost_ge; lra]. exact Hpre. }
    rewrite clamp_pmin by lra. rewrite clamp_above by exact G.
    unfold aggregate_spec. symmetry. apply clamp_above.
    set (ms' := m :: m' :: ms) in *.
    assert (Hl : 85 # 100
                 < largest (map (fun x => overall_similarity
                                            (_compare_invoices_detailed cur x))
                                ms')).
    { apply largest_above; [discriminate|].
      apply Forall_forall. intros x Hx. apply in_map_iff in Hx.
      destruct Hx as (y & <- & Hy).
      assert (In y (filter (is_match cur) cands)) as I by now rewrite F.
      apply filter_In in I. now apply gtb_iff. }
    pose proof (count_nonneg (flagged_currency cur) ms').
    pose proof (count_nonneg (flagged_timing cur) ms').
    set (L := largest _) in *. set (M := Qmin _ _) in *.
    nra.
Qed.


(** *** The decision *)

(** The two outcomes of a submission. *)
Lemma detect_cases (now later : Z) (db : list RegionalInvoice)
    (d : InvoiceData) :
  exists c,
    _calculate_fraud_confidence
      (_analyze_content_similarity (_create_regional_invoice now d)
         (_search_cross_regional_duplicates db
            (_create_regional_invoice now d))) = Some c
    /\ ((75 # 100 < c
         /\ exists alert,
              detect_multi_regional_fraud now later db d
              = Some (Some alert, db)
              /\ confidence_score alert = c)
        \/ (c <= 75 # 100
            /\ detect_multi_regional_fraud now later db d
               = Some (None, db ++ [_create_regional_invoice now d]))).
Proof.
  destruct (confidence_meets_spec (_create_regional_invoice now d)
              (_search_cross_regional_duplicates db
                 (_create_regional_invoice now d))) as (c & E & _).
  exists c. split; [exact E|].
  unfold detect_multi_regional_fraud. rewrite E.
  destruct (gtb c (75 # 100)) eqn:G.
  - left. apply gtb_iff in G. split; [exact G|].
    eexists. split; reflexivity.
  - right. apply gtb_false_iff in G. split; [exact G|reflexivity].
Qed.

(** C1, as amended.  The confidence of a submission is always defined.  The
    detector returns an alert, of that confidence, exactly when the
    confidence is above 0.75, and then leaves the database as it is;
    otherwise it returns no alert and appends the invoice to the database,
    with the processing status "pending" it was created with. *)
Theorem alert_iff_confidence_above_threshold (now later : Z)
    (db : list RegionalInvoice) (d : InvoiceData) :
  exists c,
    _calculate_fraud_confidence
      (_analyze_content_similarity (_create_regional_invoice now d)
         (_search_cross_regional_duplicates db
            (_create_regional_invoice now d))) = Some c
    /\ ((75 # 100 < c
         /\ exists alert,
              detect_multi_regional_fraud now later db d
              = Some (Some alert, db)
              /\ confidence_score alert = c)
        \/ (c <= 75 # 100
            /\ detect_multi_regional_fraud now later db d
               = Some (None, db ++ [_create_regional_invoice now d])
            /\ processing_status (_create_regional_invoice now d)
               = of_string "pending")).
Proof.
  destruct (detect_cases now later db d) as (c & E & [H|[H1 H2]]).
  - exists c. split; [exact E|]. left. exact H.
  - exists c. split; [exact E|]. right.
    split; [exact H1|]. split; [exact H2|reflexivity].
Qed.

(** C1, the claim as stated fails: the invoice of a submission without
    alert is appended with the status "pending", not "Stored". *)
Lemma stored_invoice_is_pending :
  exists inv,
    detect_multi_regional_fraud 0 0 [] de_1 = Some (None, [inv])
    /\ processing_status inv = of_string "pending"
    /\ processing_status inv <> of_string "Stored"
    /\ processing_status inv <> of_string "stored".
Proof.
  eexists. split; [vm_compute; reflexivity|].
  split; [reflexivity|]. split; discriminate.
Qed.

(** *** The alert *)







(** *** The two pipelines *)

(** C10.  The master analysis appends every invoice it processes to its
    database, whether it detects fraud or not; the detector appends the
    submitted invoice only when it returns no alert and leaves its database
    as it is when it returns one.  So the two leave different registries:
    after DE-1 and then US-1, which both pipelines flag, the detector holds
    DE-1 alone and the master pipeline holds both. *)
Theorem pipelines_disagree_on_flagged_invoice :
  (forall (now : Z) (db : list Master.Entry) (d : Master.InvoiceData)
          (usd : Q),
      exists entry,
        snd (Master._multi_regional_fraud_analysis now db d usd)
        = db ++ [entry]
        /\ Master.e_invoice_id entry
           = get_or (Master.d_invoice_id d) [])
  /\ (forall (now later : Z) (db : list RegionalInvoice) (d : InvoiceData),
        exists res,
          detect_multi_regional_fraud now later db d
          = Some (res,
                  match res with
                  | Some _ => db
                  | None => db ++ [_create_regional_invoice now d]
                  end))
  /\ (exists alert db,
        run [] [(0%Z, de_1); (7200%Z, us_1)]
        = Some ([None; Some alert], db)
        /\ map invoice_id db = [of_string "DE-1"])
  /\ (exists r1 r2 db,
        master_run [] [(0%Z, master_view de_1, 118);
                       (7200000000%Z, master_view us_1, 118)]
        = ([r1; r2], db)
        /\ Master.fraud_detected r1 = false
        /\ Master.fraud_detected r2 = true
        /\ map Master.e_invoice_id db
           = [of_string "DE-1"; of_string "US-1"]).
Proof.
  split; [|split; [|split]].
  - intros now db d usd. unfold Master._multi_regional_fraud_analysis.
    cbn [snd]. eexists. split; reflexivity.
  - intros now later db d.
    destruct (detect_cases now later db d)
      as (c & _ & [(_ & alert & E & _)|(_ & E)]).
    + exists (Some alert). exact E.
    + exists None. exact E.
  - eexists. eexists. split; vm_compute; reflexivity.
  - eexists. eexists. eexists. split; [vm_compute; reflexivity|].
    repeat split; vm_compute; reflexivity.
Qed.

(** *** The matcher explores every match *)

Import Scan.

Local Close Scope Q_scope.

Lemma last_char_cons (prev : option ascii) (c : ascii) (cs : str) :
  last_char prev (c :: cs) = last_char (Some c) cs.
Proof.
  unfold last_char. simpl.
  destruct (rev cs) as [|x l] eqn:E; simpl; [reflexivity|reflexivity].
Qed.

Lemma below_within (n : nat) (hi : option nat) :
  below n hi = true <-> within (S n) hi.
Proof.
  destruct hi as [h|]; simpl; [|tauto].
  rewrite Nat.ltb_lt. lia.
Qed.

Section RepeatFacts.
Variable p : ascii -> bool.
Variable lo : nat.
Variable hi : option nat.
Variable k : mstate -> option mres.

Lemma rep_greedy_sound (rest : str) :
  forall n prev pos g res,
    rep_greedy p lo hi k n prev pos g rest = Some res ->
    within n hi ->
    exists cs rest',
      rest = cs ++ rest' /\ forallb p cs = true
      /\ lo <= n + length cs /\ within (n + length cs) hi
      /\ k (MState (last_char prev cs) rest' (pos + length cs) g) = Some res.
Proof.
  induction rest as [|c rest IH]; intros n prev pos g res H W; simpl in H.
  - destruct (lo <=? n) eqn:L; [|discriminate]. apply Nat.leb_le in L.
    exists [], []. simpl. rewrite !Nat.add_0_r. auto.
  - assert (Stop : (if lo <=? n then k (MState prev (c :: rest) pos g)
                    else None) = Some res ->
                   exists cs rest',
                     c :: rest = cs ++ rest' /\ forallb p cs = true
                     /\ lo <= n + length cs /\ within (n + length cs) hi
                     /\ k (MState (last_char prev cs) rest'
                                  (pos + length cs) g) = Some res).
    { intro H'. destruct (lo <=? n) eqn:L; [|discriminate].
      apply Nat.leb_le in L. exists [], (c :: rest). simpl.
      rewrite !Nat.add_0_r. auto. }
    destruct (p c && below n hi) eqn:B; [|now apply Stop].
    apply andb_true_iff in B. destruct B as [Pc B].
    destruct (rep_greedy p lo hi k (S n) (Some c) (S pos) g rest) as [r|] eqn:R;
      [|now apply Stop].
    injection H as ->.
    apply IH in R; [|now apply below_within].
    destruct R as (cs & rest' & -> & F & L & W' & K).
    exists (c :: cs), rest'. simpl. rewrite Pc, F, last_char_cons.
    rewrite <- !plus_n_Sm. simpl in *. auto.
Qed.

Lemma rep_lazy_sound (rest : str) :
  forall n prev pos g res,
    rep_lazy p lo hi k n prev pos g rest = Some res ->
    within n hi ->
    exists cs rest',
      rest = cs ++ rest' /\ forallb p cs = true
      /\ lo <= n + length cs /\ within (n + length cs) hi
      /\ k (MState (last_char prev cs) rest' (pos + length cs) g) = Some res.
Proof.
  induction rest as [|c rest IH]; intros n prev pos g res H W; simpl in H.
  - destruct (lo <=? n) eqn:L.
    + destruct (k (MState prev [] pos g)) as [r|] eqn:K; [|discriminate].
      injection H as ->. apply Nat.leb_le in L.
      exists [], []. simpl. rewrite !Nat.add_0_r. auto.
    + discriminate.
  - destruct (if lo <=? n then k (MState prev (c :: rest) pos g) else None)
      as [r|] eqn:K.
    + injection H as ->. destruct (lo <=? n) eqn:L; [|discriminate].
      apply Nat.leb_le in L. exists [], (c :: rest). simpl.
      rewrite !Nat.add_0_r. auto.
    + destruct (p c && below n hi) eqn:B; [|discriminate].
      apply andb_true_iff in B. destruct B as [Pc B].
      apply IH in H; [|now apply below_within].
      destruct H as (cs & rest' & -> & F & L & W' & K').
      exists (c :: cs), rest'. simpl. rewrite Pc, F, last_char_cons.
      rewrite <- !plus_n_Sm. simpl in *. auto.
Qed.

Lemma rep_greedy_complete (cs : str) :
  forall rest' n prev pos g,
    forallb p cs = true -> lo <= n + length cs -> within (n + length cs) hi ->
    k (MState (last_char prev cs) rest' (pos + length cs) g) <> None ->
    rep_greedy p lo hi k n prev pos g (cs ++ rest') <> None.
Proof.
  induction cs as [|c cs IH]; intros rest' n prev pos g F L W K.
  - simpl in *. rewrite !Nat.add_0_r in *.
    assert (Ln : (lo <=? n) = true) by now apply Nat.leb_le.
    destruct rest' as [|c r]; simpl; rewrite Ln; [exact K|].
    destruct (p c && below n hi); [|exact K].
    destruct (rep_greedy p lo hi k (S n) (Some c) (S pos) g r);
      [discriminate|exact K].
  - simpl in F. apply andb_true_iff in F. destruct F as [Pc F].
    simpl. rewrite Pc. simpl in L, W, K. rewrite <- plus_n_Sm in L, W, K.
    assert (B : below n hi = true).
    { apply below_within. destruct hi as [h|]; simpl in *; [lia|exact I]. }
    rewrite B. simpl.
    rewrite last_char_cons in K.
    specialize (IH rest' (S n) (Some c) (S pos) g F L W K).
    destruct (rep_greedy p lo hi k (S n) (Some c) (S pos) g (cs ++ rest'));
      [discriminate|congruence].
Qed.

Lemma rep_lazy_complete (cs : str) :
  forall rest' n prev pos g,
    forallb p cs = true -> lo <= n + length cs -> within (n + length cs) hi ->
    k (MState (last_char prev cs) rest' (pos + length cs) g) <> None ->
    rep_lazy p lo hi k n prev pos g (cs ++ rest') <> None.
Proof.
  induction cs as [|c cs IH]; intros rest' n prev pos g F L W K.
  - simpl in *. rewrite !Nat.add_0_r in *.
    assert (Ln : (lo <=? n) = true) by now apply Nat.leb_le.
    change (last_char prev []) with prev in K.
    destruct rest' as [|c r]; simpl; rewrite Ln.
    + destruct (k (MState prev [] pos g)) eqn:E; [discriminate|congruence].
    + destruct (k (MState prev (c :: r) pos g)) eqn:E;
        [discriminate|congruence].
  - simpl in F. apply andb_true_iff in F. destruct F as [Pc F].
    simpl. simpl in L, W, K. rewrite <- plus_n_Sm in L, W, K.
    assert (B : below n hi = true).
    { apply below_within. destruct hi as [h|]; simpl in *; [lia|exact I]. }
    rewrite last_char_cons in K.
    specialize (IH rest' (S n) (Some c) (S pos) g F L W K).
    destruct (if lo <=? n then k (MState prev (c :: cs ++ rest') pos g)
              else None); [discriminate|].
    rewrite Pc, B. exact IH.
Qed.

End RepeatFacts.

Lemma mt_sound (r : regex) :
  forall k st res,
    mt r k st = Some res -> exists st', Match r st st' /\ k st' = Some res.
Proof.
  induction r as [| p | p lo hi greedy | a IHa b IHb | a IHa b IHb | a IHa | |];
    intros k st res H; simpl in H.
  - exists st. split; [constructor|exact H].
  - destruct st as [prev rest pos g]. simpl in H.
    destruct rest as [|c rest]; [discriminate|].
    destruct (p c) eqn:Pc; [|discriminate].
    eexists. split; [now constructor|exact H].
  - destruct st as [prev rest pos g]. simpl in H.
    assert (S : exists cs rest',
               rest = cs ++ rest' /\ forallb p cs = true
               /\ lo <= 0 + length cs /\ within (0 + length cs) hi
               /\ k (MState (last_char prev cs) rest' (pos + length cs) g)
                  = Some res).
    { destruct greedy.
      - apply rep_greedy_sound in H; [exact H|]. destruct hi; simpl; [lia|exact I].
      - apply rep_lazy_sound in H; [exact H|]. destruct hi; simpl; [lia|exact I]. }
    destruct S as (cs & rest' & -> & F & L & W & K).
    eexists. split; [|exact K]. now constructor.
  - apply IHa in H. destruct H as (st' & Ma & H).
    apply IHb in H. destruct H as (st'' & Mb & H).
    exists st''. split; [econstructor; eassumption|exact H].
  - destruct (mt a k st) as [r|] eqn:A.
    + injection H as ->. apply IHa in A. destruct A as (st' & M & K).
      exists st'. split; [now apply M_AltL|exact K].
    + apply IHb in H. destruct H as (st' & M & K).
      exists st'. split; [now apply M_AltR|exact K].
  - apply IHa in H. destruct H as (st' & M & K).
    eexists. split; [apply M_Grp; exact M|exact K].
  - destruct (xorb _ _) eqn:X; [|discriminate].
    exists st. split; [now constructor|exact H].
  - destruct st as [prev rest pos g]. simpl in H.
    destruct rest as [|c [|c' rest]].
    + eexists. split; [apply M_Eos; now left|exact H].
    + destruct (is_code 10 c) eqn:E; [|discriminate].
      eexists. split; [apply M_Eos; right; now exists c|exact H].
    + discriminate.
Qed.

Lemma mt_complete (r : regex) (st st' : mstate) :
  Match r st st' ->
  forall k, k st' <> None -> mt r k st <> None.
Proof.
  induction 1 as [st | p prev c rest pos g Pc
                  | p lo hi greedy prev cs rest pos g F L W
                  | a b st st' st'' Ma IHa Mb IHb
                  | a b st st' Ma IHa | a b st st' Mb IHb
                  | a st st' Ma IHa | st X | st E];
    intros k K; simpl.
  - exact K.
  - rewrite Pc. exact K.
  - destruct greedy.
    + now apply rep_greedy_complete.
    + now apply rep_lazy_complete.
  - apply IHa. now apply IHb.
  - specialize (IHa k K). destruct (mt a k st); congruence.
  - destruct (mt a k st); [discriminate|]. now apply IHb.
  - apply IHa. exact K.
  - rewrite X. exact K.
  - destruct E as [E|(c & E & N)]; rewrite E; [exact K|].
    rewrite N. exact K.
Qed.

(** A match exists exactly when the relation has a derivation. *)
Lemma match_at_some (r : regex) (prev : option ascii) (s : str) :
  match_at r prev s <> None
  <-> exists st', Match r (MState prev s 0 None) st'.
Proof.
  unfold match_at. split.
  - destruct (mt r _ _) as [res|] eqn:E; [|congruence]. intros _.
    apply mt_sound in E. destruct E as (st' & M & _). now exists st'.
  - intros (st' & M). eapply mt_complete; [exact M|discriminate].
Qed.

Lemma match_at_pos (r : regex) (prev : option ascii) (s : str) (n : nat)
    (g : option (nat * nat)) :
  match_at r prev s = Some (n, g) ->
  exists st', Match r (MState prev s 0 None) st' /\ m_pos st' = n.
Proof.
  unfold match_at. intro E. apply mt_sound in E.
  destruct E as (st' & M & E). exists st'. split; [exact M|congruence].
Qed.

(** *** Substitution, in general *)

Lemma Forall_sub_from (P : ascii -> Prop) (r : regex) (repl : str) (s : str) :
  Forall P repl -> Forall P s ->
  forall skip prev, Forall P (sub_from r repl skip prev s).
Proof.
  intros Hr. induction s as [|c s IH]; intros Hs skip prev.
  - destruct skip; simpl; [|constructor].
    destruct (match_at r prev []); [|constructor].
    rewrite app_nil_r. exact Hr.
  - inversion Hs; subst. destruct skip; simpl; [|now apply IH].
    destruct (match_at r prev (c :: s)) as [res|].
    + apply Forall_app. split; [exact Hr|].
      apply Forall_app. split; [|now apply IH].
      destruct (fst res =? 0); constructor; [assumption|constructor].
    + constructor; [assumption|now apply IH].
Qed.

Lemma sub_unmatched (r : regex) (repl : str) (s : str) :
  forall prev, unmatched r prev s -> sub_from r repl 0 prev s = s.
Proof.
  induction s as [|c s IH]; intros prev [H U]; simpl; rewrite H.
  - reflexivity.
  - f_equal. now apply IH.
Qed.

Section SubstitutionOfTokens.
Variable r : regex.
Variable token : str.
Hypothesis no_empty : forall p, match_at r p [] = None.
Hypothesis never_empty :
  forall p s n g, match_at r p s = Some (n, g) -> n <> 0.

Lemma sub_from_nil (skip : nat) (p : option ascii) :
  sub_from r token skip p [] = [].
Proof. destruct skip; simpl; [|reflexivity]. now rewrite no_empty. Qed.

Lemma sub_from_copy (p : option ascii) (c : ascii) (s : str) :
  match_at r p (c :: s) = None ->
  sub_from r token 0 p (c :: s) = c :: sub_from r token 0 (Some c) s.
Proof. intro H. simpl. now rewrite H. Qed.

Lemma sub_from_match (p : option ascii) (c : ascii) (s : str) (n : nat)
    (g : option (nat * nat)) :
  match_at r p (c :: s) = Some (n, g) ->
  sub_from r token 0 p (c :: s)
  = token ++ sub_from r token (pred n) (Some c) s.
Proof.
  intro H. simpl. rewrite H. simpl.
  destruct n as [|n]; [now apply never_empty in H|reflexivity].
Qed.

Section Detector.
Variable Q : Type.
Variable delta : Q -> ascii -> outcome Q.
Variable fin : Q -> bool.
Variable init : Q.
Variable okp : option ascii -> bool.

(** Where the token lets the detector go on to accept, the first
    character of the match it stands for makes it accept at once. *)
Hypothesis token_start :
  forall q p c s n g w,
    match_at r p (c :: s) = Some (n, g) ->
    run delta fin q (token ++ w) = true -> delta q c = Acc.
Hypothesis token_inert : forall p, token_ok delta fin init okp p token.
Hypothesis token_not_empty : token <> [].
Hypothesis token_end :
  okp (last_char None token) = false \/ forall p, okp p = true.
Hypothesis init_not_final : fin init = false.

Lemma run_sub_from (s : str) :
  forall skip p q,
    run delta fin q (sub_from r token skip p s) = true ->
    run delta fin q (skipn skip s) = true.
Proof.
  induction s as [|c s IH]; intros skip p q H.
  - rewrite sub_from_nil in H. now destruct skip.
  - destruct skip as [|j]; [|simpl in *; now apply IH with (p := Some c)].
    simpl skipn. destruct (match_at r p (c :: s)) as [[n g]|] eqn:M.
    + rewrite (@sub_from_match _ _ _ _ _ M) in H.
      simpl. now rewrite (@token_start q p c s n g _ M H).
    + rewrite (@sub_from_copy _ _ _ M) in H. simpl in *.
      destruct (delta q c); [reflexivity|discriminate|].
      apply (IH 0 (Some c) _ H).
Qed.

Lemma nowhere_token (t : str) :
  forall p w,
    token_ok delta fin init okp p t ->
    nowhere delta fin init okp (last_char p t) w ->
    nowhere delta fin init okp p (t ++ w).
Proof.
  induction t as [|x t IH]; intros p w Ht Hw; simpl.
  - exact Hw.
  - destruct Ht as [H0 Ht]. split; [apply H0|].
    apply IH; [exact Ht|]. now rewrite last_char_cons in Hw.
Qed.

Lemma last_char_token (p : option ascii) :
  last_char p token = last_char None token.
Proof.
  unfold last_char. destruct (rev token) eqn:E; [|reflexivity].
  exfalso. apply token_not_empty.
  rewrite <- (rev_involutive token), E. reflexivity.
Qed.

Lemma nowhere_sub_from (s : str) :
  forall skip pin pout,
    copy_ok delta fin init okp r pin s ->
    (pout = pin /\ skip = 0) \/ pout = last_char None token ->
    nowhere delta fin init okp pout (sub_from r token skip pin s).
Proof.
  induction s as [|c s IH]; intros skip pin pout C P.
  - rewrite sub_from_nil. simpl. split; [|exact I].
    unfold fires. simpl. rewrite init_not_final. apply andb_false_r.
  - destruct C as [C0 C].
    destruct skip as [|j].
    + destruct (match_at r pin (c :: s)) as [[n g]|] eqn:M.
      * rewrite (@sub_from_match _ _ _ _ _ M).
        apply nowhere_token; [apply token_inert|].
        rewrite last_char_token. apply IH; [exact C|now right].
      * rewrite (@sub_from_copy _ _ _ M). simpl. split.
        -- destruct (fires delta fin init okp pout
                       (c :: sub_from r token 0 (Some c) s)) eqn:F;
             [|reflexivity].
           unfold fires in F. apply andb_true_iff in F. destruct F as [F1 F2].
           rewrite <- (@sub_from_copy _ _ _ M) in F2.
           apply run_sub_from in F2. simpl skipn in F2.
           specialize (C0 eq_refl). unfold fires in C0. rewrite F2 in C0.
           rewrite andb_true_r in C0.
           destruct P as [[-> _] | ->]; [congruence|].
           destruct token_end as [E|E]; [congruence|]. rewrite E in C0.
           discriminate.
        -- apply IH; [exact C|now left].
    + simpl. destruct P as [[_ P]|P]; [discriminate|].
      apply IH; [exact C|now right].
Qed.

Lemma nowhere_copy_ok (s : str) :
  forall p, nowhere delta fin init okp p s ->
            copy_ok delta fin init okp r p s.
Proof.
  induction s as [|c s IH]; intros p [H N]; simpl; split; auto.
Qed.

(** The detector fires nowhere in the text after the substitution when it
    fires, in the text before, at no place the pattern leaves. *)
Lemma nowhere_sub (p : option ascii) (s : str) :
  copy_ok delta fin init okp r p s ->
  nowhere delta fin init okp p (sub_from r token 0 p s).
Proof. intro C. apply nowhere_sub_from; [exact C|now left]. Qed.

End Detector.
End SubstitutionOfTokens.

(** *** What a match begins with *)

Lemma match_pos_mono (r : regex) (st st' : mstate) :
  Match r st st' -> m_pos st <= m_pos st'.
Proof.
  induction 1; simpl in *; lia.
Qed.

Lemma starts_chr (P : ascii -> bool) : starts P (Chr P).
Proof.
  intros st st' M. inversion M; subst. simpl.
  eexists. eexists. split; [reflexivity|]. split; [assumption|lia].
Qed.

Lemma starts_rep (P : ascii -> bool) (lo : nat) (hi : option nat)
    (greedy : bool) :
  1 <= lo -> starts P (Rep P lo hi greedy).
Proof.
  intros L st st' M. inversion M; subst. simpl.
  destruct cs as [|c cs]; simpl in *; [lia|].
  match goal with H : _ && _ = true |- _ => apply andb_true_iff in H;
    destruct H as [Pc _] end.
  exists c, (cs ++ rest). split; [reflexivity|]. split; [assumption|lia].
Qed.

Lemma starts_seq (P : ascii -> bool) (a b : regex) :
  starts P a -> starts P (Seq a b).
Proof.
  intros Ha st st'' M. inversion M; subst.
  match goal with H : Match a _ _ |- _ => apply Ha in H;
    destruct H as (c & rest & E & Pc & L) end.
  match goal with H : Match b _ _ |- _ => apply match_pos_mono in H end.
  exists c, rest. split; [assumption|]. split; [assumption|lia].
Qed.

Lemma starts_bnd_seq (P : ascii -> bool) (b : regex) :
  starts P b -> starts P (Seq Bnd b).
Proof.
  intros Hb st st'' M. inversion M; subst.
  match goal with H : Match Bnd _ _ |- _ => inversion H; subst end.
  now apply Hb.
Qed.

Lemma starts_grp (P : ascii -> bool) (a : regex) :
  starts P a -> starts P (Grp a).
Proof.
  intros Ha st st' M. inversion M; subst. simpl. now apply Ha.
Qed.

Lemma starts_alt (P : ascii -> bool) (a b : regex) :
  starts P a -> starts P b -> starts P (Alt a b).
Proof.
  intros Ha Hb st st' M. inversion M; subst; [now apply Ha|now apply Hb].
Qed.

Lemma starts_weaken (P P' : ascii -> bool) (r : regex) :
  (forall c, P c = true -> P' c = true) -> starts P r -> starts P' r.
Proof.
  intros W H st st' M. destruct (H _ _ M) as (c & rest & E & Pc & L).
  exists c, rest. auto.
Qed.

Lemma starts_no_empty (P : ascii -> bool) (r : regex) :
  starts P r -> forall p, match_at r p [] = None.
Proof.
  intros H p. destruct (match_at r p []) as [[n g]|] eqn:E; [|reflexivity].
  apply match_at_pos in E. destruct E as (st' & M & _).
  apply H in M. destruct M as (c & rest & E & _). discriminate.
Qed.

Lemma starts_never_empty (P : ascii -> bool) (r : regex) :
  starts P r ->
  forall p s n g, match_at r p s = Some (n, g) -> n <> 0.
Proof.
  intros H p s n g E. apply match_at_pos in E.
  destruct E as (st' & M & <-). apply H in M.
  destruct M as (c & rest & _ & _ & L). simpl in L. lia.
Qed.

Lemma starts_head (P : ascii -> bool) (r : regex) :
  starts P r ->
  forall p c s n g, match_at r p (c :: s) = Some (n, g) -> P c = true.
Proof.
  intros H p c s n g E. apply match_at_pos in E.
  destruct E as (st' & M & _). apply H in M.
  destruct M as (c' & rest & E & Pc & _). simpl in E. now injection E as -> _.
Qed.

(** A character of the class [X] always starts a match: the substitution
    leaves none. *)
Lemma sub_from_removes (X : ascii -> bool) (r : regex) (token : str) :
  (forall p s n g, match_at r p s = Some (n, g) -> n <> 0) ->
  (forall p c s, X c = true -> match_at r p (c :: s) <> None) ->
  Forall (fun c => X c = false) token ->
  forall s skip p,
    Forall (fun c => X c = false) (sub_from r token skip p s).
Proof.
  intros Hn Hm Ht. induction s as [|c s IH]; intros skip p.
  - destruct skip; simpl; [|constructor].
    destruct (match_at r p []); [|constructor]. now rewrite app_nil_r.
  - destruct skip; simpl; [|apply IH].
    destruct (match_at r p (c :: s)) as [[n g]|] eqn:E.
    + apply Forall_app. split; [exact Ht|].
      apply Forall_app. split; [|apply IH].
      apply Hn in E. simpl. destruct n; [congruence|constructor].
    + constructor; [|apply IH].
      destruct (X c) eqn:Xc; [|reflexivity].
      exfalso. now apply (Hm p c s Xc).
Qed.

(** *** The characters, one by one *)

Lemma all_chars_complete (c : ascii) : In c all_chars.
Proof.
  unfold all_chars. rewrite <- (ascii_nat_embedding c).
  apply in_map. apply in_seq. pose proof (nat_ascii_bounded c). lia.
Qed.

Lemma for_all_chars (P : ascii -> bool) :
  forallb P all_chars = true -> forall c, P c = true.
Proof.
  intros H c. rewrite forallb_forall in H. apply H, all_chars_complete.
Qed.

Ltac by_chars :=
  let c := fresh "c" in
  intro c; revert c;
  match goal with
  | |- forall c, @?P c = true => apply (for_all_chars P)
  | |- forall c, ?a = ?b => fail
  end; vm_compute; reflexivity.

Lemma lower_not_upper : forall c, negb (is_upper (lower_char c)) = true.
Proof. by_chars. Qed.

Lemma lower_space : forall c, Bool.eqb (is_space (lower_char c)) (is_space c) = true.
Proof. by_chars. Qed.

Lemma lower_digit : forall c, Bool.eqb (is_digit (lower_char c)) (is_digit c) = true.
Proof. by_chars. Qed.

Lemma lower_word : forall c, Bool.eqb (is_word (lower_char c)) (is_word c) = true.
Proof. by_chars. Qed.

Lemma lower_symbol :
  forall c, implb (currency_symbol (lower_char c)) (currency_symbol c) = true.
Proof. by_chars. Qed.

Lemma lower_lower : forall c, eqc (lower_char (lower_char c)) (lower_char c) = true.
Proof. by_chars. Qed.

Lemma space_lower_fixed :
  forall c, implb (is_space c) (eqc (lower_char c) c) = true.
Proof. by_chars. Qed.

Lemma digit_is_ref : forall c, implb (is_digit c) (ref_char c) = true.
Proof. by_chars. Qed.

Lemma space_not_word : forall c, implb (is_space c) (negb (is_word c)) = true.
Proof. by_chars. Qed.

(** *** The patterns of the normalizer, one by one *)

Lemma starts_currency_symbol : starts currency_symbol re_currency_symbol.
Proof. apply starts_chr. Qed.

Lemma starts_currency_code : starts (fun _ => true) re_currency_code.
Proof.
  unfold re_currency_code. cbn [cat map alts of_string list_ascii_of_string lit].
  apply starts_bnd_seq, starts_seq, starts_grp.
  repeat apply starts_alt;
    apply starts_seq;
    (eapply starts_weaken; [|apply starts_chr]); reflexivity.
Qed.

Lemma letter_I_ref : forall c, implb (letter "I" c) (ref_char c) = true.
Proof. by_chars. Qed.

Lemma starts_invoice_number : starts ref_char re_invoice_number.
Proof.
  unfold re_invoice_number.
  cbn [cat map alts of_string list_ascii_of_string lit].
  apply starts_seq, starts_seq.
  eapply starts_weaken; [|apply starts_chr].
  intros c H. pose proof (letter_I_ref c) as L.
  unfold letter in L. cbn [of_string list_ascii_of_string] in L.
  rewrite H in L. exact L.
Qed.

Lemma starts_date : starts is_digit re_date.
Proof.
  unfold re_date, range. cbn [cat]. apply starts_seq, starts_rep. lia.
Qed.

Lemma starts_amount : starts is_digit re_amount.
Proof.
  unfold re_amount, plus. cbn [cat]. apply starts_seq, starts_rep. lia.
Qed.

Lemma starts_spaces : starts is_space re_spaces.
Proof. unfold re_spaces, plus. apply starts_rep. lia. Qed.

Lemma symbol_matches (p : option ascii) (c : ascii) (s : str) :
  currency_symbol c = true -> match_at re_currency_symbol p (c :: s) <> None.
Proof.
  intro H. unfold match_at, re_currency_symbol. simpl. rewrite H. discriminate.
Qed.

Lemma digit_matches (p : option ascii) (c : ascii) (s : str) :
  is_digit c = true -> match_at re_amount p (c :: s) <> None.
Proof.
  intro H. apply match_at_some. unfold re_amount, plus, opt, star. cbn [cat].
  eexists. eapply M_Seq.
  - apply (@M_Rep is_digit 1 None true p [c] s 0 None); simpl;
      [now rewrite H|lia|exact I].
  - eapply M_Seq.
    + apply (@M_Rep comma_point 0 (Some 1) true _ [] s _ None); simpl;
        [reflexivity|lia|lia].
    + apply (@M_Rep is_digit 0 None true _ [] s _ None); simpl;
        [reflexivity|lia|exact I].
Qed.

(** *** The substitution of the blanks *)

Lemma rep_greedy_all (p : ascii -> bool) (lo : nat) (rest : str) :
  forall n prev pos g,
    rep_greedy p lo None (fun st => Some (m_pos st, m_grp st)) n prev pos g rest
    = if lo <=? n + span p rest then Some (pos + span p rest, g) else None.
Proof.
  induction rest as [|c rest IH]; intros n prev pos g; simpl.
  - now rewrite !Nat.add_0_r.
  - destruct (p c); simpl.
    + rewrite IH. rewrite <- !plus_n_Sm. simpl.
      destruct (lo <=? S (n + span p rest)) eqn:L; [reflexivity|].
      apply Nat.leb_gt in L.
      destruct (lo <=? n) eqn:L'; [apply Nat.leb_le in L'; lia|reflexivity].
    + now rewrite !Nat.add_0_r.
Qed.

Lemma match_spaces (prev : option ascii) (s : str) :
  match_at re_spaces prev s
  = if 1 <=? span is_space s then Some (span is_space s, None) else None.
Proof.
  unfold match_at, re_spaces, plus. simpl. now rewrite rep_greedy_all.
Qed.

Lemma sub_spaces_collapse (s : str) :
  (forall prev, sub_from re_spaces [chr 32] 0 prev s = collapse false s)
  /\ (forall prev,
        sub_from re_spaces [chr 32] (span is_space s) prev s
        = collapse true s).
Proof.
  induction s as [|c s [IH0 IH1]].
  - split; intro prev; reflexivity.
  - assert (H0 : forall prev,
               sub_from re_spaces [chr 32] 0 prev (c :: s)
               = collapse false (c :: s)).
    { intro prev. cbn [sub_from]. rewrite match_spaces. cbn [span collapse].
      destruct (is_space c); simpl.
      - now rewrite IH1.
      - now rewrite IH0. }
    split; [exact H0|].
    intro prev. specialize (H0 prev). cbn [span collapse] in *.
    destruct (is_space c); [|exact H0].
    simpl. apply IH1.
Qed.

(** *** The invoice-number pattern and its detector *)

Lemma lit_char_lower (l c : ascii) :
  lit_char true l c = true <-> lower_char c = lower_char l.
Proof. unfold lit_char. apply eqc_iff. Qed.

Lemma ref_not_space : forall c, implb (ref_char c) (negb (is_space c)) = true.
Proof. by_chars. Qed.

Lemma ref_not_hash : forall c, implb (ref_char c) (negb (is_code 35 c)) = true.
Proof. by_chars. Qed.

Lemma ref_not_colon : forall c, implb (ref_char c) (negb (is_code 58 c)) = true.
Proof. by_chars. Qed.

Lemma hash_not_space : forall c, implb (is_code 35 c) (negb (is_space c)) = true.
Proof. by_chars. Qed.

Lemma colon_not_space : forall c, implb (is_code 58 c) (negb (is_space c)) = true.
Proof. by_chars. Qed.

Lemma colon_not_hash : forall c, implb (is_code 58 c) (negb (is_code 35 c)) = true.
Proof. by_chars. Qed.

Ltac use_class L c :=
  let H := fresh in
  pose proof (L c) as H;
  match type of H with
  | implb ?a _ = true =>
      match goal with
      | E : a = true |- _ => rewrite E in H; simpl in H;
                             apply negb_true_iff in H
      end
  end.

Abbreviation inv_run := (run inv_delta inv_fin).

Lemma inv_T1_space (c : ascii) (x : str) :
  is_space c = true -> inv_run T1 (c :: x) = inv_run T1 x.
Proof. intro H. simpl. now rewrite H. Qed.

Lemma inv_T4_space (c : ascii) (x : str) :
  is_space c = true -> inv_run T4 (c :: x) = inv_run T4 x.
Proof. intro H. simpl. now rewrite H. Qed.

Lemma inv_T1_spaces (sp x : str) :
  forallb is_space sp = true -> inv_run T1 (sp ++ x) = inv_run T1 x.
Proof.
  induction sp as [|c sp IH]; intro H; [reflexivity|].
  simpl in H. apply andb_true_iff in H. destruct H as [Hc H].
  change ((c :: sp) ++ x) with (c :: sp ++ x).
  rewrite inv_T1_space by exact Hc. now apply IH.
Qed.

Lemma inv_T4_spaces (sp x : str) :
  forallb is_space sp = true -> inv_run T4 (sp ++ x) = inv_run T4 x.
Proof.
  induction sp as [|c sp IH]; intro H; [reflexivity|].
  simpl in H. apply andb_true_iff in H. destruct H as [Hc H].
  change ((c :: sp) ++ x) with (c :: sp ++ x).
  rewrite inv_T4_space by exact Hc. now apply IH.
Qed.

Lemma inv_T4_ref (c : ascii) (x : str) :
  ref_char c = true -> inv_run T4 (c :: x) = true.
Proof.
  intro H. use_class ref_not_space c. simpl.
  match goal with E : is_space c = false |- _ => rewrite E end.
  now rewrite H.
Qed.

Lemma inv_T4_tail (sp : str) (c : ascii) (x : str) :
  forallb is_space sp = true -> ref_char c = true ->
  inv_run T4 (sp ++ c :: x) = true.
Proof.
  intros Hs Hc. rewrite inv_T4_spaces by exact Hs. now apply inv_T4_ref.
Qed.

Lemma inv_T2_tail (sp : str) (c : ascii) (x : str) :
  forallb is_space sp = true -> ref_char c = true ->
  inv_run T2 (sp ++ c :: x) = true.
Proof.
  intros Hs Hc. destruct sp as [|d sp].
  - simpl. use_class ref_not_space c. use_class ref_not_colon c.
    repeat match goal with E : _ c = false |- _ => rewrite E; clear E end.
    now rewrite Hc.
  - simpl in Hs. apply andb_true_iff in Hs. destruct Hs as [Hd Hs].
    change ((d :: sp) ++ c :: x) with (d :: sp ++ c :: x).
    cbn [run inv_delta]. rewrite Hd.
    destruct (is_code 58 d); now apply inv_T4_tail.
Qed.

Lemma inv_T1_ref (c : ascii) (x : str) :
  ref_char c = true -> inv_run T1 (c :: x) = true.
Proof.
  intro Hc. simpl. use_class ref_not_space c. use_class ref_not_colon c.
  use_class ref_not_hash c.
  repeat match goal with E : _ c = false |- _ => rewrite E; clear E end.
  now rewrite Hc.
Qed.

Lemma forallb_one_or_none (p : ascii -> bool) (cs : str) :
  forallb p cs = true -> length cs <= 1 ->
  cs = [] \/ exists c, cs = [c] /\ p c = true.
Proof.
  destruct cs as [|c [|c' cs]]; simpl; intros H L.
  - now left.
  - right. exists c. split; [reflexivity|]. now rewrite andb_true_r in H.
  - lia.
Qed.

Lemma inv_tail_run (x : str) : inv_tail x -> inv_run T1 x = true.
Proof.
  intros (sp1 & h & k & sp2 & c & rest & -> & S1 & H1 & H2 & K1 & K2 & S2 & R).
  rewrite inv_T1_spaces by exact S1.
  destruct (forallb_one_or_none _ _ H1 H2) as [->|(a & -> & Ha)];
    destruct (forallb_one_or_none _ _ K1 K2) as [->|(b & -> & Hb)];
    cbn [app].
  - destruct sp2 as [|d sp2]; cbn [app].
    + now apply inv_T1_ref.
    + simpl in S2. apply andb_true_iff in S2. destruct S2 as [Hd S2].
      rewrite inv_T1_space by exact Hd.
      rewrite inv_T1_spaces by exact S2. now apply inv_T1_ref.
  - cbn [run inv_delta]. use_class colon_not_space b. use_class colon_not_hash b.
    repeat match goal with E : _ b = false |- _ => rewrite E; clear E end.
    rewrite Hb. now apply inv_T4_tail.
  - cbn [run inv_delta]. use_class hash_not_space a.
    match goal with E : _ a = false |- _ => rewrite E; clear E end.
    rewrite Ha. now apply inv_T2_tail.
  - cbn [run inv_delta]. use_class hash_not_space a.
    match goal with E : _ a = false |- _ => rewrite E; clear E end.
    rewrite Ha. cbn [run inv_delta]. rewrite Hb. now apply inv_T4_tail.
Qed.

Lemma inv_T4_shape (x : str) :
  inv_run T4 x = true ->
  exists sp c rest,
    x = sp ++ [c] ++ rest /\ forallb is_space sp = true /\ ref_char c = true.
Proof.
  induction x as [|d x IH]; simpl; [discriminate|].
  destruct (is_space d) eqn:Sd.
  - intro H. destruct (IH H) as (sp & c & rest & -> & Hs & Hc).
    exists (d :: sp), c, rest. simpl. now rewrite Sd.
  - destruct (ref_char d) eqn:Rd; [|discriminate]. intros _.
    exists [], d, x. auto.
Qed.

Lemma inv_run_tail (x : str) : inv_run T1 x = true -> inv_tail x.
Proof.
  unfold inv_tail. induction x as [|d x IH]; simpl; [discriminate|].
  destruct (is_space d) eqn:Sd.
  { intro H. destruct (IH H)
      as (sp1 & h & k & sp2 & c & rest & -> & S1 & H1 & H2 & K1 & K2 & S2 & R).
    exists (d :: sp1), h, k, sp2, c, rest. simpl. rewrite Sd. auto 10. }
  destruct (is_code 35 d) eqn:Hd.
  { destruct x as [|e x]; simpl; [discriminate|].
    destruct (is_code 58 e) eqn:Ke.
    - intro H. destruct (inv_T4_shape _ H) as (sp & c & rest & -> & Hs & Hc).
      exists [], [d], [e], sp, c, rest. simpl. rewrite Hd, Ke. auto 10.
    - destruct (is_space e) eqn:Se.
      + intro H. destruct (inv_T4_shape _ H) as (sp & c & rest & -> & Hs & Hc).
        exists [], [d], [], (e :: sp), c, rest. simpl. rewrite Hd, Se. auto 10.
      + destruct (ref_char e) eqn:Re; [|discriminate]. intros _.
        exists [], [d], [], [], e, x. simpl. rewrite Hd. auto 10. }
  destruct (is_code 58 d) eqn:Kd.
  { intro H. destruct (inv_T4_shape _ H) as (sp & c & rest & -> & Hs & Hc).
    exists [], [], [d], sp, c, rest. simpl. rewrite Kd. auto 10. }
  destruct (ref_char d) eqn:Rd; [|discriminate]. intros _.
  exists [], [], [], [], d, x. simpl. auto 10.
Qed.

Ltac invert_match :=
  repeat match goal with
         | H : Match (Seq _ _) _ _ |- _ => inversion H; subst; clear H
         | H : Match (Chr _) _ _ |- _ => inversion H; subst; clear H
         | H : Match (Rep _ _ _ _) _ _ |- _ => inversion H; subst; clear H
         | H : Match (Grp _) _ _ |- _ => inversion H; subst; clear H
         | H : Match Bnd _ _ |- _ => inversion H; subst; clear H
         | H : Match (Alt _ _) _ _ |- _ => inversion H; subst; clear H
         end.

Lemma invoice_number_shape :
  re_invoice_number
  = Seq (Seq (Chr (lit_char true "I"))
        (Seq (Chr (lit_char true "n"))
        (Seq (Chr (lit_char true "v"))
        (Seq (Chr (lit_char true "o"))
        (Seq (Chr (lit_char true "i"))
        (Seq (Chr (lit_char true "c")) (Chr (lit_char true "e"))))))))
        (Seq (Rep is_space 0 None true)
        (Seq (Rep (is_code 35) 0 (Some 1) true)
        (Seq (Rep (is_code 58) 0 (Some 1) true)
        (Seq (Rep is_space 0 None true) (Rep ref_char 1 None true))))).
Proof. reflexivity. Qed.

Lemma invoice_match_run (p : option ascii) (s : str) (st' : mstate) :
  Match re_invoice_number (MState p s 0 None) st' -> inv_run I0 s = true.
Proof.
  rewrite invoice_number_shape. intro M. invert_match.
  repeat (cbn [run inv_delta letter of_string list_ascii_of_string];
          match goal with
          | H : lit_char true _ ?c = true |- context [lit_char true _ ?c] =>
              rewrite H; clear H
          end).
  apply inv_tail_run.
  match goal with
  | H : forallb ref_char ?cs = true, L : 1 <= length ?cs |- _ =>
      let r0 := fresh "r" in
      let refs := fresh "refs" in
      destruct cs as [|r0 refs]; [simpl in L; lia|];
      simpl in H; apply andb_true_iff in H; destruct H as [H _];
      change ((r0 :: refs) ++ ?x) with ([r0] ++ refs ++ x)
  end.
  unfold inv_tail. do 6 eexists. split; [reflexivity|].
  repeat split; try eassumption;
    match goal with H : within _ (Some 1) |- _ => exact H end.
Qed.

Lemma invoice_run_match (p : option ascii) (s : str) :
  inv_run I0 s = true ->
  exists st', Match re_invoice_number (MState p s 0 None) st'.
Proof.
  intro H.
  do 7 (destruct s as [|? s]; [discriminate|];
        cbn [run inv_delta letter of_string list_ascii_of_string] in H;
        match type of H with
        | context [lit_char true ?l ?c] =>
            destruct (lit_char true l c) eqn:?; [|discriminate]
        end).
  apply inv_run_tail in H.
  destruct H
    as (sp1 & h & k & sp2 & c & rest & -> & S1 & H1 & H2 & K1 & K2 & S2 & R).
  rewrite invoice_number_shape. eexists.
  eapply M_Seq.
  - repeat (eapply M_Seq; [apply M_Chr; eassumption|]).
    apply M_Chr; eassumption.
  - eapply M_Seq; [apply M_Rep; [exact S1|lia|exact I]|].
    eapply M_Seq; [apply M_Rep; [exact H1|lia|exact H2]|].
    eapply M_Seq; [apply M_Rep; [exact K1|lia|exact K2]|].
    eapply M_Seq; [apply M_Rep; [exact S2|lia|exact I]|].
    apply M_Rep; simpl; [now rewrite R|lia|exact I].
Qed.

(** The invoice-number pattern matches exactly where its detector
    fires. *)
Lemma invoice_match_iff (p : option ascii) (s : str) :
  match_at re_invoice_number p s <> None <-> inv_fires p s = true.
Proof.
  unfold inv_fires, fires, inv_okp. rewrite andb_true_l, match_at_some.
  split.
  - intros (st' & M). eapply invoice_match_run. exact M.
  - apply invoice_run_match.
Qed.

(** *** The currency-code pattern and its detector *)

Abbreviation code_run := (run code_delta code_fin).

Lemma lower_letter_word :
  forall c, implb (is_ascii_lower (lower_char c)) (is_word c) = true.
Proof. by_chars. Qed.

Lemma lit_letter_word (l c : ascii) :
  lit_char true l c = true ->
  is_ascii_lower (lower_char l) = true -> is_word c = true.
Proof.
  intros H L. apply lit_char_lower in H.
  pose proof (lower_letter_word c) as W. rewrite H, L in W. exact W.
Qed.

Lemma currency_code_shape :
  re_currency_code
  = Seq Bnd
      (Seq (Grp
         (Alt (Seq (Chr (lit_char true "U"))
                   (Seq (Chr (lit_char true "S")) (Chr (lit_char true "D"))))
         (Alt (Seq (Chr (lit_char true "E"))
                   (Seq (Chr (lit_char true "U")) (Chr (lit_char true "R"))))
         (Alt (Seq (Chr (lit_char true "G"))
                   (Seq (Chr (lit_char true "B")) (Chr (lit_char true "P"))))
         (Alt (Seq (Chr (lit_char true "I"))
                   (Seq (Chr (lit_char true "N")) (Chr (lit_char true "R"))))
         (Alt (Seq (Chr (lit_char true "J"))
                   (Seq (Chr (lit_char true "P")) (Chr (lit_char true "Y"))))
              (Seq (Chr (lit_char true "C"))
                   (Seq (Chr (lit_char true "A"))
                        (Chr (lit_char true "D"))))))))))
         Bnd).
Proof. reflexivity. Qed.

(** Decides the tests of the detector on a character whose lower-case
    form is known. *)
Ltac decide_letters :=
  repeat match goal with
         | H : lit_char true _ _ = true |- _ => apply lit_char_lower in H
         end;
  unfold letter, lit_char; cbn [of_string list_ascii_of_string];
  repeat match goal with
         | H : lower_char ?c = _ |- context [lower_char ?c] => rewrite H
         end;
  repeat match goal with
         | |- context [eqc (lower_char ?a) (lower_char ?b)] =>
             let v := eval vm_compute in (eqc (lower_char a) (lower_char b)) in
             change (eqc (lower_char a) (lower_char b)) with v
         end;
  cbv iota.

Lemma code_match_run (p : option ascii) (s : str) (st' : mstate) :
  Match re_currency_code (MState p s 0 None) st' -> code_fires p s = true.
Proof.
  rewrite currency_code_shape. intro M. invert_match;
    cbn [m_prev m_rest hd_error is_word_opt] in *.
  all: match goal with
       | H1 : lit_char true _ ?c1 = true, H3 : lit_char true _ ?c3 = true,
         B1 : xorb (is_word_opt ?q) (is_word ?c1) = true,
         B3 : xorb (is_word ?c3) _ = true |- _ =>
           rewrite (@lit_letter_word _ _ H1 eq_refl) in B1;
           rewrite (@lit_letter_word _ _ H3 eq_refl) in B3;
           unfold code_fires, fires, code_okp;
           destruct (is_word_opt q); [discriminate|]; simpl andb
       end.
  all: cbn [run code_delta]; decide_letters;
       cbn [run code_delta]; decide_letters;
       cbn [run code_delta]; decide_letters.
  all: match goal with
       | |- code_run Cend ?rest = true =>
           destruct rest as [|c4 rest]; [reflexivity|];
           simpl in *; destruct (is_word c4); [discriminate|reflexivity]
       end.
Qed.

Ltac match_chars :=
  repeat (eapply M_Seq; [apply M_Chr; eassumption|]);
  apply M_Chr; eassumption.

Lemma code_run_match (p : option ascii) (s : str) :
  code_fires p s = true ->
  exists st', Match re_currency_code (MState p s 0 None) st'.
Proof.
  unfold code_fires, fires, code_okp. intro H.
  apply andb_true_iff in H. destruct H as [P H].
  apply negb_true_iff in P.
  destruct s as [|c1 s]; [discriminate|].
  cbn [run code_delta letter of_string list_ascii_of_string] in H.
  repeat match type of H with
         | context [if lit_char true ?l c1 then _ else _] =>
             destruct (lit_char true l c1) eqn:?
         end; try discriminate.
  all: destruct s as [|c2 s]; [discriminate|];
       cbn [run code_delta letter of_string list_ascii_of_string] in H;
       match type of H with
       | context [if lit_char true ?l c2 then _ else _] =>
           destruct (lit_char true l c2) eqn:?; [|discriminate]
       end;
       destruct s as [|c3 s]; [discriminate|];
       cbn [run code_delta letter of_string list_ascii_of_string] in H;
       match type of H with
       | context [if lit_char true ?l c3 then _ else _] =>
           destruct (lit_char true l c3) eqn:?; [|discriminate]
       end.
  all: match goal with
       | E1 : lit_char true _ ?a = true, E3 : lit_char true _ ?c = true
         |- exists _, Match _ (MState ?q (?a :: _ :: ?c :: ?t) _ _) _ =>
           assert (B1 : xorb (is_word_opt q) (is_word a) = true)
             by (rewrite P; now rewrite (@lit_letter_word _ _ E1 eq_refl));
           assert (B3 : xorb (is_word c) (is_word_opt (hd_error t)) = true)
             by (rewrite (@lit_letter_word _ _ E3 eq_refl);
                 destruct t as [|c4 t]; [reflexivity|];
                 simpl in H |- *; destruct (is_word c4);
                 [discriminate|reflexivity])
       end.
  all: rewrite currency_code_shape; eexists;
       (eapply M_Seq; [apply M_Bnd; exact B1|]).
  - eapply M_Seq; [apply M_Grp, M_AltL; match_chars|apply M_Bnd; exact B3].
  - eapply M_Seq; [apply M_Grp, M_AltR, M_AltL; match_chars
                  |apply M_Bnd; exact B3].
  - eapply M_Seq; [apply M_Grp, M_AltR, M_AltR, M_AltL; match_chars
                  |apply M_Bnd; exact B3].
  - eapply M_Seq; [apply M_Grp, M_AltR, M_AltR, M_AltR, M_AltL; match_chars
                  |apply M_Bnd; exact B3].
  - eapply M_Seq; [apply M_Grp, M_AltR, M_AltR, M_AltR, M_AltR, M_AltL;
                   match_chars
                  |apply M_Bnd; exact B3].
  - eapply M_Seq; [apply M_Grp, M_AltR, M_AltR, M_AltR, M_AltR, M_AltR;
                   match_chars
                  |apply M_Bnd; exact B3].
Qed.

(** The currency-code pattern matches exactly where its detector fires. *)
Lemma code_match_iff (p : option ascii) (s : str) :
  match_at re_currency_code p s <> None <-> code_fires p s = true.
Proof.
  rewrite match_at_some. split.
  - intros (st' & M). eapply code_match_run. exact M.
  - apply code_run_match.
Qed.

(** *** Lower case, blanks and the detectors, in general *)

Section DetectorAndBlanks.
Variable Q : Type.
Variable delta : Q -> ascii -> outcome Q.
Variable fin : Q -> bool.
Variable init : Q.
Variable okp : option ascii -> bool.

Hypothesis init_not_final : fin init = false.
Hypothesis delta_lower : forall q c, delta q (lower_char c) = delta q c.
Hypothesis okp_lower : forall c, okp (Some (lower_char c)) = okp (Some c).
Hypothesis delta_space :
  forall q c, is_space c = true -> delta q c = delta q (chr 32).
Hypothesis delta_space_again :
  forall q q', delta q (chr 32) = Go q' -> delta q' (chr 32) = Go q'.
Hypothesis init_space : delta init (chr 32) = Rej.
Hypothesis okp_space : forall c, is_space c = true -> okp (Some c) = true.
Hypothesis fin_space : forall q, fin q = true -> delta q (chr 32) = Acc.

Abbreviation run' := (run delta fin).
Abbreviation nowhere' := (nowhere delta fin init okp).

Lemma nowhere_prev (s : str) (p1 p2 : option ascii) :
  (okp p2 = true -> okp p1 = true) -> nowhere' p1 s -> nowhere' p2 s.
Proof.
  intros R N.
  assert (F : fires delta fin init okp p2 s = false).
  { destruct s; simpl in N; destruct N as [N _]; unfold fires in *;
      destruct (okp p2); simpl; auto; rewrite R in N by reflexivity;
      exact N. }
  destruct s; simpl in *; tauto.
Qed.

Lemma run_lower (s : str) : forall q, run' q (lower s) = run' q s.
Proof.
  induction s as [|c s IH]; intro q; simpl; [reflexivity|].
  rewrite delta_lower. destruct (delta q c); auto.
Qed.

Lemma nowhere_lower (s : str) :
  forall p, nowhere' p s -> nowhere' (option_map lower_char p) (lower s).
Proof.
  induction s as [|c s IH]; intros p [F N].
  - simpl. split; [|exact I]. unfold fires in *. simpl in *.
    rewrite init_not_final in *. apply andb_false_r.
  - change (lower (c :: s)) with (lower_char c :: lower s).
    split; [|apply (IH (Some c) N)].
    unfold fires in *. change (lower_char c :: lower s) with (lower (c :: s)).
    rewrite run_lower. destruct p as [x|]; simpl option_map.
    + now rewrite okp_lower.
    + exact F.
Qed.

Lemma run_collapse (s : str) :
  forall q,
    (run' q (collapse false s) = true -> run' q s = true)
    /\ (delta q (chr 32) = Go q ->
        run' q (collapse true s) = true -> run' q s = true).
Proof.
  induction s as [|c s IH]; intro q; [simpl; auto|].
  cbn [collapse]. destruct (is_space c) eqn:Sc.
  - split.
    + cbn [run]. rewrite (delta_space q c Sc).
      destruct (delta q (chr 32)) as [| |q'] eqn:D; auto.
      intro H. apply (proj2 (IH q')); [|exact H].
      now apply delta_space_again with q.
    + intros St H. cbn [run]. rewrite (delta_space q c Sc), St.
      now apply (proj2 (IH q)).
  - assert (G : run' q (c :: collapse false s) = true ->
                run' q (c :: s) = true).
    { cbn [run]. destruct (delta q c) as [| |q']; auto.
      apply (proj1 (IH q')). }
    split; [exact G|intros _; exact G].
Qed.

Lemma nowhere_collapse (s : str) :
  forall f pin pout,
    nowhere' pin s ->
    (okp pout = true -> okp pin = true) ->
    nowhere' pout (collapse f s).
Proof.
  induction s as [|c s IH]; intros f pin pout [F N] R.
  - simpl. split; [|exact I]. unfold fires. simpl.
    rewrite init_not_final. apply andb_false_r.
  - cbn [collapse]. destruct (is_space c) eqn:Sc.
    + destruct f.
      * apply (IH true (Some c) pout N). intros _. now apply okp_space.
      * split.
        -- unfold fires. cbn [run]. rewrite init_space. apply andb_false_r.
        -- apply (IH true (Some c) _ N). intros _. now apply okp_space.
    + split; [|apply (IH false (Some c) (Some c) N); auto].
      destruct (fires delta fin init okp pout (c :: collapse false s)) eqn:G;
        [|reflexivity].
      unfold fires in *. apply andb_true_iff in G. destruct G as [G1 G2].
      assert (G3 : run' init (c :: s) = true).
      { apply (proj1 (run_collapse (c :: s) init)).
        cbn [collapse]. now rewrite Sc. }
      rewrite G3, (R G1) in F. discriminate.
Qed.

Lemma nowhere_lstrip (s : str) :
  forall p, nowhere' p s -> nowhere' p (lstrip s).
Proof.
  induction s as [|c s IH]; intros p N; [exact N|].
  simpl. destruct (is_space c) eqn:Sc; [|exact N].
  apply IH.
  destruct N as [_ N]. apply nowhere_prev with (p1 := Some c); [|exact N].
  intros _. now apply okp_space.
Qed.

Lemma run_app_spaces (a sp : str) :
  forallb is_space sp = true ->
  forall q, run' q a = true -> run' q (a ++ sp) = true.
Proof.
  intros Hs. induction a as [|x a IH]; intros q H.
  - simpl in *. destruct sp as [|c sp]; [exact H|].
    simpl in Hs. apply andb_true_iff in Hs. destruct Hs as [Hc _].
    cbn [run]. rewrite (delta_space q c Hc), (@fin_space q H). reflexivity.
  - simpl in *. destruct (delta q x); auto.
Qed.

Lemma nowhere_app_spaces (a sp : str) :
  forallb is_space sp = true ->
  forall p, nowhere' p (a ++ sp) -> nowhere' p a.
Proof.
  intros Hs. induction a as [|x a IH]; intros p N.
  - simpl. split; [|exact I]. unfold fires. simpl.
    rewrite init_not_final. apply andb_false_r.
  - destruct N as [F N]. split; [|now apply IH].
    unfold fires in *. destruct (okp p); [|reflexivity]. cbn [andb] in *.
    destruct (run' init (x :: a)) eqn:G; [|reflexivity].
    apply (@run_app_spaces (x :: a) sp Hs) in G. cbn [app] in *. congruence.
Qed.

End DetectorAndBlanks.

(** *** Stripping *)

Lemma lstrip_split (s : str) :
  exists sp, s = sp ++ lstrip s /\ forallb is_space sp = true.
Proof.
  induction s as [|c s (sp & E & H)]; simpl.
  - now exists [].
  - destruct (is_space c) eqn:Sc.
    + exists (c :: sp). simpl. rewrite Sc, <- E. auto.
    + now exists [].
Qed.

Lemma rstrip_split (s : str) :
  exists sp, s = rstrip s ++ sp /\ forallb is_space sp = true.
Proof.
  unfold rstrip. destruct (lstrip_split (rev s)) as (sp & E & H).
  exists (rev sp). split.
  - rewrite <- rev_app_distr, <- E. now rewrite rev_involutive.
  - rewrite forallb_forall in *. intros x Hx. apply H. now apply in_rev.
Qed.

Lemma lstrip_no_lead (s : str) : no_lead (lstrip s).
Proof.
  induction s as [|c s IH]; simpl; [exact I|].
  destruct (is_space c) eqn:Sc; [exact IH|exact Sc].
Qed.

Lemma lstrip_fixed (s : str) : no_lead s -> lstrip s = s.
Proof. destruct s as [|c s]; simpl; [reflexivity|]. now intros ->. Qed.

Lemma rstrip_fixed (s : str) : no_lead (rev s) -> rstrip s = s.
Proof.
  intro H. unfold rstrip. rewrite lstrip_fixed by exact H.
  apply rev_involutive.
Qed.

Lemma strip_no_lead (s : str) : no_lead (strip s) /\ no_lead (rev (strip s)).
Proof.
  unfold strip. split.
  - pose proof (lstrip_no_lead s) as L.
    destruct (rstrip_split (lstrip s)) as (sp & E & _).
    destruct (rstrip (lstrip s)) as [|c r]; [exact I|].
    rewrite E in L. exact L.
  - unfold rstrip. rewrite rev_involutive. apply lstrip_no_lead.
Qed.

(** *** The two detectors, state by state *)

Lemma same_outcome_eq (Q : Type) (index : Q -> nat) (a b : outcome Q) :
  (forall x y, index x = index y -> x = y) ->
  same_outcome index a b = true -> a = b.
Proof.
  intros Inj. destruct a, b; simpl; try discriminate; try reflexivity.
  intro H. apply Nat.eqb_eq in H. f_equal. now apply Inj.
Qed.

Lemma inv_index_inj (x y : inv_state) : inv_index x = inv_index y -> x = y.
Proof. destruct x, y; simpl; intro H; try reflexivity; discriminate H. Qed.

Lemma code_index_inj (x y : code_state) :
  code_index x = code_index y -> x = y.
Proof. destruct x, y; simpl; intro H; try reflexivity; discriminate H. Qed.

Lemma inv_same (a b : outcome inv_state) :
  same_outcome inv_index a b = true -> a = b.
Proof. apply same_outcome_eq. exact inv_index_inj. Qed.

Lemma code_same (a b : outcome code_state) :
  same_outcome code_index a b = true -> a = b.
Proof. apply same_outcome_eq. exact code_index_inj. Qed.

Lemma inv_states_complete (q : inv_state) : In q inv_states.
Proof. destruct q; simpl; tauto. Qed.

Lemma code_states_complete (q : code_state) : In q code_states.
Proof. destruct q; simpl; tauto. Qed.

Lemma inv_all (P : inv_state -> bool) :
  forallb P inv_states = true -> forall q, P q = true.
Proof.
  intros H q. rewrite forallb_forall in H. apply H, inv_states_complete.
Qed.

Lemma code_all (P : code_state -> bool) :
  forallb P code_states = true -> forall q, P q = true.
Proof.
  intros H q. rewrite forallb_forall in H. apply H, code_states_complete.
Qed.

(** **** Lower case *)

Lemma inv_delta_lower_chars :
  forall c,
    forallb (fun q => same_outcome inv_index (inv_delta q (lower_char c))
                                   (inv_delta q c)) inv_states = true.
Proof. by_chars. Qed.

Lemma inv_delta_lower (q : inv_state) (c : ascii) :
  inv_delta q (lower_char c) = inv_delta q c.
Proof.
  apply inv_same.
  apply (inv_all _ (inv_delta_lower_chars c)).
Qed.

Lemma code_delta_lower_chars :
  forall c,
    forallb (fun q => same_outcome code_index (code_delta q (lower_char c))
                                   (code_delta q c)) code_states = true.
Proof. by_chars. Qed.

Lemma code_delta_lower (q : code_state) (c : ascii) :
  code_delta q (lower_char c) = code_delta q c.
Proof.
  apply code_same.
  apply (code_all _ (code_delta_lower_chars c)).
Qed.

Lemma code_okp_lower (c : ascii) :
  code_okp (Some (lower_char c)) = code_okp (Some c).
Proof.
  unfold code_okp. simpl. f_equal. apply eqb_prop, lower_word.
Qed.

(** **** Blanks *)

Lemma inv_delta_space_chars :
  forall c,
    implb (is_space c)
          (forallb (fun q => same_outcome inv_index (inv_delta q c)
                                          (inv_delta q (chr 32)))
                   inv_states) = true.
Proof. by_chars. Qed.

Lemma inv_delta_space (q : inv_state) (c : ascii) :
  is_space c = true -> inv_delta q c = inv_delta q (chr 32).
Proof.
  intro H. apply inv_same.
  pose proof (inv_delta_space_chars c) as K. rewrite H in K.
  apply (inv_all _ K).
Qed.

Lemma code_delta_space_chars :
  forall c,
    implb (is_space c)
          (forallb (fun q => same_outcome code_index (code_delta q c)
                                          (code_delta q (chr 32)))
                   code_states) = true.
Proof. by_chars. Qed.

Lemma code_delta_space (q : code_state) (c : ascii) :
  is_space c = true -> code_delta q c = code_delta q (chr 32).
Proof.
  intro H. apply code_same.
  pose proof (code_delta_space_chars c) as K. rewrite H in K.
  apply (code_all _ K).
Qed.

Lemma inv_delta_space_again (q q' : inv_state) :
  inv_delta q (chr 32) = Go q' -> inv_delta q' (chr 32) = Go q'.
Proof.
  intro H. destruct q; vm_compute in H; try discriminate H;
    injection H as <-; reflexivity.
Qed.

Lemma code_delta_space_again (q q' : code_state) :
  code_delta q (chr 32) = Go q' -> code_delta q' (chr 32) = Go q'.
Proof.
  intro H. destruct q; vm_compute in H; discriminate H.
Qed.

Lemma code_okp_space (c : ascii) :
  is_space c = true -> code_okp (Some c) = true.
Proof.
  intro H. unfold code_okp. simpl.
  pose proof (space_not_word c) as K. now rewrite H in K.
Qed.

Lemma code_fin_space (q : code_state) :
  code_fin q = true -> code_delta q (chr 32) = Acc.
Proof. destruct q; simpl; intro H; try discriminate H. reflexivity. Qed.

Lemma inv_fin_space (q : inv_state) :
  inv_fin q = true -> inv_delta q (chr 32) = Acc.
Proof. discriminate. Qed.

(** **** A reference character after the word *)

Lemma inv_ref_acc_chars :
  forall c,
    implb (ref_char c)
          (forallb (fun q => same_outcome inv_index (inv_delta q c) Acc)
                   [T1; T2; T4]) = true.
Proof. by_chars. Qed.

Lemma inv_ref_acc (c : ascii) :
  ref_char c = true ->
  inv_delta T1 c = Acc /\ inv_delta T2 c = Acc /\ inv_delta T4 c = Acc.
Proof.
  intro H. pose proof (inv_ref_acc_chars c) as K. rewrite H in K.
  simpl in K. rewrite !andb_true_iff in K.
  destruct K as (K1 & K2 & K3 & _).
  repeat split; now apply inv_same.
Qed.

(** *** The detectors and the substitutions of the normalizer *)

Abbreviation inv_nowhere := (nowhere inv_delta inv_fin I0 inv_okp).
Abbreviation code_nowhere := (nowhere code_delta code_fin C0 code_okp).

Lemma copy_ok_all (Q : Type) (delta : Q -> ascii -> outcome Q)
    (fin : Q -> bool) (init : Q) (okp : option ascii -> bool) (r : regex) :
  (forall p s, match_at r p s = None -> fires delta fin init okp p s = false) ->
  forall s p, copy_ok delta fin init okp r p s.
Proof.
  intro H. induction s as [|c s IH]; intro p; simpl; split; auto.
Qed.

Lemma code_copy_ok (s : str) (p : option ascii) :
  copy_ok code_delta code_fin C0 code_okp re_currency_code p s.
Proof.
  apply copy_ok_all. clear. intros p s H.
  destruct (fires code_delta code_fin C0 code_okp p s) eqn:F; [|reflexivity].
  apply code_match_iff in F. congruence.
Qed.

Lemma inv_copy_ok (s : str) (p : option ascii) :
  copy_ok inv_delta inv_fin I0 inv_okp re_invoice_number p s.
Proof.
  apply copy_ok_all. clear. intros p s H.
  destruct (fires inv_delta inv_fin I0 inv_okp p s) eqn:F; [|reflexivity].
  apply invoice_match_iff in F. congruence.
Qed.

Ltac token_inert :=
  let p := fresh "p" in
  intro p; cbn [token_ok of_string list_ascii_of_string];
  repeat split; intro; unfold fires;
  first [ apply andb_false_intro2; vm_compute; reflexivity
        | apply andb_false_intro1; vm_compute; reflexivity ].

Ltac code_token_start :=
  let q := fresh "q" in
  let H := fresh "H" in
  intros q ? ? ? ? ? ? _ H; destruct q; vm_compute in H; discriminate H.

Ltac inv_token_start S :=
  let q := fresh "q" in
  let M := fresh "M" in
  let H := fresh "H" in
  let c := fresh "c" in
  intros q ? c ? ? ? ? M H;
  apply (starts_head S) in M;
  destruct q; try (vm_compute in H; discriminate H);
  apply inv_ref_acc; exact M.

Lemma digit_ref (c : ascii) : is_digit c = true -> ref_char c = true.
Proof. intro H. pose proof (digit_is_ref c) as K. now rewrite H in K. Qed.

Lemma code_after_code (s : str) :
  code_nowhere None (sub re_currency_code (of_string "CURRENCY") s).
Proof.
  apply nowhere_sub.
  - apply (starts_no_empty starts_currency_code).
  - apply (starts_never_empty starts_currency_code).
  - code_token_start.
  - token_inert.
  - discriminate.
  - left. reflexivity.
  - reflexivity.
  - apply code_copy_ok.
Qed.

Lemma code_through_invoice (s : str) :
  code_nowhere None s ->
  code_nowhere None (sub re_invoice_number (of_string "INVOICE_NUMBER") s).
Proof.
  intro N. apply nowhere_sub.
  - apply (starts_no_empty starts_invoice_number).
  - apply (starts_never_empty starts_invoice_number).
  - code_token_start.
  - token_inert.
  - discriminate.
  - left. reflexivity.
  - reflexivity.
  - now apply nowhere_copy_ok.
Qed.

Lemma code_through_date (s : str) :
  code_nowhere None s ->
  code_nowhere None (sub re_date (of_string "DATE") s).
Proof.
  intro N. apply nowhere_sub.
  - apply (starts_no_empty starts_date).
  - apply (starts_never_empty starts_date).
  - code_token_start.
  - token_inert.
  - discriminate.
  - left. reflexivity.
  - reflexivity.
  - now apply nowhere_copy_ok.
Qed.

Lemma code_through_amount (s : str) :
  code_nowhere None s ->
  code_nowhere None (sub re_amount (of_string "AMOUNT") s).
Proof.
  intro N. apply nowhere_sub.
  - apply (starts_no_empty starts_amount).
  - apply (starts_never_empty starts_amount).
  - code_token_start.
  - token_inert.
  - discriminate.
  - left. reflexivity.
  - reflexivity.
  - now apply nowhere_copy_ok.
Qed.

Lemma starts_date_ref : starts ref_char re_date.
Proof. apply (@starts_weaken is_digit ref_char _ digit_ref starts_date). Qed.

Lemma starts_amount_ref : starts ref_char re_amount.
Proof. apply (@starts_weaken is_digit ref_char _ digit_ref starts_amount). Qed.

Lemma inv_after_invoice (s : str) :
  inv_nowhere None (sub re_invoice_number (of_string "INVOICE_NUMBER") s).
Proof.
  apply nowhere_sub.
  - apply (starts_no_empty starts_invoice_number).
  - apply (starts_never_empty starts_invoice_number).
  - inv_token_start starts_invoice_number.
  - token_inert.
  - discriminate.
  - right. reflexivity.
  - reflexivity.
  - apply inv_copy_ok.
Qed.

Lemma inv_through_date (s : str) :
  inv_nowhere None s ->
  inv_nowhere None (sub re_date (of_string "DATE") s).
Proof.
  intro N. apply nowhere_sub.
  - apply (starts_no_empty starts_date).
  - apply (starts_never_empty starts_date).
  - inv_token_start starts_date_ref.
  - token_inert.
  - discriminate.
  - right. reflexivity.
  - reflexivity.
  - now apply nowhere_copy_ok.
Qed.

Lemma inv_through_amount (s : str) :
  inv_nowhere None s ->
  inv_nowhere None (sub re_amount (of_string "AMOUNT") s).
Proof.
  intro N. apply nowhere_sub.
  - apply (starts_no_empty starts_amount).
  - apply (starts_never_empty starts_amount).
  - inv_token_start starts_amount_ref.
  - token_inert.
  - discriminate.
  - right. reflexivity.
  - reflexivity.
  - now apply nowhere_copy_ok.
Qed.

(** Stripping, the substitution of the blanks and lower case. *)

Lemma code_through_strip (s : str) :
  code_nowhere None s -> code_nowhere None (strip s).
Proof.
  intro N. unfold strip.
  destruct (rstrip_split (lstrip s)) as (sp & E & H).
  apply (@nowhere_app_spaces _ code_delta code_fin C0 code_okp eq_refl
           code_delta_space code_fin_space _ sp H).
  rewrite <- E.
  apply (@nowhere_lstrip _ code_delta code_fin C0 code_okp eq_refl
           code_okp_space).
  exact N.
Qed.

Lemma inv_through_strip (s : str) :
  inv_nowhere None s -> inv_nowhere None (strip s).
Proof.
  intro N. unfold strip.
  destruct (rstrip_split (lstrip s)) as (sp & E & H).
  apply (@nowhere_app_spaces _ inv_delta inv_fin I0 inv_okp eq_refl
           inv_delta_space inv_fin_space _ sp H).
  rewrite <- E.
  apply (@nowhere_lstrip _ inv_delta inv_fin I0 inv_okp eq_refl
           (fun c _ => eq_refl)).
  exact N.
Qed.

Lemma sub_spaces (s : str) :
  sub re_spaces (of_string " ") s = collapse false s.
Proof. apply (proj1 (sub_spaces_collapse s)). Qed.

Lemma code_through_spaces (s : str) :
  code_nowhere None s ->
  code_nowhere None (sub re_spaces (of_string " ") s).
Proof.
  intro N. rewrite sub_spaces.
  apply (@nowhere_collapse _ code_delta code_fin C0 code_okp eq_refl
           code_delta_space code_delta_space_again eq_refl code_okp_space
           s false None None N).
  auto.
Qed.

Lemma inv_through_spaces (s : str) :
  inv_nowhere None s ->
  inv_nowhere None (sub re_spaces (of_string " ") s).
Proof.
  intro N. rewrite sub_spaces.
  apply (@nowhere_collapse _ inv_delta inv_fin I0 inv_okp eq_refl
           inv_delta_space inv_delta_space_again eq_refl
           (fun c _ => eq_refl) s false None None N).
  auto.
Qed.

Lemma code_through_lower (s : str) :
  code_nowhere None s -> code_nowhere None (lower s).
Proof.
  intro N.
  apply (@nowhere_lower _ code_delta code_fin C0 code_okp eq_refl
           code_delta_lower code_okp_lower s None N).
Qed.

Lemma inv_through_lower (s : str) :
  inv_nowhere None s -> inv_nowhere None (lower s).
Proof.
  intro N.
  apply (@nowhere_lower _ inv_delta inv_fin I0 inv_okp eq_refl
           inv_delta_lower (fun _ => eq_refl) s None N).
Qed.

(** *** Classes of characters the normalizer leaves none of *)

Lemma Forall_lstrip (P : ascii -> Prop) (s : str) :
  Forall P s -> Forall P (lstrip s).
Proof.
  induction 1 as [|c s Pc Ps IH]; simpl; [constructor|].
  destruct (is_space c); [exact IH|now constructor].
Qed.

Lemma Forall_strip (P : ascii -> Prop) (s : str) :
  Forall P s -> Forall P (strip s).
Proof.
  intro H. unfold strip, rstrip.
  apply Forall_rev, Forall_lstrip, Forall_rev, Forall_lstrip, H.
Qed.

Lemma Forall_lower (X : ascii -> bool) (s : str) :
  (forall c, implb (X (lower_char c)) (X c) = true) ->
  Forall (fun c => X c = false) s ->
  Forall (fun c => X c = false) (lower s).
Proof.
  intros L. induction 1 as [|c s Pc Ps IH]; simpl; constructor; [|exact IH].
  specialize (L c). rewrite Pc in L. now destruct (X (lower_char c)).
Qed.

Lemma lower_digit_implb :
  forall c, implb (is_digit (lower_char c)) (is_digit c) = true.
Proof. by_chars. Qed.

Lemma unmatched_class (X : ascii -> bool) (r : regex) :
  starts X r ->
  forall s p, Forall (fun c => X c = false) s -> unmatched r p s.
Proof.
  intros S. induction s as [|c s IH]; intros p H.
  - split; [|exact I]. apply (starts_no_empty S).
  - inversion H as [|? ? Xc Hs]; subst. split; [|now apply IH].
    destruct (match_at r p (c :: s)) as [[n g]|] eqn:E; [|reflexivity].
    apply (starts_head S) in E. congruence.
Qed.



Lemma normalize_unfold (s : str) :
  _normalize_content_for_comparison s
  = lower (sub re_spaces (of_string " ") (strip (volatile s))).
Proof. reflexivity. Qed.



Lemma no_symbol_volatile (s : str) :
  Forall (fun c => currency_symbol c = false) (volatile s).
Proof.
  unfold volatile, sub.
  do 4 (apply Forall_sub_from; [repeat constructor|]).
  apply (@sub_from_removes currency_symbol).
  - apply (starts_never_empty starts_currency_symbol).
  - intros p c r H. now apply symbol_matches.
  - repeat constructor.
Qed.

Lemma no_digit_volatile (s : str) :
  Forall (fun c => is_digit c = false) (volatile s).
Proof.
  unfold volatile, sub.
  apply (@sub_from_removes is_digit).
  - apply (starts_never_empty starts_amount).
  - intros p c r H. now apply digit_matches.
  - repeat constructor.
Qed.

Lemma code_volatile (s : str) : code_nowhere None (volatile s).
Proof.
  unfold volatile.
  apply code_through_amount, code_through_date, code_through_invoice,
    code_after_code.
Qed.

Lemma inv_volatile (s : str) : inv_nowhere None (volatile s).
Proof.
  unfold volatile.
  apply inv_through_amount, inv_through_date, inv_after_invoice.
Qed.

(** What the normalizer returns has none of the volatile patterns. *)
Lemma normalize_plain (s : str) :
  plain (_normalize_content_for_comparison s).
Proof.
  rewrite normalize_unfold. repeat split.
  - apply (Forall_lower _ lower_symbol). unfold sub.
    apply Forall_sub_from; [repeat constructor|].
    apply Forall_strip, no_symbol_volatile.
  - apply (Forall_lower _ lower_digit_implb). unfold sub.
    apply Forall_sub_from; [repeat constructor|].
    apply Forall_strip, no_digit_volatile.
  - apply code_through_lower, code_through_spaces, code_through_strip,
      code_volatile.
  - apply inv_through_lower, inv_through_spaces, inv_through_strip,
      inv_volatile.
Qed.

(** *** Blanks and lower case, on the text itself *)

Lemma is_space_lower (c : ascii) : is_space (lower_char c) = is_space c.
Proof. apply eqb_prop, lower_space. Qed.


Lemma lstrip_lower (s : str) : lstrip (lower s) = lower (lstrip s).
Proof.
  induction s as [|c s IH]; simpl; [reflexivity|].
  rewrite is_space_lower. destruct (is_space c); [exact IH|reflexivity].
Qed.

Lemma rev_lower (s : str) : rev (lower s) = lower (rev s).
Proof. unfold lower. symmetry. apply map_rev. Qed.

Lemma rstrip_lower (s : str) : rstrip (lower s) = lower (rstrip s).
Proof.
  unfold rstrip. now rewrite rev_lower, lstrip_lower, rev_lower.
Qed.

Lemma strip_lower (s : str) : strip (lower s) = lower (strip s).
Proof. unfold strip. now rewrite lstrip_lower, rstrip_lower. Qed.

Lemma collapse_lower (s : str) :
  forall f, collapse f (lower s) = lower (collapse f s).
Proof.
  induction s as [|c s IH]; intro f; [reflexivity|].
  change (lower (c :: s)) with (lower_char c :: lower s).
  cbn [collapse]. rewrite is_space_lower.
  destruct (is_space c); [destruct f|]; rewrite IH; reflexivity.
Qed.

Lemma collapse_idempotent (s : str) :
  forall f, collapse f (collapse f s) = collapse f s.
Proof.
  induction s as [|c s IH]; intro f; [reflexivity|].
  cbn [collapse]. destruct (is_space c) eqn:Sc.
  - destruct f; [apply IH|].
    change (collapse false (chr 32 :: collapse true s))
      with (chr 32 :: collapse true (collapse true s)).
    now rewrite IH.
  - destruct f; cbn [collapse]; rewrite Sc, IH; reflexivity.
Qed.

Lemma collapse_snoc (s : str) (c : ascii) :
  is_space c = false ->
  forall f, collapse f (s ++ [c]) = collapse f s ++ [c].
Proof.
  intro Sc. induction s as [|x s IH]; intro f; cbn [collapse app].
  - now rewrite Sc.
  - destruct (is_space x); [destruct f|]; rewrite IH; reflexivity.
Qed.

Lemma collapse_no_lead (s : str) : no_lead s -> no_lead (collapse false s).
Proof.
  destruct s as [|c s]; simpl; [auto|]. intro H. now rewrite H.
Qed.

Lemma collapse_no_trail (s : str) :
  no_lead (rev s) -> no_lead (rev (collapse false s)).
Proof.
  intro H. destruct (rev s) as [|c l] eqn:E.
  - apply (f_equal (@rev ascii)) in E. rewrite rev_involutive in E.
    subst. exact I.
  - apply (f_equal (@rev ascii)) in E. rewrite rev_involutive in E.
    simpl in E. subst s. simpl in H.
    rewrite (@collapse_snoc (rev l) c H), rev_app_distr. exact H.
Qed.

Lemma strip_fixed (s : str) : no_lead s -> no_lead (rev s) -> strip s = s.
Proof.
  intros H1 H2. unfold strip. rewrite (@lstrip_fixed s H1).
  now apply rstrip_fixed.
Qed.


(** ** Claim C8: the content normalizer *)

(** The two normalizers on a line of an invoice and on a text without
    volatile patterns. *)
Example normalize_invoice_line :
  _normalize_content_for_comparison
    (of_string "  Invoice #: INV-2024-001  Total $1,200.50 usd on 01/02/2024 ")
  = of_string "invoice_number total currencyamount.amount currency on date".
Proof. vm_compute. reflexivity. Qed.

Example normalize_plain_text :
  _normalize_content_for_comparison (of_string "Office  Chairs   for the Team ")
  = of_string "office chairs for the team".
Proof. vm_compute. reflexivity. Qed.

Example master_fingerprint_invoice_line :
  Master._create_content_fingerprint
    (of_string "  Invoice #: INV-2024-001  Total $1,200.50 usd on 01/02/2024 ")
  = of_string
      "INVOICE_IDAMOUNT-AMOUNT total CURRENCYAMOUNT.AMOUNT usd on AMOUNT/AMOUNT/AMOUNT".
Proof. vm_compute. reflexivity. Qed.



(** ** Further properties of the two programs *)

Import More.

Local Close Scope Q_scope.

(** *** The similarity ratio lies between 0 and 1 *)

Import Difflib.

Lemma next_row_bounded (pop : list ascii) (x : ascii) (b : str) :
  forall prev diag m j,
    diag <= m -> diag <= j -> bounded_row m (S j) prev ->
    bounded_row (S m) (S j) (next_row pop x b prev diag).
Proof.
  induction b as [|y b IH]; intros prev diag m j Hm Hj Hp; simpl.
  - exact I.
  - split; [destruct (eqc x y && negb (mem_char y pop)); lia|].
    split; [destruct (eqc x y && negb (mem_char y pop)); lia|].
    apply IH.
    + destruct prev as [|k prev]; simpl in *; [lia|tauto].
    + destruct prev as [|k prev]; simpl in *; [lia|tauto].
    + destruct prev as [|k prev]; simpl in *; [exact I|tauto].
Qed.

Lemma next_row_length (pop : list ascii) (x : ascii) (b : str) :
  forall prev diag, length (next_row pop x b prev diag) = length b.
Proof.
  induction b as [|y b IH]; intros prev diag; simpl; [reflexivity|].
  now rewrite IH.
Qed.

Lemma scan_row_ok (la lb i : nat) (row : list nat) :
  forall j bst,
    S i <= la -> j + length row <= lb ->
    bounded_row (S i) (S j) row ->
    best_ok la lb bst -> best_ok la lb (scan_row i row j bst).
Proof.
  induction row as [|k row IH]; intros j [[bi bj] bk] Hi Hj Hr Hb; simpl.
  - exact Hb.
  - simpl in Hj, Hr. destruct Hr as (H1 & H2 & H3).
    apply IH; [lia|lia|exact H3|].
    destruct (bk <? k); [|exact Hb].
    change (S i - k + k <= la /\ S j - k + k <= lb). lia.
Qed.

Lemma scan_rows_ok (pop : list ascii) (b : str) (la : nat) (a : str) :
  forall i prev bst,
    i + length a = la -> bounded_row i 1 prev ->
    best_ok la (length b) bst ->
    best_ok la (length b) (scan_rows pop a b i prev bst).
Proof.
  induction a as [|x a IH]; intros i prev bst Hi Hp Hb; simpl.
  - exact Hb.
  - simpl in Hi. apply IH; [lia| |].
    + apply (@next_row_bounded pop x b prev 0 i 0); [lia|lia|exact Hp].
    + apply scan_row_ok; [lia|rewrite next_row_length; lia| |exact Hb].
      apply (@next_row_bounded pop x b prev 0 i 0); [lia|lia|exact Hp].
Qed.

Lemma common_prefix_le (a b : str) :
  common_prefix a b <= length a /\ common_prefix a b <= length b.
Proof.
  revert b. induction a as [|x a IH]; intros [|y b]; simpl; try lia.
  destruct (eqc x y); [|lia]. specialize (IH b). lia.
Qed.

Lemma find_longest_match_ok (pop : list ascii) (a b : str) :
  best_ok (length a) (length b) (find_longest_match pop a b).
Proof.
  unfold find_longest_match.
  pose proof (@scan_rows_ok pop b (length a) a 0 [] (0, 0, 0) eq_refl I) as H.
  destruct (scan_rows pop a b 0 [] (0, 0, 0)) as [[i j] k].
  assert (Hb : best_ok (length a) (length b) (i, j, k))
    by (apply H; unfold best_ok; lia).
  unfold best_ok in *.
  pose proof (common_prefix_le (rev (firstn i a)) (rev (firstn j b))) as L.
  pose proof (common_prefix_le (skipn (i + k) a) (skipn (j + k) b)) as R.
  rewrite !length_rev, !length_firstn in L. rewrite !length_skipn in R.
  lia.
Qed.

Lemma matches_le (pop : list ascii) (fuel : nat) :
  forall a b,
    matches fuel pop a b <= length a /\ matches fuel pop a b <= length b.
Proof.
  induction fuel as [|f IH]; intros a b; simpl; [lia|].
  pose proof (find_longest_match_ok pop a b) as H.
  destruct (find_longest_match pop a b) as [[i j] k].
  unfold best_ok in H. destruct (k =? 0); [lia|].
  pose proof (IH (firstn i a) (firstn j b)) as L.
  pose proof (IH (skipn (i + k) a) (skipn (j + k) b)) as R.
  rewrite !length_firstn in L. rewrite !length_skipn in R. lia.
Qed.

Local Open Scope Q_scope.

Lemma ratio_range (a b : str) : 0 <= ratio a b <= 1.
Proof.
  unfold ratio. destruct ((length a + length b =? 0)%nat) eqn:E; [lra|].
  apply Nat.eqb_neq in E.
  pose proof (matches_le (popular b) (S (length a)) a b) as [Ha Hb].
  set (m := matches (S (length a)) (popular b) a b) in *.
  assert (P : 0 < inject_Z (Z.of_nat (length a + length b))).
  { change 0 with (inject_Z 0). rewrite <- Zlt_Qlt. lia. }
  split.
  - apply Qle_shift_div_l; [exact P|].
    rewrite Qmult_0_l. apply Qmult_le_0_compat; [lra|].
    change 0 with (inject_Z 0). rewrite <- Zle_Qle. lia.
  - apply Qle_shift_div_r; [exact P|]. rewrite Qmult_1_l.
    change 2 with (inject_Z 2). rewrite <- inject_Z_mult, <- Zle_Qle. lia.
Qed.

Local Close Scope Q_scope.

(** *** The detailed comparison, within bounds *)

Local Open Scope Q_scope.

Lemma total_range (l : list Q) :
  Forall (fun v => 0 <= v <= 1) l ->
  0 <= total l <= inject_Z (Z.of_nat (length l)).
Proof.
  induction 1 as [|v l Hv Hl IH]; simpl.
  - unfold inject_Z. lra.
  - rewrite Zpos_P_of_succ_nat, <- Z.add_1_r, inject_Z_plus.
    unfold inject_Z at 2. lra.
Qed.

Lemma pairwise_average_range (items1 items2 : list str) :
  items1 <> [] -> items2 <> [] ->
  0 <= pairwise_average items1 items2 <= 1.
Proof.
  intros H1 H2. unfold pairwise_average.
  set (l := map _ (list_prod items1 items2)).
  assert (L : length (list_prod items1 items2) = length l)
    by (unfold l; now rewrite length_map).
  rewrite L.
  assert (P : 0 < inject_Z (Z.of_nat (length l))).
  { rewrite <- L, length_prod. change 0 with (inject_Z 0).
    rewrite <- Zlt_Qlt.
    destruct items1; [congruence|]. destruct items2; [congruence|].
    simpl. lia. }
  assert (R : 0 <= total l <= inject_Z (Z.of_nat (length l))).
  { apply total_range. unfold l. apply Forall_map, Forall_forall.
    intros p _. apply ratio_range. }
  split.
  - apply Qle_shift_div_l; [exact P|]. lra.
  - apply Qle_shift_div_r; [exact P|]. lra.
Qed.

Lemma compare_line_items_range (items1 items2 : list str) :
  0 <= _compare_line_items items1 items2 <= 1.
Proof.
  destruct items1 as [|x l1]; [unfold _compare_line_items; simpl; lra|].
  destruct items2 as [|y l2]; [unfold _compare_line_items; simpl; lra|].
  rewrite compare_line_items_average by discriminate.
  apply pairwise_average_range; discriminate.
Qed.

Lemma compare_line_items_empty (items1 items2 : list str) :
  items1 = [] \/ items2 = [] -> _compare_line_items items1 items2 = 0.
Proof.
  unfold _compare_line_items.
  intros [-> | ->]; [reflexivity|]. simpl. now rewrite orb_true_r.
Qed.

(** The four parts of the overall similarity. *)
Lemma overall_similarity_parts (i1 i2 : RegionalInvoice) :
  overall_similarity (_compare_invoices_detailed i1 i2)
  == (3 # 10) * Difflib.ratio (normalized_content (fingerprint i1))
                              (normalized_content (fingerprint i2))
     + (3 # 10) * po_indicator i1 i2
     + (25 # 100) * address_score i1 i2
     + (45 # 100) * _compare_line_items (line_items (fingerprint i1))
                                        (line_items (fingerprint i2)).
Proof.
  unfold _compare_invoices_detailed, po_indicator, address_score.
  cbn [overall_similarity].
  unfold po_reference_weight, delivery_address_weight, line_items_weight.
  ring.
Qed.

Lemma po_indicator_range (i1 i2 : RegionalInvoice) :
  0 <= po_indicator i1 i2 <= 1.
Proof. unfold po_indicator. destruct (_ && _); lra. Qed.

Lemma address_score_range (i1 i2 : RegionalInvoice) :
  0 <= address_score i1 i2 <= 1.
Proof.
  unfold address_score. destruct (_ && _); [apply ratio_range|lra].
Qed.

Lemma address_score_empty (i1 i2 : RegionalInvoice) :
  delivery_address (fingerprint i1) = []
  \/ delivery_address (fingerprint i2) = [] ->
  address_score i1 i2 = 0.
Proof.
  unfold address_score. intros [-> | ->]; simpl; [reflexivity|].
  now rewrite andb_false_r.
Qed.

(** X1.  The overall similarity of two invoices lies between 0 and 1.30,
    and the similarity of their line items between 0 and 1. *)
Theorem overall_similarity_range (i1 i2 : RegionalInvoice) :
  0 <= overall_similarity (_compare_invoices_detailed i1 i2) <= 130 # 100
  /\ 0 <= _compare_line_items (line_items (fingerprint i1))
                              (line_items (fingerprint i2)) <= 1.
Proof.
  pose proof (ratio_range (normalized_content (fingerprint i1))
                          (normalized_content (fingerprint i2))) as A.
  pose proof (po_indicator_range i1 i2) as B.
  pose proof (address_score_range i1 i2) as C.
  pose proof (compare_line_items_range (line_items (fingerprint i1))
                                       (line_items (fingerprint i2))) as D.
  split; [|exact D].
  rewrite overall_similarity_parts. lra.
Qed.

(** X2.  Two invoices of which one has no delivery address and one has no
    line item are no match, whatever else they share: their overall
    similarity is at most 0.60, below the threshold of 0.85. *)
Theorem no_match_without_address_and_items (i1 i2 : RegionalInvoice) :
  delivery_address (fingerprint i1) = []
  \/ delivery_address (fingerprint i2) = [] ->
  line_items (fingerprint i1) = [] \/ line_items (fingerprint i2) = [] ->
  overall_similarity (_compare_invoices_detailed i1 i2) <= 6 # 10
  /\ is_match i1 i2 = false.
Proof.
  intros Ha Hl.
  pose proof (ratio_range (normalized_content (fingerprint i1))
                          (normalized_content (fingerprint i2))) as A.
  pose proof (po_indicator_range i1 i2) as B.
  assert (L : overall_similarity (_compare_invoices_detailed i1 i2)
              <= 6 # 10).
  { rewrite overall_similarity_parts, (address_score_empty _ _ Ha),
      (compare_line_items_empty Hl). lra. }
  split; [exact L|].
  unfold is_match. apply gtb_false_iff. lra.
Qed.

Lemma no_match_without_address_and_items_witness :
  overall_similarity
    (_compare_invoices_detailed (zero_invoice "USA") (zero_invoice "Germany"))
  <= 6 # 10
  /\ is_match (zero_invoice "USA") (zero_invoice "Germany") = false.
Proof.
  apply no_match_without_address_and_items; left; reflexivity.
Defined.

(** *** Alerts *)

Lemma largest_of_matches (cur : RegionalInvoice) (ms : list RegionalInvoice) :
  ms <> [] -> Forall (fun m => is_match cur m = true) ms ->
  85 # 100
  < largest (map (fun m => overall_similarity
                             (_compare_invoices_detailed cur m)) ms).
Proof.
  intros Hne Hall. apply largest_above.
  - destruct ms; [congruence|discriminate].
  - apply Forall_map. revert Hall. apply Forall_impl.
    intros m H. now apply gtb_iff.
Qed.

Lemma multiplier_one (n : nat) :
  (1 <= n)%nat ->
  1 <= Qmin (15 # 10) (1 + (2 # 10) * (inject_Z (Z.of_nat n) - 1)).
Proof.
  intro H. apply Q.min_glb; [lra|].
  assert (1 <= inject_Z (Z.of_nat n)).
  { change 1 with (inject_Z 1). rewrite <- Zle_Qle. lia. }
  lra.
Qed.

Lemma aggregate_of_matches (cur : RegionalInvoice)
    (ms : list RegionalInvoice) :
  ms <> [] -> Forall (fun m => is_match cur m = true) ms ->
  85 # 100 < aggregate_spec cur ms <= 99 # 100
  /\ ((2 <= length ms)%nat -> aggregate_spec cur ms == 99 # 100).
Proof.
  intros Hne Hall.
  pose proof (@largest_of_matches cur ms Hne Hall) as HL.
  destruct ms as [|m ms']; [congruence|]. set (ms := m :: ms') in *.
  unfold aggregate_spec. fold ms.
  change (match ms with [] => 0 | _ :: _ => ?x end) with x.
  set (L := largest _) in *.
  pose proof (count_nonneg (flagged_currency cur) ms) as C1.
  pose proof (count_nonneg (flagged_timing cur) ms) as C2.
  set (c1 := count (flagged_currency cur) ms) in *.
  set (c2 := count (flagged_timing cur) ms) in *.
  assert (M1 : 1 <= Qmin (15 # 10)
                      (1 + (2 # 10) * (inject_Z (Z.of_nat (length ms)) - 1)))
    by (apply multiplier_one; simpl; lia).
  set (M := Qmin (15 # 10) _) in *.
  split.
  - split; [|apply clamp_range].
    unfold clamp. apply Q.max_lt_iff. right. apply Q.min_glb_lt; [lra|]. nra.
  - intro H2. apply clamp_above.
    destruct (multiplier_two (n := length ms) H2) as [_ M2]. fold M in M2.
    nra.
Qed.

Lemma filter_all (A : Type) (f : A -> bool) (l : list A) :
  Forall (fun x => f x = true) (filter f l).
Proof.
  apply Forall_forall. intros x H. now apply filter_In in H.
Qed.

Lemma action_above (c : Q) :
  85 # 100 < c ->
  (_generate_action_recommendation c = IMMEDIATE_ACTION
   \/ _generate_action_recommendation c = HIGH_PRIORITY)
  /\ (90 # 100 < c -> _generate_action_recommendation c = IMMEDIATE_ACTION).
Proof.
  intro H. unfold _generate_action_recommendation.
  destruct (gtb c (90 # 100)) eqn:G1.
  - split; auto.
  - apply gtb_false_iff in G1.
    assert (G2 : gtb c (85 # 100) = true) by now apply gtb_iff.
    rewrite G2. split; [auto|]. intro. lra.
Qed.

(** What the detector returns, by the matches among the candidates. *)
Lemma alert_iff_some_candidate_shape (now later : Z)
    (db : list RegionalInvoice) (d : InvoiceData) :
  let cur := _create_regional_invoice now d in
  let cands := _search_cross_regional_duplicates db cur in
  (filter (is_match cur) cands = [] ->
   detect_multi_regional_fraud now later db d = Some (None, db ++ [cur]))
  /\ (filter (is_match cur) cands <> [] ->
      exists c,
        detect_multi_regional_fraud now later db d
        = Some (Some (_generate_fraud_alert later cur cands
                        (_analyze_content_similarity cur cands) c
                        (_calculate_potential_loss cur cands)), db)
        /\ 85 # 100 < c <= 99 # 100
        /\ ((2 <= length (filter (is_match cur) cands))%nat ->
            c == 99 # 100)).
Proof.
  intros cur cands.
  destruct (confidence_meets_spec cur cands) as (c & E & S).
  split.
  - intro H. rewrite H in S. simpl in S.
    unfold detect_multi_regional_fraud. fold cur. fold cands. rewrite E.
    assert (G : gtb c (75 # 100) = false) by (apply gtb_false_iff; lra).
    now rewrite G.
  - intro H.
    destruct (@aggregate_of_matches cur _ H (filter_all _ _))
      as [[A1 A2] A3].
    assert (G : gtb c (75 # 100) = true) by (apply gtb_iff; lra).
    unfold detect_multi_regional_fraud. fold cur. fold cands. rewrite E, G.
    exists c. split; [reflexivity|]. split; [lra|].
    intro H2. specialize (A3 H2). lra.
Qed.

(** X3.  The detector returns an alert exactly when some candidate of the
    search is a match (detailed similarity above 0.85): the threshold of
    0.75 on the confidence never decides.  The confidence of an alert is
    above 0.85 and at most 0.99, its recommended action is the immediate
    action or the high priority, never the enhanced review or the
    monitoring; with two matches or more the confidence is 0.99 and the
    action the immediate one. *)
Theorem alert_iff_some_candidate_matches (now later : Z)
    (db : list RegionalInvoice) (d : InvoiceData) :
  let cur := _create_regional_invoice now d in
  let ms := filter (is_match cur) (_search_cross_regional_duplicates db cur) in
  (ms = [] ->
   detect_multi_regional_fraud now later db d = Some (None, db ++ [cur]))
  /\ (ms <> [] ->
      exists alert,
        detect_multi_regional_fraud now later db d = Some (Some alert, db)
        /\ 85 # 100 < confidence_score alert <= 99 # 100
        /\ (recommended_action alert = IMMEDIATE_ACTION
            \/ recommended_action alert = HIGH_PRIORITY)
        /\ ((2 <= length ms)%nat ->
            confidence_score alert == 99 # 100
            /\ recommended_action alert = IMMEDIATE_ACTION)).
Proof.
  intros cur ms.
  destruct (alert_iff_some_candidate_shape now later db d) as [S1 S2].
  fold cur in S1, S2. fold ms in S1, S2.
  split; [exact S1|].
  intro H. destruct (S2 H) as (c & E & [A1 A2] & A3).
  eexists. split; [exact E|].
  cbn [confidence_score recommended_action _generate_fraud_alert].
  split; [lra|].
  destruct (action_above (c := c)) as [B1 B2]; [lra|].
  split; [exact B1|].
  intro H2. specialize (A3 H2). split; [lra|]. apply B2. lra.
Qed.

(** *** The regions of an alert *)

Lemma search_other_region (cur : RegionalInvoice)
    (db : list RegionalInvoice) (ex : RegionalInvoice) :
  In ex (_search_cross_regional_duplicates db cur) ->
  In ex db /\ in_window cur ex /\ region ex <> region cur
  /\ _quick_similarity_check cur ex = true.
Proof.
  unfold _search_cross_regional_duplicates. rewrite search_database_filter.
  intro H. apply filter_In in H. destruct H as [H Q].
  apply filter_In in H. destruct H as [H W].
  apply andb_true_iff in W. destruct W as [W R].
  repeat split; [exact H| | |exact Q].
  - unfold in_windowb in W. unfold in_window. now apply Z.leb_le.
  - unfold other_regionb in R. intro E. apply eqs_iff in E.
    rewrite E in R. discriminate.
Qed.

Lemma two_distinct (A : Type) (l : list A) (a b : A) :
  NoDup l -> In a l -> In b l -> a <> b -> (2 <= length l)%nat.
Proof.
  intros N Ha Hb D. destruct l as [|x [|y l]]; simpl in *.
  - tauto.
  - destruct Ha as [<-|[]], Hb as [<-|[]]. congruence.
  - lia.
Qed.

(** X4.  Every invoice listed in an alert beside the submitted one is of
    another region than the submitted one and at most 72 hours from it; the
    alert names the region of the submitted invoice, names no region twice
    and names two regions at least. *)
Theorem alert_spans_regions (now later : Z) (db db' : list RegionalInvoice)
    (d : InvoiceData) (alert : FraudAlert) :
  detect_multi_regional_fraud now later db d = Some (Some alert, db') ->
  In (region (_create_regional_invoice now d)) (affected_regions alert)
  /\ NoDup (affected_regions alert)
  /\ (2 <= length (affected_regions alert))%nat
  /\ (forall r, In r (affected_regions alert) <->
                exists i, In i (duplicate_invoices alert) /\ region i = r)
  /\ (forall i, In i (tl (duplicate_invoices alert)) ->
                In i db
                /\ region i <> region (_create_regional_invoice now d)
                /\ in_window (_create_regional_invoice now d) i).
Proof.
  intro H.
  pose proof (alert_iff_some_candidate_shape now later db d) as S.
  cbv zeta in S.
  set (cur := _create_regional_invoice now d) in *.
  set (cands := _search_cross_regional_duplicates db cur) in *.
  destruct S as [S1 S2].
  destruct (filter (is_match cur) cands) as [|m ms] eqn:F.
  { rewrite (S1 eq_refl) in H. discriminate. }
  destruct S2 as (c & S2 & _); [discriminate|]. rewrite S2 in H.
  injection H as <- _.
  cbn [affected_regions duplicate_invoices _generate_fraud_alert tl].
  assert (Hm : In m cands).
  { assert (I : In m (filter (is_match cur) cands)) by (rewrite F; now left).
    now apply filter_In in I. }
  unfold list_set.
  assert (R : forall r, In r (nodup str_eq_dec (region cur :: map region cands))
                        <-> exists i, In i (cur :: cands) /\ region i = r).
  { intro r. rewrite nodup_In. change (region cur :: map region cands)
      with (map region (cur :: cands)). rewrite in_map_iff.
    split; intros (i & A & B); exists i; auto. }
  split; [apply R; exists cur; split; [now left|reflexivity]|].
  split; [apply NoDup_nodup|].
  split.
  - apply (@two_distinct _ _ (region cur) (region m)).
    + apply NoDup_nodup.
    + apply R. exists cur. split; [now left|reflexivity].
    + apply R. exists m. split; [now right|reflexivity].
    + apply search_other_region in Hm. intro E. destruct Hm as (_ & _ & N & _).
      congruence.
  - split; [exact R|].
    intros i Hi. apply search_other_region in Hi. tauto.
Qed.

Lemma alert_spans_regions_witness :
  exists alert,
    detect_multi_regional_fraud 7200 7200
      [_create_regional_invoice 0 de_1] us_1
    = Some (Some alert, [_create_regional_invoice 0 de_1])
    /\ (2 <= length (affected_regions alert))%nat.
Proof.
  assert (E : exists alert,
             detect_multi_regional_fraud 7200 7200
               [_create_regional_invoice 0 de_1] us_1
             = Some (Some alert, [_create_regional_invoice 0 de_1])).
  { eexists. vm_compute. reflexivity. }
  destruct E as [alert E]. exists alert. split; [exact E|].
  exact (proj1 (proj2 (proj2 (alert_spans_regions _ _ _ _ E)))).
Defined.

(** *** Submissions that raise no alert *)

(** X5.  A submission is stored without alert, whatever its content, when
    every stored invoice is of its own region or more than 72 hours from
    it: a copy sent again to the same office is not flagged, nor is the
    first invoice of an empty database. *)
Theorem no_alert_without_other_region (now later : Z)
    (db : list RegionalInvoice) (d : InvoiceData) :
  (forall ex, In ex db ->
     region ex = get_or (d_region d) []
     \/ (72 * 3600 < Z.abs (now - submission_timestamp ex))%Z) ->
  _search_cross_regional_duplicates db (_create_regional_invoice now d) = []
  /\ detect_multi_regional_fraud now later db d
     = Some (None, db ++ [_create_regional_invoice now d]).
Proof.
  intro H.
  assert (E : _search_cross_regional_duplicates db
                (_create_regional_invoice now d) = []).
  { unfold _search_cross_regional_duplicates. rewrite search_database_filter.
    set (cur := _create_regional_invoice now d).
    replace (filter (fun ex => in_windowb cur ex && other_regionb cur ex) db)
      with (@nil RegionalInvoice); [reflexivity|].
    symmetry. clear - H. induction db as [|ex db IH]; [reflexivity|].
    simpl. rewrite <- IH by (intros; apply H; now right).
    destruct (H ex (or_introl eq_refl)) as [R|W].
    - unfold other_regionb. subst cur. cbn [region _create_regional_invoice].
      rewrite R. rewrite (proj2 (eqs_iff _ _) eq_refl).
      now rewrite andb_false_r.
    - unfold in_windowb. subst cur.
      cbn [submission_timestamp _create_regional_invoice].
      replace (Z.abs (now - submission_timestamp ex) <=? 72 * 3600)%Z
        with false; [reflexivity|].
      symmetry. apply Z.leb_gt. exact W. }
  split; [exact E|].
  apply (proj1 (alert_iff_some_candidate_shape now later db d)).
  rewrite E. reflexivity.
Qed.

Lemma no_alert_without_other_region_witness :
  detect_multi_regional_fraud 3600 3600 [_create_regional_invoice 0 de_1] de_1
  = Some (None, [_create_regional_invoice 0 de_1;
                 _create_regional_invoice 3600 de_1]).
Proof.
  apply (no_alert_without_other_region 3600 3600
           [_create_regional_invoice 0 de_1] de_1).
  intros ex [<-|[]]. left. reflexivity.
Defined.

(** *** The timing of the candidates *)

Lemma hours_diff_le (i1 i2 : RegionalInvoice) (h : Z) :
  hours_diff i1 i2 < inject_Z h
  <-> (Z.abs (submission_timestamp i1 - submission_timestamp i2)
       < h * 3600)%Z.
Proof.
  unfold hours_diff.
  set (dt := Z.abs (submission_timestamp i1 - submission_timestamp i2)).
  split; intro H.
  - assert (K : inject_Z dt < inject_Z h * 3600).
    { assert (F : inject_Z dt == inject_Z dt / 3600 * 3600) by field.
      rewrite F. lra. }
    change 3600 with (inject_Z 3600) in K.
    rewrite <- inject_Z_mult, <- Zlt_Qlt in K. exact K.
  - apply Qlt_shift_div_r; [reflexivity|].
    change 3600 with (inject_Z 3600).
    now rewrite <- inject_Z_mult, <- Zlt_Qlt.
Qed.

(** X6.  A candidate of the search lies at most 72 hours from the submitted
    invoice, and its timing is flagged suspicious unless it lies exactly 72
    hours from it: the search keeps the boundary, the flag does not.  A pair
    of sequential order (less than 24 hours apart) is always flagged. *)
Theorem candidate_timing (db : list RegionalInvoice)
    (cur ex : RegionalInvoice) :
  In ex (_search_cross_regional_duplicates db cur) ->
  hours_diff cur ex <= 72
  /\ (suspicious_timing (_analyze_submission_timing cur ex) = false
      <-> Z.abs (submission_timestamp cur - submission_timestamp ex)
          = (72 * 3600)%Z)
  /\ (submission_order (_analyze_submission_timing cur ex)
      = of_string "sequential" ->
      suspicious_timing (_analyze_submission_timing cur ex) = true).
Proof.
  intro H. apply search_other_region in H. destruct H as (_ & W & _).
  unfold in_window in W.
  cbn [suspicious_timing submission_order _analyze_submission_timing].
  unfold time_window_hours.
  pose proof (hours_diff_le cur ex 72) as L72.
  pose proof (hours_diff_le cur ex 24) as L24.
  change (inject_Z 24) with 24 in L24.
  split; [|split].
  - destruct (Qlt_le_dec 72 (hours_diff cur ex)) as [G|G]; [|exact G].
    exfalso. unfold hours_diff in G.
    set (dt := Z.abs (submission_timestamp cur - submission_timestamp ex))
      in *.
    assert (K : 72 * 3600 < inject_Z dt).
    { assert (F : inject_Z dt == inject_Z dt / 3600 * 3600) by field.
      rewrite F. lra. }
    change (72 * 3600) with (inject_Z (72 * 3600)) in K.
    rewrite <- Zlt_Qlt in K. lia.
  - split; intro K.
    + destruct (ltb (hours_diff cur ex) (inject_Z 72)) eqn:B;
        [discriminate|].
      assert (N : ~ hours_diff cur ex < inject_Z 72).
      { intro X. apply ltb_iff in X. congruence. }
      rewrite L72 in N. lia.
    + destruct (ltb (hours_diff cur ex) (inject_Z 72)) eqn:B; [|reflexivity].
      apply ltb_iff in B. rewrite L72 in B. lia.
  - destruct (ltb (hours_diff cur ex) 24) eqn:B; [|discriminate].
    intros _. apply ltb_iff in B. apply ltb_iff.
    change (inject_Z 72) with 72. lra.
Qed.

Lemma candidate_timing_witness :
  hours_diff (_create_regional_invoice 7200 us_1)
             (_create_regional_invoice 0 de_1) <= 72.
Proof.
  apply (candidate_timing [_create_regional_invoice 0 de_1]
           (_create_regional_invoice 7200 us_1)
           (_create_regional_invoice 0 de_1)).
  vm_compute. left. reflexivity.
Defined.

(** *** The currency flag *)


(** *** A run of the detector *)


(** *** What the two normalizers return *)

Local Close Scope Q_scope.

Lemma collapse_blanks (s : str) :
  forall f, Forall (fun c => is_space c = true -> c = chr 32) (collapse f s).
Proof.
  induction s as [|c s IH]; intro f; cbn [collapse]; [constructor|].
  destruct (is_space c) eqn:Sc.
  - destruct f; [apply IH|]. constructor; [reflexivity|apply IH].
  - constructor; [congruence|apply IH].
Qed.

Lemma lower_blanks (s : str) :
  Forall (fun c => is_space c = true -> c = chr 32) s ->
  Forall (fun c => is_space c = true -> c = chr 32) (lower s).
Proof.
  induction 1 as [|c s H Hs IH]; simpl; constructor; [|exact IH].
  rewrite is_space_lower. intro Sc. rewrite (H Sc). reflexivity.
Qed.

Lemma lower_no_upper (s : str) :
  Forall (fun c => is_upper c = false) (lower s).
Proof.
  induction s as [|c s IH]; simpl; constructor; [|exact IH].
  pose proof (lower_not_upper c) as H. now destruct (is_upper (lower_char c)).
Qed.

(** X9.  The normalized content of the detector holds no digit, no
    currency symbol of its class and no capital letter; it neither begins
    nor ends with a blank, and each of its blanks is a single space between
    two other characters. *)
Theorem normalized_content_shape (x : str) :
  let y := _normalize_content_for_comparison x in
  Forall (fun c => is_digit c = false) y
  /\ Forall (fun c => Detector.currency_symbol c = false) y
  /\ Forall (fun c => is_upper c = false) y
  /\ Forall (fun c => is_space c = true -> c = chr 32) y
  /\ strip y = y
  /\ collapse false y = y.
Proof.
  intro y. destruct (normalize_plain x) as (A & B & _). fold y in A, B.
  split; [exact B|]. split; [exact A|].
  subst y. rewrite normalize_unfold, sub_spaces.
  destruct (strip_no_lead (volatile x)) as [H1 H2].
  split; [apply lower_no_upper|].
  split; [apply lower_blanks, collapse_blanks|].
  split.
  - rewrite strip_lower. f_equal. apply strip_fixed.
    + now apply collapse_no_lead.
    + now apply collapse_no_trail.
  - now rewrite collapse_lower, collapse_idempotent.
Qed.

(** The steps of the fingerprint of the master system before its
    substitution of the dates. *)
Lemma master_before_dates (x : str) :
  Forall (fun c => is_digit c = false)
    (sub Master.re_invoice_id (of_string "INVOICE_ID")
       (sub re_amount (of_string "AMOUNT")
          (sub (Chr Master.currency_symbol) (of_string "CURRENCY")
             (lower x)))).
Proof.
  unfold sub. apply Forall_sub_from; [repeat constructor|].
  apply (@sub_from_removes is_digit).
  - apply (starts_never_empty starts_amount).
  - intros p c r H. now apply digit_matches.
  - repeat constructor.
Qed.

Lemma master_symbol_matches (p : option ascii) (c : ascii) (s : str) :
  Master.currency_symbol c = true ->
  match_at (Chr Master.currency_symbol) p (c :: s) <> None.
Proof.
  intro H. unfold match_at. simpl. rewrite H. discriminate.
Qed.

(** X10.  In the fingerprint of the master system the substitution of the
    dates never applies: the digits are gone, replaced by the place holder
    of the amounts, before it runs, so that the fingerprint is that of the
    other steps alone.  The fingerprint holds no digit and no currency
    symbol of its class, begins and ends with no blank and has single
    spaces for blanks; two texts that differ in the case of their letters
    only have the same fingerprint. *)
Theorem master_fingerprint_shape (x : str) :
  let y := Master._create_content_fingerprint x in
  y = sub re_spaces (of_string " ")
        (strip (sub Master.re_invoice_id (of_string "INVOICE_ID")
                  (sub re_amount (of_string "AMOUNT")
                     (sub (Chr Master.currency_symbol) (of_string "CURRENCY")
                        (lower x)))))
  /\ Forall (fun c => is_digit c = false) y
  /\ Forall (fun c => Master.currency_symbol c = false) y
  /\ Forall (fun c => is_space c = true -> c = chr 32) y
  /\ strip y = y
  /\ collapse false y = y
  /\ (forall x', lower x' = lower x ->
                 Master._create_content_fingerprint x' = y).
Proof.
  intro y.
  pose proof (master_before_dates x) as D.
  set (v := sub Master.re_invoice_id _ _) in *.
  assert (E : y = sub re_spaces (of_string " ") (strip v)).
  { subst y. unfold Master._create_content_fingerprint. fold v.
    unfold sub at 2.
    rewrite (@sub_unmatched re_date _ v None); [reflexivity|].
    apply (unmatched_class starts_date). exact D. }
  split; [exact E|]. rewrite E, sub_spaces.
  destruct (strip_no_lead v) as [H1 H2].
  split; [|split; [|split; [|split; [|split]]]].
  - rewrite <- sub_spaces. unfold sub.
    apply Forall_sub_from; [repeat constructor|]. now apply Forall_strip.
  - rewrite <- sub_spaces. unfold sub.
    apply Forall_sub_from; [repeat constructor|]. apply Forall_strip.
    subst v. unfold sub.
    do 2 (apply Forall_sub_from; [repeat constructor|]).
    apply (@sub_from_removes Master.currency_symbol).
    + apply (starts_never_empty (@starts_chr Master.currency_symbol)).
    + intros p c r H. now apply master_symbol_matches.
    + repeat constructor.
  - apply collapse_blanks.
  - apply strip_fixed; [now apply collapse_no_lead|now apply collapse_no_trail].
  - apply collapse_idempotent.
  - intros x' Hx. rewrite <- sub_spaces, <- E. subst y.
    unfold Master._create_content_fingerprint. now rewrite Hx.
Qed.

(** *** The master pipeline: dictionaries and the largest value *)

Local Open Scope Q_scope.

Lemma lookup_in (V : Type) (d : Dict.dict V) (key : str) :
  In key (Dict.keys d) -> exists v, Pipeline.lookup d key = Some v.
Proof.
  induction d as [|[k v] d IH]; simpl; [tauto|].
  intros [<-|H].
  - exists v. now rewrite (proj2 (eqs_iff k k) eq_refl).
  - destruct (eqs k key); [now exists v|]. now apply IH.
Qed.

Lemma lookup_get (V : Type) (d : Dict.dict V) (key : str) (v dflt : V) :
  Pipeline.lookup d key = Some v -> Dict.get d key dflt = v.
Proof.
  induction d as [|[k w] d IH]; simpl; [discriminate|].
  destruct (eqs k key); [now intros [= ->]|exact IH].
Qed.

Lemma lookup_value (V : Type) (d : Dict.dict V) (key : str) (v : V) :
  Pipeline.lookup d key = Some v -> In (key, v) d.
Proof.
  induction d as [|[k w] d IH]; simpl; [discriminate|].
  destruct (eqs k key) eqn:E.
  - intros [= ->]. apply eqs_iff in E. subst. now left.
  - intro H. right. now apply IH.
Qed.

(** The key that [max] returns is a key of the dictionary, and its value
    is the largest. *)
Lemma max_key_from_spec (d : Dict.dict Q) (best : str) (bv : Q) :
  exists v,
    In (Pipeline.max_key_from ltb d best bv, v) ((best, bv) :: d)
    /\ Forall (fun e => snd e <= v) ((best, bv) :: d).
Proof.
  revert best bv. induction d as [|[k w] d IH]; intros best bv; simpl.
  - exists bv. split; [now left|]. constructor; [simpl; lra|constructor].
  - destruct (ltb bv w) eqn:L.
    + apply ltb_iff in L. destruct (IH k w) as (v & I & F).
      exists v. split; [now right|].
      inversion F as [|? ? Fk Fd]; subst. simpl in Fk.
      constructor; [simpl; lra|]. constructor; assumption.
    + assert (L' : w <= bv).
      { destruct (Qlt_le_dec bv w) as [X|X]; [|exact X].
        apply ltb_iff in X. congruence. }
      destruct (IH best bv) as (v & I & F).
      exists v. split.
      * destruct I as [I|I]; [now left|now right; right].
      * inversion F as [|? ? Fk Fd]; subst. simpl in Fk.
        constructor; [exact Fk|]. constructor; [simpl; lra|exact Fd].
Qed.

Lemma max_key_from_first (d : Dict.dict Q) (best : str) (bv : Q) :
  Forall (fun e => snd e <= bv) d ->
  Pipeline.max_key_from ltb d best bv = best.
Proof.
  induction 1 as [|[k w] d H Hd IH]; simpl; [reflexivity|].
  simpl in H. destruct (ltb bv w) eqn:L; [|exact IH].
  apply ltb_iff in L. lra.
Qed.

Lemma max_key_from_in (V : Type) (lt : V -> V -> bool) (d : Dict.dict V)
    (best : str) (bv : V) :
  Pipeline.max_key_from lt d best bv = best
  \/ In (Pipeline.max_key_from lt d best bv) (Dict.keys d).
Proof.
  revert best bv. induction d as [|[k w] d IH]; intros best bv; simpl.
  - now left.
  - destruct (lt bv w).
    + destruct (IH k w) as [->|H]; [right; now left|right; now right].
    + destruct (IH best bv) as [->|H]; [now left|right; now right].
Qed.

Lemma max_key_in (V : Type) (lt : V -> V -> bool) (d : Dict.dict V)
    (dflt : str) :
  d <> [] -> In (Pipeline.max_key lt d dflt) (Dict.keys d).
Proof.
  destruct d as [|[k v] d]; [congruence|]. intros _. simpl.
  destruct (max_key_from_in lt d k v) as [->|H]; [now left|now right].
Qed.

Lemma nodup_keys_value (V : Type) (d : Dict.dict V) (key : str) (v : V) :
  NoDup (Dict.keys d) -> In (key, v) d -> Pipeline.lookup d key = Some v.
Proof.
  induction d as [|[k w] d IH]; simpl; [tauto|].
  intros N [E|H].
  - injection E as -> ->. now rewrite (proj2 (eqs_iff key key) eq_refl).
  - inversion N as [|? ? Nk Nd]; subst.
    destruct (eqs k key) eqn:E.
    + apply eqs_iff in E. subst. exfalso. apply Nk.
      change key with (fst (key, v)). now apply in_map.
    + now apply IH.
Qed.

(** The largest value of a dictionary of distinct keys. *)
Lemma max_key_spec (d : Dict.dict Q) (dflt : str) :
  d <> [] -> NoDup (Dict.keys d) ->
  exists v,
    Pipeline.lookup d (Pipeline.max_key ltb d dflt) = Some v
    /\ Forall (fun e => snd e <= v) d.
Proof.
  destruct d as [|[k w] d]; [congruence|]. intros _ N.
  destruct (max_key_from_spec d k w) as (v & I & F).
  exists v. split; [|exact F].
  now apply nodup_keys_value.
Qed.

(** *** The geographic routing *)

Lemma region_scores_shape (ls : Dict.dict nat) (dc : option str)
    (lo : Dict.dict nat) :
  fold_left
    (fun scores '(region, config) =>
       Dict.set scores region (Pipeline.region_score ls dc lo region config))
    Pipeline.regional_centers []
  = map (fun '(region, config) =>
           (region, Pipeline.region_score ls dc lo region config))
        Pipeline.regional_centers.
Proof. reflexivity. Qed.

Lemma region_score_values (ls : Dict.dict nat) (dc : option str)
    (lo : Dict.dict nat) (region : str) (config : Pipeline.Center) :
  let s := Pipeline.region_score ls dc lo region config in
  (s == 0 \/ s == 3 # 10 \/ s == 4 # 10 \/ s == 6 # 10 \/ s == 7 # 10
   \/ s == 1)
  /\ ((0 <? Dict.get ls (Pipeline.center_language config) O)%nat = false ->
      s <= 6 # 10).
Proof.
  unfold Pipeline.region_score.
  destruct (0 <? Dict.get ls _ O)%nat, (Pipeline.opt_eqs dc _),
    (0 <? Dict.get lo region O)%nat; cbv zeta; split;
    try (intro; discriminate); try (intros _; lra).
  all: try (left; reflexivity).
  all: try (right; left; reflexivity).
  all: try (right; right; left; reflexivity).
  all: try (right; right; right; left; reflexivity).
  all: try (right; right; right; right; left; reflexivity).
  all: try (right; right; right; right; right; reflexivity).
Qed.

(** No language is named [Hindi/English]: the language of the centre of
    India never scores. *)
Lemma language_of_india (text : str) :
  Dict.get (Pipeline.indicator_scores Pipeline.language_indicators text)
           (of_string "Hindi/English") O = O.
Proof.
  unfold Pipeline.indicator_scores, Pipeline.language_indicators.
  cbn [fold_left].
  repeat match goal with
         | |- context [(0 <? ?s)%nat] => destruct (0 <? s)%nat
         end; reflexivity.
Qed.

Lemma detect_currency_in (ps : Dict.dict (list regex)) (text : str)
    (c : str) :
  Pipeline.detect_currency ps text = Some c -> In c (Dict.keys ps).
Proof.
  induction ps as [|[k v] ps IH]; simpl; [discriminate|].
  destruct (existsb _ v); [intros [= ->]; now left|].
  intro H. right. now apply IH.
Qed.

Lemma routing_defined (d : Master.InvoiceData) :
  exists r, Pipeline._geographic_routing_analysis d = Some r.
Proof.
  unfold Pipeline._geographic_routing_analysis.
  rewrite region_scores_shape.
  match goal with
  | |- context [Pipeline.lookup Pipeline.regional_centers ?b] =>
      assert (Hb : In b (Dict.keys Pipeline.regional_centers));
      [|destruct (lookup_in _ _ Hb) as (p & ->); eexists; reflexivity]
  end.
  match goal with
  | |- In (Pipeline.max_key ltb ?rs _) _ =>
      change (Dict.keys Pipeline.regional_centers) with (Dict.keys rs)
  end.
  apply max_key_in. discriminate.
Qed.

(** X11.  The geographic routing raises no [KeyError]: the region it
    returns is one of the six regional centres, with the pipeline of that
    centre.  Its confidence is 0, 0.3, 0.4, 0.6, 0.7 or 1; a confidence of
    0, when nothing in the text speaks for a region, goes with Germany, the
    first centre, not with the fall-back USA of the code; India, whose
    language the language table does not hold, never has a confidence above
    0.6. *)
Theorem routing_is_total (d : Master.InvoiceData) :
  exists r,
    Pipeline._geographic_routing_analysis d = Some r
    /\ In (Pipeline.geo_region r) (Dict.keys Pipeline.regional_centers)
    /\ Pipeline.lookup Pipeline.regional_centers (Pipeline.geo_region r)
       = Some (Pipeline.processing_pipeline r)
    /\ (Pipeline.geo_confidence r == 0 \/ Pipeline.geo_confidence r == 3 # 10
        \/ Pipeline.geo_confidence r == 4 # 10
        \/ Pipeline.geo_confidence r == 6 # 10
        \/ Pipeline.geo_confidence r == 7 # 10
        \/ Pipeline.geo_confidence r == 1)
    /\ (Pipeline.geo_confidence r == 0 ->
        Pipeline.geo_region r = of_string "Germany")
    /\ (Pipeline.geo_region r = of_string "India" ->
        Pipeline.geo_confidence r <= 6 # 10)
    /\ In (Pipeline.detected_currency r) (Dict.keys Pipeline.currency_patterns).
Proof.
  unfold Pipeline._geographic_routing_analysis.
  set (text := get_or (Master.d_invoice_text d) []).
  set (ls := Pipeline.indicator_scores Pipeline.language_indicators text).
  set (dc := Pipeline.detect_currency Pipeline.currency_patterns text).
  set (lo := Pipeline.indicator_scores Pipeline.location_indicators text).
  rewrite region_scores_shape.
  set (f := fun '(region, config) =>
              (region, Pipeline.region_score ls dc lo region config)).
  set (rs := map f Pipeline.regional_centers).
  set (best := Pipeline.max_key ltb rs (of_string "USA")).
  assert (K : Dict.keys rs = Dict.keys Pipeline.regional_centers)
    by reflexivity.
  assert (N : NoDup (Dict.keys rs)).
  { rewrite K. repeat constructor; simpl; intuition discriminate. }
  assert (Hb : In best (Dict.keys Pipeline.regional_centers)).
  { rewrite <- K. apply max_key_in. discriminate. }
  destruct (@max_key_spec rs (of_string "USA")) as (v & Lv & Fv);
    [discriminate|exact N|]. fold best in Lv.
  rewrite (lookup_get _ _ (1 # 2) Lv).
  destruct (lookup_in _ _ Hb) as (pipeline & Lp). rewrite Lp.
  eexists. split; [reflexivity|].
  cbn [Pipeline.geo_region Pipeline.geo_confidence
       Pipeline.processing_pipeline Pipeline.detected_currency].
  split; [exact Hb|]. split; [exact Lp|].
  apply lookup_value in Lv.
  assert (Hv : exists region config,
             In (region, config) Pipeline.regional_centers
             /\ best = region
             /\ v = Pipeline.region_score ls dc lo region config).
  { unfold rs in Lv. apply in_map_iff in Lv.
    destruct Lv as ([region config] & E & I). simpl in E.
    injection E as E1 E2. exists region, config. auto. }
  destruct Hv as (region & config & Hin & Hr & Hv).
  split; [rewrite Hv; apply region_score_values|].
  split; [|split].
  - intro Z. unfold best, rs. cbn [map Pipeline.regional_centers f].
    cbn [Pipeline.max_key]. apply max_key_from_first.
    revert Fv. unfold rs. cbn [map Pipeline.regional_centers f].
    intro Fv. inversion Fv as [|? ? F0 Fd]; subst.
    match goal with
    | |- Forall (fun e => snd e <= ?s) _ =>
        assert (G : 0 <= s)
          by (destruct (region_score_values ls dc lo (of_string "Germany")
                          (Pipeline.center "EUR" "CET" "German"))
                as [[G|[G|[G|[G|[G|G]]]]] _]; rewrite G; lra)
    end.
    clear - Fd Z G.
    revert Fd. apply Forall_impl. intros [k w] Hw. cbn [snd] in *.
    lra.
  - intro E. rewrite Hv.
    apply region_score_values.
    assert (Er : region = of_string "India") by congruence.
    rewrite Er in Hin. clear - Hin. simpl in Hin.
    repeat (destruct Hin as [Hin|Hin];
            [try discriminate Hin; inversion Hin; subst config|]);
      try contradiction.
    apply Nat.ltb_ge. unfold ls.
    match goal with
    | |- (Dict.get _ ?l _ <= 0)%nat =>
        replace l with (of_string "Hindi/English") by reflexivity
    end.
    rewrite language_of_india. lia.
  - unfold dc. destruct (Pipeline.detect_currency _ text) as [c|] eqn:E.
    + now apply detect_currency_in in E.
    + simpl. now left.
Qed.

(** *** The currency standardization *)

Lemma digit_val_nonneg (c : ascii) : is_digit c = true -> (0 <= digit_val c)%Z.
Proof.
  unfold is_digit, in_range, digit_val. intro H.
  apply andb_true_iff in H. destruct H as [H _].
  apply N.leb_le in H. lia.
Qed.

Lemma digits_val_nonneg (ds : str) :
  forallb is_digit ds = true -> (0 <= digits_val ds)%Z.
Proof.
  unfold digits_val.
  assert (G : forall acc, (0 <= acc)%Z -> forallb is_digit ds = true ->
                (0 <= fold_left (fun acc c => 10 * acc + digit_val c) ds acc)%Z).
  { induction ds as [|c ds IH]; intros acc Ha H; cbn [fold_left];
      [exact Ha|].
    simpl in H. apply andb_true_iff in H. destruct H as [Hc Hs].
    apply IH; [|exact Hs]. pose proof (digit_val_nonneg c Hc). lia. }
  apply G. lia.
Qed.

Lemma parse_float_nonneg (s : str) (q : Q) :
  parse_float s = Some q -> 0 <= q.
Proof.
  unfold parse_float. destruct (split_point s) as [i f].
  destruct (forallb is_digit i && forallb is_digit _ && negb _) eqn:E;
    [|discriminate].
  intros [= <-]. apply andb_true_iff in E. destruct E as [E _].
  apply andb_true_iff in E. destruct E as [E1 E2].
  unfold Qle. simpl. rewrite Z.mul_1_r.
  apply digits_val_nonneg. rewrite forallb_app. now rewrite E1, E2.
Qed.

Lemma py_max_nonneg (l : list Q) (v : Q) :
  Forall (fun a => 0 <= a) l -> py_max l = Some v -> 0 <= v.
Proof.
  destruct l as [|a l]; [discriminate|]. intros F [= <-].
  inversion F; subst. now apply fold_pmax_forall.
Qed.

Lemma amounts_in_nonneg (ps : list regex) (text : str) :
  Forall (fun a => 0 <= a) (Pipeline.amounts_in ps text).
Proof.
  unfold Pipeline.amounts_in. apply Forall_forall. intros a H.
  apply in_flat_map in H. destruct H as (p & _ & H).
  apply in_flat_map in H. destruct H as (m & _ & H).
  destruct (parse_float _) as [q|] eqn:E; [|contradiction].
  destruct H as [<-|[]]. now apply parse_float_nonneg in E.
Qed.

Lemma dict_set_keys (V : Type) (d : Dict.dict V) (key : str) (v : V) :
  (In key (Dict.keys d) /\ Dict.keys (Dict.set d key v) = Dict.keys d)
  \/ (~ In key (Dict.keys d)
      /\ Dict.keys (Dict.set d key v) = Dict.keys d ++ [key]).
Proof.
  induction d as [|[k w] d IH]; simpl.
  - right. split; [tauto|reflexivity].
  - destruct (eqs k key) eqn:E.
    + apply eqs_iff in E. subst. left. split; [now left|reflexivity].
    + destruct IH as [[I K]|[I K]].
      * left. split; [now right|]. simpl. now rewrite K.
      * right. split.
        -- intros [X|X]; [|tauto]. subst.
           rewrite (proj2 (eqs_iff key key) eq_refl) in E. discriminate.
        -- simpl. now rewrite K.
Qed.

Lemma dict_set_nodup (V : Type) (d : Dict.dict V) (key : str) (v : V) :
  NoDup (Dict.keys d) -> NoDup (Dict.keys (Dict.set d key v)).
Proof.
  intro N. destruct (dict_set_keys d key v) as [[_ ->]|[I ->]]; [exact N|].
  apply NoDup_app; [exact N|repeat constructor; tauto|].
  intros x Hx [<-|[]]. tauto.
Qed.

(** What the loop over the currencies keeps of its dictionary. *)
Lemma detect_amounts_spec (text : str) (table : Dict.dict (list regex)) :
  forall acc,
    NoDup (Dict.keys acc) ->
    Forall (fun a => 0 <= a) (Dict.values acc) ->
    let d :=
      fold_left
        (fun detected_amounts '(currency, patterns) =>
           match py_max (Pipeline.amounts_in patterns text) with
           | Some largest => Dict.set detected_amounts currency largest
           | None => detected_amounts
           end) table acc in
    NoDup (Dict.keys d)
    /\ Forall (fun a => 0 <= a) (Dict.values d)
    /\ incl (Dict.keys d) (Dict.keys acc ++ Dict.keys table).
Proof.
  induction table as [|[c ps] table IH]; intros acc N F; simpl.
  - repeat split; [exact N|exact F|]. rewrite app_nil_r. apply incl_refl.
  - destruct (py_max (Pipeline.amounts_in ps text)) as [v|] eqn:E.
    + destruct (IH (Dict.set acc c v)) as (A & B & C).
      * now apply dict_set_nodup.
      * apply dict_set_values; [exact F|].
        apply (py_max_nonneg (amounts_in_nonneg ps text) E).
      * repeat split; [exact A|exact B|].
        intros x Hx. apply C in Hx. apply in_app_iff in Hx.
        apply in_app_iff. destruct Hx as [Hx|Hx]; [|right; now right].
        destruct (dict_set_keys acc c v) as [[_ K]|[_ K]];
          rewrite K in Hx; [now left|].
        apply in_app_iff in Hx. destruct Hx as [Hx|[<-|[]]];
          [now left|right; now left].
    + destruct (IH acc N F) as (A & B & C).
      repeat split; [exact A|exact B|].
      intros x Hx. apply C in Hx. apply in_app_iff in Hx.
      apply in_app_iff. destruct Hx as [Hx|Hx]; [now left|right; now right].
Qed.

Lemma round_half_even_nonneg (x : Q) : 0 <= x -> (0 <= round_half_even x)%Z.
Proof.
  intro H. unfold round_half_even.
  assert (F : (0 <= Qfloor x)%Z).
  { change 0%Z with (Qfloor 0). now apply Qfloor_resp_le. }
  destruct (Qcompare _ _); [destruct (Z.even _)|..]; lia.
Qed.

Lemma round2_nonneg (x : Q) : 0 <= x -> 0 <= round2 x.
Proof.
  intro H. unfold round2, Qle. simpl. rewrite Z.mul_1_r.
  apply round_half_even_nonneg. nra.
Qed.

Lemma master_rate_positive (key : str) :
  0 < Dict.get Pipeline.currency_rates_to_usd key 1.
Proof.
  unfold Pipeline.currency_rates_to_usd. cbn [Dict.get].
  repeat match goal with
         | |- context [eqs ?a key] => destruct (eqs a key)
         end; reflexivity.
Qed.

(** The two ways the currency standardization ends. *)
Lemma currency_analysis_cases (d : Master.InvoiceData) :
  let amounts :=
    Pipeline.detect_amounts (get_or (Master.d_invoice_text d) []) in
  (amounts = []
   /\ Pipeline._currency_standardization_analysis d
      = Some {| Pipeline.conversion_performed := false;
                Pipeline.original_currency := of_string "USD";
                Pipeline.original_amount := 0;
                Pipeline.usd_amount := 0;
                Pipeline.exchange_rate := 1;
                Pipeline.cur_confidence := 0 |})
  \/ (amounts <> []
      /\ exists primary v,
           In primary (Dict.keys Pipeline.currency_patterns)
           /\ 0 <= v
           /\ Pipeline._currency_standardization_analysis d
              = Some {| Pipeline.conversion_performed :=
                          negb (eqs primary (of_string "USD"));
                        Pipeline.original_currency := primary;
                        Pipeline.original_amount := v;
                        Pipeline.usd_amount :=
                          round2 (if eqs primary (of_string "USD") then v
                                  else v * Dict.get
                                             Pipeline.currency_rates_to_usd
                                             primary 1);
                        Pipeline.exchange_rate :=
                          if eqs primary (of_string "USD") then 1
                          else Dict.get Pipeline.currency_rates_to_usd
                                        primary 1;
                        Pipeline.cur_confidence := 9 # 10 |}).
Proof.
  intro amounts. subst amounts.
  unfold Pipeline._currency_standardization_analysis.
  set (text := get_or (Master.d_invoice_text d) []).
  destruct (@detect_amounts_spec text Pipeline.currency_patterns [])
    as (N & F & I); [constructor|constructor|].
  fold (Pipeline.detect_amounts text) in N, F, I.
  destruct (Pipeline.detect_amounts text) as [|e da] eqn:D.
  - left. split; reflexivity.
  - right. split; [discriminate|].
    set (dd := e :: da) in *.
    set (primary := Pipeline.max_key ltb dd []).
    destruct (@max_key_spec dd []) as (v & Lv & _);
      [discriminate|exact N|]. fold primary in Lv. rewrite Lv.
    exists primary, v.
    split; [apply I; apply max_key_in; discriminate|].
    split.
    + apply lookup_value in Lv. rewrite Forall_forall in F. apply F.
      change v with (snd (primary, v)). now apply in_map.
    + destruct (eqs primary (of_string "USD")); reflexivity.
Qed.

Lemma currency_defined (d : Master.InvoiceData) :
  exists r, Pipeline._currency_standardization_analysis d = Some r
            /\ 0 <= Pipeline.usd_amount r.
Proof.
  destruct (currency_analysis_cases d)
    as [(_ & E)|(_ & primary & v & _ & Hv & E)]; rewrite E;
    eexists; (split; [reflexivity|]); cbn [Pipeline.usd_amount]; [lra|].
  apply round2_nonneg. destruct (eqs primary _); [exact Hv|].
  pose proof (master_rate_positive primary). nra.
Qed.


(** *** The vendor verification *)

Lemma check_variations_spec (name : str) (vs : list str) (risk : str)
    (v : Pipeline.verdict) :
  Pipeline.check_variations name vs risk v = v
  \/ exists s, Pipeline.check_variations name vs risk v
               = (of_string "LEGITIMATE", s, risk)
               /\ 85 # 100 < s <= 1.
Proof.
  induction vs as [|x vs IH]; simpl; [now left|].
  destruct (gtb (Difflib.ratio (lower name) (lower x)) (85 # 100)) eqn:G.
  - right. eexists. split; [reflexivity|].
    apply gtb_iff in G. split; [exact G|apply ratio_range].
  - exact IH.
Qed.

Lemma check_vendors_spec (name : str) :
  Pipeline.check_vendors name (of_string "UNKNOWN", 1 # 2, of_string "MEDIUM")
  = (of_string "UNKNOWN", 1 # 2, of_string "MEDIUM")
  \/ exists s,
       Pipeline.check_vendors name
         (of_string "UNKNOWN", 1 # 2, of_string "MEDIUM")
       = (of_string "LEGITIMATE", s, of_string "LOW")
       /\ 85 # 100 < s <= 1.
Proof.
  unfold Pipeline.check_vendors, Pipeline.legitimate_vendors.
  cbn [fold_left Pipeline.variations Pipeline.vendor_risk_level].
  repeat match goal with
         | |- context [Pipeline.check_variations name ?vs ?risk ?v] =>
             let s := fresh "s" in
             let E := fresh "E" in
             let R := fresh "R" in
             destruct (check_variations_spec name vs risk v)
               as [E|(s & E & R)];
             rewrite E; clear E
         end;
    first [ now left | right; eexists; split; [reflexivity|assumption] ].
Qed.

(** The three verdicts. *)
Lemma vendor_cases (d : Master.InvoiceData) :
  let r := Pipeline._vendor_verification_analysis d in
  (Pipeline.legitimacy_status r = of_string "UNKNOWN"
   /\ Pipeline.ven_confidence r = 1 # 2
   /\ Pipeline.risk_level r = of_string "MEDIUM"
   /\ Pipeline.fraud_indicators r = [])
  \/ (Pipeline.legitimacy_status r = of_string "LEGITIMATE"
      /\ 85 # 100 < Pipeline.ven_confidence r <= 1
      /\ Pipeline.risk_level r = of_string "LOW"
      /\ Pipeline.fraud_indicators r = [])
  \/ (Pipeline.legitimacy_status r = of_string "FRAUDULENT"
      /\ Pipeline.ven_confidence r = 95 # 100
      /\ Pipeline.risk_level r = of_string "CRITICAL"
      /\ length (Pipeline.fraud_indicators r) = 1%nat).
Proof.
  intro r. subst r. unfold Pipeline._vendor_verification_analysis.
  set (name := first_match vendor_patterns _).
  destruct (truthy name); cbn [negb].
  - destruct (existsb _ Pipeline.fraud_patterns).
    + destruct (Pipeline.check_vendors name _) as [[s c] k].
      right. right. repeat split.
    + destruct (check_vendors_spec name) as [E|(s & E & R)]; rewrite E.
      * left. repeat split.
      * right. left. repeat split; apply R.
  - left. repeat split.
Qed.

(** X13.  The vendor verification returns one of three verdicts.  Unknown:
    confidence 0.5, risk MEDIUM, no indicator.  Legitimate: a confidence
    above 0.85 and at most 1, the similarity to a known name; risk LOW; no
    indicator.  Fraudulent: confidence 0.95, risk CRITICAL, one indicator;
    this is the verdict whenever a misspelling is found in the name, also
    for a name similar to a known one.  So a risk CRITICAL always comes
    with the verdict fraudulent.  The name reported is never empty. *)
Theorem vendor_verdicts (d : Master.InvoiceData) :
  let r := Pipeline._vendor_verification_analysis d in
  ((Pipeline.legitimacy_status r = of_string "UNKNOWN"
    /\ Pipeline.ven_confidence r = 1 # 2
    /\ Pipeline.risk_level r = of_string "MEDIUM"
    /\ Pipeline.fraud_indicators r = [])
   \/ (Pipeline.legitimacy_status r = of_string "LEGITIMATE"
       /\ 85 # 100 < Pipeline.ven_confidence r <= 1
       /\ Pipeline.risk_level r = of_string "LOW"
       /\ Pipeline.fraud_indicators r = [])
   \/ (Pipeline.legitimacy_status r = of_string "FRAUDULENT"
       /\ Pipeline.ven_confidence r = 95 # 100
       /\ Pipeline.risk_level r = of_string "CRITICAL"
       /\ length (Pipeline.fraud_indicators r) = 1%nat))
  /\ (existsb (fun pattern =>
                 Pipeline.is_some
                   (search pattern (Pipeline.ven_vendor_name r)))
              Pipeline.fraud_patterns = true ->
      Pipeline.legitimacy_status r = of_string "FRAUDULENT")
  /\ Pipeline.ven_vendor_name r <> [].
Proof.
  intro r. split; [apply vendor_cases|]. subst r.
  unfold Pipeline._vendor_verification_analysis.
  set (name := first_match vendor_patterns _).
  destruct (truthy name) eqn:T; cbn [negb].
  - apply truthy_iff in T.
    destruct (Pipeline.check_vendors name _) as [[s c] k].
    destruct (existsb (fun pattern => Pipeline.is_some (search pattern name))
                      Pipeline.fraud_patterns) eqn:F;
      cbn [Pipeline.legitimacy_status Pipeline.ven_vendor_name].
    + split; [reflexivity|exact T].
    + split; [|exact T]. rewrite F. discriminate.
  - cbn [Pipeline.legitimacy_status Pipeline.ven_vendor_name].
    split; [|discriminate]. vm_compute. discriminate.
Qed.

(** *** The final decision *)

(** X14.  The final decision has a confidence between 0.1 and 0.99.  It
    blocks for fraud risk exactly when fraud was detected with a confidence
    above 0.85, and then with a confidence of its own of at most 0.9; a
    block for a fraudulent vendor has a confidence of at most 0.5; an
    approval has a confidence above 0.8 and insufficient data one of at
    most 0.6. *)
Theorem final_decision_consistent (g : Pipeline.GeographicResult)
    (c : Pipeline.CurrencyResult) (v : Pipeline.VendorResult)
    (f : Master.FraudResult) :
  let dec := Pipeline._make_final_decision g c v f in
  1 # 10 <= Pipeline.dec_confidence dec <= 99 # 100
  /\ (Pipeline.recommendation dec = Pipeline.BLOCK_FRAUD_RISK
      <-> Master.fraud_detected f = true /\ 85 # 100 < Master.confidence f)
  /\ (Master.fraud_detected f = true -> Pipeline.dec_confidence dec <= 9 # 10)
  /\ (Pipeline.recommendation dec = Pipeline.BLOCK_FRAUDULENT_VENDOR ->
      Pipeline.legitimacy_status v = of_string "FRAUDULENT"
      /\ Pipeline.dec_confidence dec <= 5 # 10)
  /\ (Pipeline.recommendation dec = Pipeline.APPROVE ->
      8 # 10 < Pipeline.dec_confidence dec
      /\ Pipeline.legitimacy_status v <> of_string "FRAUDULENT"
      /\ Pipeline.risk_level v <> of_string "CRITICAL")
  /\ (Pipeline.recommendation dec = Pipeline.INSUFFICIENT_DATA ->
      Pipeline.dec_confidence dec <= 6 # 10).
Proof.
  intro dec. subst dec. unfold Pipeline._make_final_decision.
  assert (NL : Pipeline.legitimacy_status v = of_string "LEGITIMATE" ->
               eqs (Pipeline.legitimacy_status v) (of_string "FRAUDULENT")
               = false) by (intros ->; reflexivity).
  destruct (eqs (Pipeline.legitimacy_status v) (of_string "LEGITIMATE"))
    eqn:L;
    [apply eqs_iff in L; rewrite (NL L)|];
    (destruct (eqs (Pipeline.legitimacy_status v) (of_string "FRAUDULENT"))
       eqn:Fr; [try discriminate (NL L)|]);
    clear NL;
    destruct (eqs (Pipeline.risk_level v) (of_string "CRITICAL")) eqn:Cr;
    (destruct (gtb (Pipeline.geo_confidence g) (8 # 10));
     [|destruct (gtb (Pipeline.geo_confidence g) (5 # 10))]);
    destruct (gtb (Pipeline.cur_confidence c) (8 # 10));
    (destruct (Master.fraud_detected f);
     [destruct (gtb (Master.confidence f) (9 # 10)) eqn:G9;
      destruct (gtb (Master.confidence f) (85 # 100)) eqn:G85|]);
    cbn [app fold_left andb Pipeline.recommendation Pipeline.dec_confidence];
    try (apply gtb_iff in G9); try (apply gtb_false_iff in G9);
    try (apply gtb_iff in G85); try (apply gtb_false_iff in G85);
    try (exfalso; lra);
    match goal with
    | |- context [pmax (1 # 10) (pmin (99 # 100) ?b)] =>
        let x := eval vm_compute in (pmax (1 # 10) (pmin (99 # 100) b)) in
        change (pmax (1 # 10) (pmin (99 # 100) b)) with x;
        let r8 := eval vm_compute in (gtb x (8 # 10)) in
        change (gtb x (8 # 10)) with r8;
        let r6 := eval vm_compute in (gtb x (6 # 10)) in
        change (gtb x (6 # 10)) with r6
    end;
    cbv iota;
    try (apply eqs_iff in Fr);
    (split; [split; (unfold Qle; simpl; lia)|]);
    (split; [split; [discriminate || (intros _; split; [reflexivity|lra])
                    |reflexivity || (intros [X Y]; try discriminate X; lra)]|]);
    (split; [discriminate || (intros _; unfold Qle; simpl; lia)|]);
    (split; [discriminate
             || (intros _; split;
                 [assumption|unfold Qle; simpl; lia])|]);
    (split; [discriminate
             || (intros _; split; [unfold Qlt; simpl; lia|];
                 split; [congruence || (intro X; apply eqs_iff in X;
                                        congruence)
                        |intro X; apply eqs_iff in X; congruence])|]);
    (discriminate || (intros _; unfold Qle; simpl; lia)).
Qed.

(** *** The fraud analysis of the master system *)

Lemma scan_database_spec (now : Z) (region fp : str)
    (db : list Master.Entry) (dup : Master.Duplicate) :
  In dup (Master.scan_database now region fp db)
  <-> exists e,
        In e db
        /\ Master.e_region e <> region
        /\ Master.time_diff now (Master.e_timestamp e) <= 72
        /\ 85 # 100 < Difflib.ratio fp (Master.e_content_fingerprint e)
        /\ dup = {| Master.dup_invoice_id := Master.e_invoice_id e;
                    Master.dup_region := Master.e_region e;
                    Master.dup_similarity :=
                      Difflib.ratio fp (Master.e_content_fingerprint e);
                    Master.dup_amount_usd := Master.e_usd_amount e;
                    Master.dup_time_diff_hours :=
                      Master.time_diff now (Master.e_timestamp e) |}.
Proof.
  induction db as [|x db IH]; simpl.
  - split; [tauto|]. intros (e & [] & _).
  - destruct (eqs (Master.e_region x) region) eqn:R.
    { apply eqs_iff in R. rewrite IH. split.
      - intros (e & I & H). exists e. split; [now right|exact H].
      - intros (e & [<-|I] & N & H); [congruence|].
        exists e. split; [exact I|]. split; assumption. }
    assert (R' : Master.e_region x <> region).
    { intro X. apply eqs_iff in X. congruence. }
    destruct (gtb (Master.time_diff now (Master.e_timestamp x))
                  Master.time_window_hours) eqn:W.
    { apply gtb_iff in W. unfold Master.time_window_hours in W.
      rewrite IH. split.
      - intros (e & I & H). exists e. split; [now right|exact H].
      - intros (e & [<-|I] & N & T & H); [lra|].
        exists e. tauto. }
    apply gtb_false_iff in W. unfold Master.time_window_hours in W.
    destruct (gtb (Difflib.ratio fp (Master.e_content_fingerprint x))
                  Master.similarity_threshold) eqn:S.
    + apply gtb_iff in S. unfold Master.similarity_threshold in S.
      simpl. rewrite IH. split.
      * intros [<-|(e & I & H)].
        -- exists x. repeat split; auto.
        -- exists e. split; [now right|exact H].
      * intros (e & [<-|I] & N & T & Q & ->); [now left|].
        right. exists e. tauto.
    + apply gtb_false_iff in S. unfold Master.similarity_threshold in S.
      rewrite IH. split.
      * intros (e & I & H). exists e. split; [now right|exact H].
      * intros (e & [<-|I] & N & T & Q & H); [lra|].
        exists e. tauto.
Qed.

Lemma scan_database_length (now : Z) (region fp : str)
    (db : list Master.Entry) :
  (length (Master.scan_database now region fp db) <= length db)%nat.
Proof.
  induction db as [|x db IH]; simpl; [lia|].
  destruct (eqs _ region); [lia|]. destruct (gtb _ _); [lia|].
  destruct (gtb _ _); simpl; lia.
Qed.

(** X15.  The fraud analysis of the master system reports fraud exactly
    when the database holds an entry of another region, written at most 72
    hours before or after, whose fingerprint is similar to that of the text
    by more than 0.85.  Then its confidence is above 0.85 and at most 1,
    and it counts two regions at least; otherwise its confidence and its
    loss are 0 and it counts one region.  The duplicates it lists are
    entries of other regions only. *)
Theorem master_fraud_characterised (now : Z) (db : list Master.Entry)
    (d : Master.InvoiceData) (usd : Q) :
  let r := fst (Master._multi_regional_fraud_analysis now db d usd) in
  let region := get_or (Master.d_region d) (of_string "Unknown") in
  let fp := Master._create_content_fingerprint
              (get_or (Master.d_invoice_text d) []) in
  (Master.fraud_detected r = true
   <-> exists e,
         In e db /\ Master.e_region e <> region
         /\ Master.time_diff now (Master.e_timestamp e) <= 72
         /\ 85 # 100 < Difflib.ratio fp (Master.e_content_fingerprint e))
  /\ (Master.fraud_detected r = true ->
      85 # 100 < Master.confidence r <= 1
      /\ (2 <= Master.regions_affected r)%nat
      /\ Master.potential_duplicates r <> [])
  /\ (Master.fraud_detected r = false ->
      Master.confidence r = 0 /\ Master.potential_loss_usd r = 0
      /\ Master.regions_affected r = 1%nat
      /\ Master.potential_duplicates r = [])
  /\ Forall (fun dup => Master.dup_region dup <> region
                        /\ 85 # 100 < Master.dup_similarity dup <= 1
                        /\ Master.dup_time_diff_hours dup <= 72)
            (Master.potential_duplicates r)
  /\ (length (Master.potential_duplicates r) <= length db)%nat.
Proof.
  intros r region fp. subst r.
  unfold Master._multi_regional_fraud_analysis. fold region. fold fp.
  cbn [fst].
  pose proof (scan_database_spec now region fp db) as S.
  pose proof (scan_database_length now region fp db) as Len.
  assert (A : Forall (fun dup => Master.dup_region dup <> region
                        /\ 85 # 100 < Master.dup_similarity dup <= 1
                        /\ Master.dup_time_diff_hours dup <= 72)
                (Master.scan_database now region fp db)).
  { apply Forall_forall. intros dup H. apply S in H.
    destruct H as (e & _ & N & T & Q & ->). simpl.
    repeat split; try assumption. apply ratio_range. }
  destruct (Master.scan_database now region fp db) as [|dup rest] eqn:E.
  - cbn [Master.fraud_detected Master.confidence Master.regions_affected
         Master.potential_duplicates Master.potential_loss_usd].
    split; [split; [discriminate|]|].
    { intros (e & I & N & T & Q).
      assert (X : In {| Master.dup_invoice_id := Master.e_invoice_id e;
                        Master.dup_region := Master.e_region e;
                        Master.dup_similarity :=
                          Difflib.ratio fp (Master.e_content_fingerprint e);
                        Master.dup_amount_usd := Master.e_usd_amount e;
                        Master.dup_time_diff_hours :=
                          Master.time_diff now (Master.e_timestamp e) |} [])
        by (apply S; exists e; repeat split; assumption).
      destruct X. }
    split; [discriminate|]. split; [auto|]. split; [constructor|simpl; lia].
  - cbn [Master.fraud_detected Master.confidence Master.regions_affected
         Master.potential_duplicates Master.potential_loss_usd].
    split; [split; [intros _|reflexivity]|].
    { assert (X : In dup (dup :: rest)) by now left.
      apply S in X. destruct X as (e & I & N & T & Q & _).
      exists e. repeat split; assumption. }
    split; [intros _|].
    { split; [|split; [|discriminate]].
      - inversion A as [|? ? A0 A1]; subst.
        apply (@fold_pmax_forall (fun v => 85 # 100 < v <= 1)).
        + apply A0.
        + apply Forall_map. revert A1. apply Forall_impl. tauto.
      - assert (N : list_set (map Master.dup_region (dup :: rest)) <> []).
        { intro X.
          assert (I : In (Master.dup_region dup)
                         (list_set (map Master.dup_region (dup :: rest)))).
          { unfold list_set. apply nodup_In. now left. }
          rewrite X in I. destruct I. }
        destruct (list_set _); [congruence|simpl; lia]. }
    split; [discriminate|]. split; [exact A|exact Len].
Qed.

(** *** The whole pipeline *)

Lemma sum_nonneg (l : list Q) (acc : Q) :
  0 <= acc -> Forall (fun a => 0 <= a) l -> 0 <= fold_left Qplus l acc.
Proof.
  revert acc. induction l as [|a l IH]; intros acc Ha G.
  - exact Ha.
  - inversion G; subst. simpl. apply IH; [lra|assumption].
Qed.

Lemma master_analysis_facts (now : Z) (db : list Master.Entry)
    (d : Master.InvoiceData) (usd : Q) :
  let r := fst (Master._multi_regional_fraud_analysis now db d usd) in
  (Master.fraud_detected r = true ->
   85 # 100 < Master.confidence r
   /\ (1 <= length (Master.potential_duplicates r))%nat)
  /\ (Forall (fun e => 0 <= Master.e_usd_amount e) db ->
      0 <= Master.potential_loss_usd r)
  /\ exists entry,
       snd (Master._multi_regional_fraud_analysis now db d usd)
       = db ++ [entry]
       /\ Master.e_usd_amount entry = usd
       /\ Master.e_timestamp entry = now.
Proof.
  intro r. subst r. unfold Master._multi_regional_fraud_analysis.
  cbn [fst snd].
  set (region := get_or (Master.d_region d) (of_string "Unknown")).
  set (fp := Master._create_content_fingerprint _).
  pose proof (scan_database_spec now region fp db) as S.
  destruct (Master.scan_database now region fp db) as [|dup rest] eqn:E;
    cbn [Master.fraud_detected Master.confidence
         Master.potential_duplicates Master.potential_loss_usd].
  - split; [discriminate|]. split; [intros _; lra|].
    eexists. split; [reflexivity|]. split; reflexivity.
  - split; [intros _; split; [|simpl; lia]|].
    + apply (@fold_pmax_forall (fun v => 85 # 100 < v)).
      * assert (X : In dup (dup :: rest)) by now left.
        apply S in X. destruct X as (e & _ & _ & _ & Q & ->). exact Q.
      * apply Forall_map, Forall_forall. intros x Hx.
        assert (X : In x (dup :: rest)) by now right.
        apply S in X. destruct X as (e & _ & _ & _ & Q & ->). exact Q.
    + split.
      * intro F.
        assert (G : Forall (fun a => 0 <= a)
                      (map Master.dup_amount_usd (dup :: rest))).
        { apply Forall_map, Forall_forall. intros x Hx.
          apply S in Hx. destruct Hx as (e & I & _ & _ & _ & ->). simpl.
          rewrite Forall_forall in F. now apply F. }
        apply sum_nonneg; [lra|exact G].
      * eexists. split; [reflexivity|]. split; reflexivity.
Qed.

Lemma decision_blocks (g : Pipeline.GeographicResult)
    (c : Pipeline.CurrencyResult) (v : Pipeline.VendorResult)
    (f : Master.FraudResult) :
  let dec := Pipeline._make_final_decision g c v f in
  1 # 10 <= Pipeline.dec_confidence dec <= 99 # 100
  /\ (Master.fraud_detected f = true -> 85 # 100 < Master.confidence f ->
      Pipeline.recommendation dec = Pipeline.BLOCK_FRAUD_RISK)
  /\ (Pipeline.recommendation dec = Pipeline.BLOCK_FRAUD_RISK ->
      Master.fraud_detected f = true)
  /\ (Pipeline.recommendation dec = Pipeline.MANUAL_REVIEW ->
      Pipeline.risk_level v = of_string "CRITICAL"
      /\ Pipeline.legitimacy_status v <> of_string "FRAUDULENT")
  /\ (Pipeline.legitimacy_status v = of_string "FRAUDULENT" ->
      Pipeline.recommendation dec = Pipeline.BLOCK_FRAUD_RISK
      \/ Pipeline.recommendation dec = Pipeline.BLOCK_FRAUDULENT_VENDOR).
Proof.
  intro dec. subst dec. unfold Pipeline._make_final_decision.
  cbv zeta. cbn [Pipeline.recommendation Pipeline.dec_confidence].
  match goal with
  | |- context [pmax (1 # 10) (pmin (99 # 100) ?b)] => generalize b
  end.
  intro b. split.
  { unfold pmax, pmin.
    destruct (Qlt_le_dec b (99 # 100)); destruct (Qlt_le_dec (1 # 10) _);
      lra. }
  destruct (Master.fraud_detected f); cbn [andb].
  - destruct (gtb (Master.confidence f) (85 # 100)) eqn:G.
    + repeat split; auto; discriminate.
    + apply gtb_false_iff in G.
      destruct (eqs (Pipeline.legitimacy_status v) (of_string "FRAUDULENT"))
        eqn:Fr;
        [|destruct (eqs (Pipeline.risk_level v) (of_string "CRITICAL"))
            eqn:Cr;
          [|destruct (gtb (pmax (1 # 10) (pmin (99 # 100) b)) (8 # 10));
            [|destruct (gtb (pmax (1 # 10) (pmin (99 # 100) b)) (6 # 10))]]];
        (split; [intros _ X; lra|]); (split; [reflexivity || discriminate|]);
        (split; [try discriminate|]);
        try (intro X; apply eqs_iff in X; congruence);
        try (intros _; right; reflexivity).
      intros _. split; [now apply eqs_iff|].
      intro X. apply eqs_iff in X. congruence.
  - destruct (eqs (Pipeline.legitimacy_status v) (of_string "FRAUDULENT"))
      eqn:Fr;
      [|destruct (eqs (Pipeline.risk_level v) (of_string "CRITICAL"))
          eqn:Cr;
        [|destruct (gtb (pmax (1 # 10) (pmin (99 # 100) b)) (8 # 10));
          [|destruct (gtb (pmax (1 # 10) (pmin (99 # 100) b)) (6 # 10))]]];
      (split; [discriminate|]); (split; [discriminate|]);
      (split; [try discriminate|]);
      try (intro X; apply eqs_iff in X; congruence);
      try (intros _; right; reflexivity).
    intros _. split; [now apply eqs_iff|].
    intro X. apply eqs_iff in X. congruence.
Qed.

(** X16.  [process_invoice] raises no exception.  Its recommendation is
    the block for fraud risk exactly when its fraud analysis detected
    fraud, whatever the other steps found; a fraudulent vendor is blocked
    as well; the manual review is never recommended, since only a vendor
    found fraudulent has a critical risk.  The confidence lies between
    0.1 and 0.99, the audit trail has its four steps in order, and the
    invoice is appended to the database with its amount in USD, fraud or
    not. *)
Theorem pipeline_blocks_detected_fraud (clock : Pipeline.Readings)
    (self : Pipeline.System) (d : Master.InvoiceData) :
  exists res self',
    Pipeline.process_invoice clock self d = Some (res, self')
    /\ 1 # 10 <= Pipeline.confidence_score res <= 99 # 100
    /\ (Master.fraud_detected (Pipeline.fraud_detection res) = true
        <-> Pipeline.final_recommendation res = Pipeline.BLOCK_FRAUD_RISK)
    /\ Pipeline.final_recommendation res <> Pipeline.MANUAL_REVIEW
    /\ (Pipeline.legitimacy_status (Pipeline.vendor_verification res)
        = of_string "FRAUDULENT" ->
        Pipeline.final_recommendation res = Pipeline.BLOCK_FRAUD_RISK
        \/ Pipeline.final_recommendation res
           = Pipeline.BLOCK_FRAUDULENT_VENDOR)
    /\ map (fun step => fst (fst step)) (Pipeline.audit_trail res)
       = map of_string ["geographic_routing"; "currency_conversion";
                        "vendor_verification"; "fraud_detection"]%string
    /\ exists entry,
         Pipeline.cross_regional_database self'
         = Pipeline.cross_regional_database self ++ [entry]
         /\ Master.e_usd_amount entry
            = Pipeline.usd_amount (Pipeline.currency_conversion res)
         /\ Master.e_timestamp entry = Pipeline.in_analysis clock.
Proof.
  unfold Pipeline.process_invoice.
  destruct (routing_defined d) as (g & ->).
  destruct (currency_defined d) as (c & -> & _).
  set (v := Pipeline._vendor_verification_analysis d).
  pose proof (master_analysis_facts (Pipeline.in_analysis clock)
                (Pipeline.cross_regional_database self) d
                (Pipeline.usd_amount c)) as M.
  destruct (Master._multi_regional_fraud_analysis _ _ d _) as [f db'].
  cbv zeta in M. cbn [fst snd] in M.
  destruct M as (M1 & _ & entry & M3 & M4 & M5).
  destruct (decision_blocks g c v f) as (D1 & D2 & D3 & D4 & D5).
  eexists. eexists. split; [reflexivity|].
  cbn [Pipeline.confidence_score Pipeline.fraud_detection
       Pipeline.final_recommendation Pipeline.vendor_verification
       Pipeline.audit_trail Pipeline.cross_regional_database
       Pipeline.currency_conversion].
  split; [exact D1|].
  split; [split; [intro H; apply D2; [exact H|now apply M1]|exact D3]|].
  split.
  { intro H. apply D4 in H. destruct H as [C N].
    destruct (vendor_cases d) as [(_ & _ & R & _)|[(_ & _ & R & _)|(S & _)]];
      fold v in R || fold v in S; [rewrite R in C; discriminate C
                                  |rewrite R in C; discriminate C
                                  |contradiction]. }
  split; [exact D5|]. split; [reflexivity|].
  exists entry. auto.
Qed.

(** *** The statistics of the system *)

Lemma process_invoice_keeps_invariant (clock : Pipeline.Readings)
    (self : Pipeline.System) (d : Master.InvoiceData) (n frauds : nat) :
  stats_invariant self n frauds ->
  exists res self',
    Pipeline.process_invoice clock self d = Some (res, self')
    /\ stats_invariant self' (S n)
         (if detected res then S frauds else frauds).
Proof.
  intros (I1 & I2 & I3 & I4 & I5 & I6 & I7).
  unfold Pipeline.process_invoice.
  destruct (routing_defined d) as (g & ->).
  destruct (currency_defined d) as (c & -> & Hc).
  pose proof (master_analysis_facts (Pipeline.in_analysis clock)
                (Pipeline.cross_regional_database self) d
                (Pipeline.usd_amount c)) as M.
  destruct (Master._multi_regional_fraud_analysis _ _ d _) as [f db'].
  cbv zeta in M. cbn [fst snd] in M.
  destruct M as (M1 & M2 & entry & -> & M4 & _).
  eexists. eexists. split; [reflexivity|].
  unfold stats_invariant, detected, Pipeline._update_system_stats.
  cbn [Pipeline.fraud_detection Pipeline.cross_regional_database
       Pipeline.processing_stats].
  specialize (M2 I7).
  assert (F : Forall (fun e => 0 <= Master.e_usd_amount e)
                (Pipeline.cross_regional_database self ++ [entry])).
  { apply Forall_app. split; [exact I7|].
    constructor; [rewrite M4; exact Hc|constructor]. }
  rewrite length_app, I1. cbn [length].
  destruct (Master.fraud_detected f) eqn:Ef;
    cbn [Pipeline.total_invoices_processed Pipeline.frauds_detected
         Pipeline.duplicates_prevented Pipeline.total_savings_usd].
  - destruct (M1 eq_refl) as (_ & L).
    repeat (split; [first [lia | lra | exact F]|]). exact F.
  - repeat (split; [first [lia | lra | exact F]|]). exact F.
Qed.

Lemma process_all_keeps_invariant
    (invoices : list (Pipeline.Readings * Master.InvoiceData))
    (self : Pipeline.System) (n frauds : nat) :
  stats_invariant self n frauds ->
  exists results self',
    Pipeline.process_all self invoices = Some (results, self')
    /\ length results = length invoices
    /\ stats_invariant self' (n + length invoices)
         (frauds + length (filter detected results)).
Proof.
  revert self n frauds.
  induction invoices as [|[clock d] rest IH]; intros self n frauds I.
  - exists [], self. cbn [Pipeline.process_all length filter].
    rewrite !Nat.add_0_r. auto.
  - cbn [Pipeline.process_all].
    destruct (process_invoice_keeps_invariant clock d I)
      as (res & self1 & -> & I1).
    destruct (IH _ _ _ I1) as (results & self2 & -> & L & I2).
    exists (res :: results), self2. split; [reflexivity|].
    cbn [length filter]. split; [now rewrite L|].
    destruct (detected res); cbn [length] in *;
      [replace (n + S (length rest))%nat with (S n + length rest)%nat by lia;
       replace (frauds + S (length (filter detected results)))%nat
         with (S frauds + length (filter detected results))%nat by lia
      |replace (n + S (length rest))%nat with (S n + length rest)%nat by lia];
      exact I2.
Qed.

(** X17.  A system that starts empty and processes any list of invoices
    raises no exception and returns one result for each of them.  After
    it the database holds one entry for each invoice, the statistics count
    every invoice, the count of frauds is the number of results whose
    fraud analysis detected fraud, it is at most the count of prevented
    duplicates, the savings are not negative, and the fraud detection rate
    is a percentage between 0 and 100. *)
Theorem statistics_count_the_run
    (invoices : list (Pipeline.Readings * Master.InvoiceData)) :
  exists results self,
    Pipeline.process_all Pipeline.initial_system invoices
    = Some (results, self)
    /\ length results = length invoices
    /\ let statistics := Pipeline.get_system_statistics self in
       let stats := Pipeline.st_processing_stats statistics in
       Pipeline.database_size statistics = length invoices
       /\ Pipeline.total_invoices_processed stats = length invoices
       /\ Pipeline.frauds_detected stats = length (filter detected results)
       /\ (Pipeline.frauds_detected stats
           <= Pipeline.duplicates_prevented stats)%nat
       /\ 0 <= Pipeline.total_savings_usd stats
       /\ 0 <= Pipeline.fraud_detection_rate statistics <= 100.
Proof.
  assert (I0 : stats_invariant Pipeline.initial_system 0 0).
  { unfold stats_invariant. cbn. repeat split; try lia; try lra.
    constructor. }
  destruct (process_all_keeps_invariant invoices I0)
    as (results & self & E & L & I).
  exists results, self. split; [exact E|]. split; [exact L|].
  cbn [Nat.add] in I. destruct I as (I1 & I2 & I3 & I4 & I5 & I6 & _).
  cbv zeta. unfold Pipeline.get_system_statistics.
  cbn [Pipeline.database_size Pipeline.st_processing_stats
       Pipeline.fraud_detection_rate].
  split; [exact I1|]. split; [exact I2|]. split; [exact I3|].
  split; [rewrite I3; exact I5|]. split; [exact I6|].
  rewrite I2, I3.
  set (k := length (filter detected results)) in *.
  set (m := length invoices) in *.
  assert (P : 0 < inject_Z (Z.of_nat (Nat.max 1 m))).
  { change 0 with (inject_Z 0). rewrite <- Zlt_Qlt. lia. }
  assert (A : 0 <= inject_Z (Z.of_nat k)).
  { change 0 with (inject_Z 0). rewrite <- Zle_Qle. lia. }
  assert (B : inject_Z (Z.of_nat k) <= inject_Z (Z.of_nat (Nat.max 1 m))).
  { rewrite <- Zle_Qle. lia. }
  revert P A B. generalize (inject_Z (Z.of_nat k)).
  generalize (inject_Z (Z.of_nat (Nat.max 1 m))). intros t u P A B.
  assert (U : u == u / t * t) by (field; lra).
  split.
  - apply Qmult_le_0_compat; [|lra].
    apply Qle_shift_div_l; [exact P|lra].
  - assert (V : u / t <= 1).
    { apply Qle_shift_div_r; [exact P|lra]. }
    lra.
Qed.

(** *** A sequence compared with itself *)

Lemma eqc_same (c : ascii) : eqc c c = true.
Proof. now apply eqc_iff. Qed.

Lemma length_rowf (pop : list ascii) (ra : str) (b : str) :
  forall rpre, length (rowf pop ra rpre b) = length b.
Proof.
  induction b as [|y b IH]; intros rpre; simpl; [reflexivity|].
  now rewrite IH.
Qed.

Lemma cpnp_nil_r (pop : list ascii) (x : str) : cpnp pop x [] = 0%nat.
Proof. now destruct x. Qed.

Lemma cpnp_le_right (pop : list ascii) (x y : str) :
  (cpnp pop x y <= cpnp pop y y)%nat.
Proof.
  revert x. induction y as [|d y IH]; intros [|c x]; simpl; try lia.
  rewrite eqc_same. cbn [andb].
  destruct (eqc c d); cbn [andb]; [|lia].
  destruct (negb (mem_char d pop)); [|lia].
  specialize (IH x). lia.
Qed.

Lemma cpnp_le_left (pop : list ascii) (x y : str) :
  (cpnp pop x y <= cpnp pop x x)%nat.
Proof.
  revert y. induction x as [|c x IH]; intros [|d y]; simpl; try lia.
  rewrite eqc_same. cbn [andb].
  destruct (eqc c d) eqn:E; cbn [andb]; [|lia].
  apply eqc_iff in E. subst d.
  destruct (negb (mem_char c pop)); [|lia].
  specialize (IH y). lia.
Qed.

Lemma cpnp_le_length (pop : list ascii) (x y : str) :
  (cpnp pop x y <= length x)%nat.
Proof.
  revert y. induction x as [|c x IH]; intros [|d y]; simpl; try lia.
  destruct (eqc c d && negb (mem_char d pop)); [|lia].
  specialize (IH y). lia.
Qed.

Lemma next_row_rowf (pop : list ascii) (x : ascii) (ra : str) (b : str) :
  forall rpre prev diag,
    diag = cpnp pop ra rpre ->
    (forall j, (j < length b)%nat ->
               nth j prev 0%nat = nth j (rowf pop ra rpre b) 0%nat) ->
    next_row pop x b prev diag = rowf pop (x :: ra) rpre b.
Proof.
  induction b as [|y b IH]; intros rpre prev diag Hd Hp; simpl;
    [reflexivity|].
  subst diag. f_equal. apply IH.
  - specialize (Hp 0%nat). simpl in Hp.
    destruct prev as [|k prev]; simpl in *; rewrite <- Hp; lia.
  - intros j Hj. specialize (Hp (S j)). simpl in Hp.
    destruct prev as [|k prev]; simpl in *.
    + rewrite <- Hp by lia. now destruct j.
    + apply Hp. lia.
Qed.

Lemma rowf_app (pop : list ascii) (ra : str) (b1 b2 : str) :
  forall rpre,
    rowf pop ra rpre (b1 ++ b2)
    = rowf pop ra rpre b1 ++ rowf pop ra (rev b1 ++ rpre) b2.
Proof.
  induction b1 as [|y b1 IH]; intros rpre; simpl; [reflexivity|].
  f_equal. rewrite IH. now rewrite <- app_assoc.
Qed.

Lemma rowf_bounded_runs (pop : list ascii) (ra : str) (m : nat) (b : str) :
  forall rpre,
    bounded_runs pop m rpre b ->
    Forall (fun k => (k <= m)%nat) (rowf pop ra rpre b).
Proof.
  induction b as [|y b IH]; intros rpre H; simpl; [constructor|].
  destruct H as [H1 H2]. constructor; [|now apply IH].
  pose proof (cpnp_le_right pop ra (y :: rpre)). lia.
Qed.

Lemma rowf_le_run (pop : list ascii) (ra : str) (b : str) :
  forall rpre,
    Forall (fun k => (k <= cpnp pop ra ra)%nat) (rowf pop ra rpre b).
Proof.
  induction b as [|y b IH]; intros rpre; simpl; constructor.
  - apply cpnp_le_left.
  - apply IH.
Qed.

Lemma bounded_runs_app (pop : list ascii) (m : nat) (b1 b2 : str) :
  forall rpre,
    bounded_runs pop m rpre (b1 ++ b2)
    <-> bounded_runs pop m rpre b1
        /\ bounded_runs pop m (rev b1 ++ rpre) b2.
Proof.
  induction b1 as [|y b1 IH]; intros rpre; simpl; [tauto|].
  rewrite IH, <- app_assoc. simpl. tauto.
Qed.

Lemma bounded_runs_weaken (pop : list ascii) (m m' : nat) (b : str) :
  forall rpre,
    (m <= m')%nat -> bounded_runs pop m rpre b -> bounded_runs pop m' rpre b.
Proof.
  induction b as [|y b IH]; intros rpre L H; simpl in *; [exact I|].
  destruct H as [H1 H2]. split; [lia|now apply IH].
Qed.

Lemma scan_row_small (i : nat) (row : list nat) :
  forall j bi bj bk,
    Forall (fun k => (k <= bk)%nat) row ->
    scan_row i row j (bi, bj, bk) = (bi, bj, bk).
Proof.
  induction row as [|k row IH]; intros j bi bj bk H; simpl; [reflexivity|].
  inversion H; subst.
  destruct (bk <? k)%nat eqn:E; [apply Nat.ltb_lt in E; lia|].
  now apply IH.
Qed.

Lemma scan_row_app (i : nat) (r1 r2 : list nat) :
  forall j bst,
    scan_row i (r1 ++ r2) j bst
    = scan_row i r2 (j + length r1) (scan_row i r1 j bst).
Proof.
  induction r1 as [|k r1 IH]; intros j bst; simpl.
  - now rewrite Nat.add_0_r.
  - destruct bst as [[bi bj] bk]. rewrite IH. f_equal. lia.
Qed.

(** The scan of a sequence against itself keeps a block of the diagonal. *)
Lemma scan_rows_diagonal (pop : list ascii) (rest : str) :
  forall p prev bi bk,
    (forall j, (j < length (p ++ rest))%nat ->
       nth j prev 0%nat = nth j (rowf pop (rev p) [] (p ++ rest)) 0%nat) ->
    (bi + bk <= length p)%nat ->
    bounded_runs pop bk [] p ->
    exists ri rk,
      scan_rows pop rest (p ++ rest) (length p) prev (bi, bi, bk)
      = (ri, ri, rk)
      /\ (ri + rk <= length (p ++ rest))%nat.
Proof.
  induction rest as [|x rest IH]; intros p prev bi bk Hp Hb Hr; simpl.
  - exists bi, bk. rewrite app_nil_r. auto.
  - rewrite (@next_row_rowf pop x (rev p) (p ++ x :: rest) [] prev 0%nat);
      [|now rewrite cpnp_nil_r|exact Hp].
    set (d := cpnp pop (x :: rev p) (x :: rev p)).
    assert (Hd : (d <= S (length p))%nat).
    { subst d. pose proof (cpnp_le_length pop (x :: rev p) (x :: rev p)) as L.
      simpl in L. rewrite length_rev in L. exact L. }
    assert (E : scan_row (length p) (rowf pop (x :: rev p) [] (p ++ x :: rest))
                  0 (bi, bi, bk)
                = if (bk <? d)%nat
                  then (S (length p) - d, S (length p) - d, d)%nat
                  else (bi, bi, bk)).
    { rewrite rowf_app, scan_row_app.
      rewrite scan_row_small by (now apply rowf_bounded_runs).
      rewrite app_nil_r. cbn [rowf scan_row]. fold d.
      rewrite length_rowf. cbn [Nat.add].
      destruct (bk <? d)%nat eqn:L.
      - apply scan_row_small. apply rowf_le_run.
      - apply scan_row_small. apply Nat.ltb_ge in L.
        eapply Forall_impl; [|apply rowf_le_run].
        intros k Hk. cbv beta in Hk. fold d in Hk. lia. }
    rewrite E.
    replace (p ++ x :: rest) with ((p ++ [x]) ++ rest)
      by (now rewrite <- app_assoc).
    replace (S (length p)) with (length (p ++ [x]))
      by (rewrite length_app; simpl; lia).
    assert (R : rev (p ++ [x]) = x :: rev p) by (now rewrite rev_app_distr).
    destruct (bk <? d)%nat eqn:L.
    + apply IH.
      * intros j _. now rewrite R, <- app_assoc.
      * rewrite length_app. simpl. lia.
      * apply bounded_runs_app. split.
        -- apply Nat.ltb_lt in L.
           apply bounded_runs_weaken with (m := bk); [lia|exact Hr].
        -- rewrite app_nil_r. change (d <= d /\ True)%nat. split; [lia|exact I].
    + apply IH.
      * intros j _. now rewrite R, <- app_assoc.
      * rewrite length_app. simpl. lia.
      * apply bounded_runs_app. split; [exact Hr|].
        rewrite app_nil_r. change (d <= bk /\ True)%nat.
        apply Nat.ltb_ge in L. split; [lia|exact I].
Qed.

Lemma common_prefix_same (s : str) : common_prefix s s = length s.
Proof.
  induction s as [|c s IH]; simpl; [reflexivity|].
  now rewrite eqc_same, IH.
Qed.

Lemma rowf_first (pop : list ascii) (b : str) :
  forall rpre j, nth j (rowf pop [] rpre b) 0%nat = 0%nat.
Proof.
  induction b as [|y b IH]; intros rpre j; [now destruct j|].
  cbn [rowf nth]. destruct j; [reflexivity|]. apply IH.
Qed.

Lemma find_longest_match_same (pop : list ascii) (s : str) :
  find_longest_match pop s s = (0, 0, length s)%nat.
Proof.
  unfold find_longest_match.
  destruct (@scan_rows_diagonal pop s [] [] 0%nat 0%nat) as (i & k & E & L).
  - intros j _. cbn [app rev]. rewrite rowf_first. now destruct j.
  - simpl. lia.
  - exact I.
  - cbn [app length] in E, L. rewrite E.
    rewrite !common_prefix_same, length_rev, length_firstn, length_skipn.
    f_equal; [f_equal|]; lia.
Qed.

Lemma matches_nil (pop : list ascii) (fuel : nat) :
  matches fuel pop [] [] = 0%nat.
Proof. now destruct fuel. Qed.

Lemma matches_same (pop : list ascii) (fuel : nat) (s : str) :
  matches (S fuel) pop s s = length s.
Proof.
  cbn [matches]. rewrite find_longest_match_same.
  destruct (length s =? 0)%nat eqn:E; [apply Nat.eqb_eq in E; lia|].
  cbn [firstn Nat.add]. rewrite skipn_all, !matches_nil. lia.
Qed.

Lemma ratio_same (s : str) : ratio s s == 1.
Proof.
  unfold ratio. cbv zeta.
  destruct (length s + length s =? 0)%nat eqn:E; [reflexivity|].
  apply Nat.eqb_neq in E. rewrite matches_same.
  rewrite Nat2Z.inj_add, inject_Z_plus.
  assert (P : 0 < inject_Z (Z.of_nat (length s))).
  { change 0 with (inject_Z 0). rewrite <- Zlt_Qlt. lia. }
  field. lra.
Qed.

(** *** An invoice submitted again from another region *)

Lemma fold_pmax_ge (l : list Q) (v : Q) :
  v <= fold_left pmax l v
  /\ Forall (fun x => x <= fold_left pmax l v) l.
Proof.
  revert v. induction l as [|x l IH]; intros v; simpl.
  - split; [lra|constructor].
  - destruct (IH (pmax v x)) as [A B].
    assert (P : v <= pmax v x /\ x <= pmax v x).
    { unfold pmax. destruct (Qlt_le_dec v x); lra. }
    split; [lra|]. constructor; [lra|exact B].
Qed.

(** The fraud analysis finds the entry of an equal fingerprint. *)
Lemma master_detects_copy (now : Z) (db : list Master.Entry)
    (d : Master.InvoiceData) (usd : Q) (e : Master.Entry) :
  In e db ->
  Master.e_region e <> get_or (Master.d_region d) (of_string "Unknown") ->
  Master.time_diff now (Master.e_timestamp e) <= 72 ->
  Master.e_content_fingerprint e
  = Master._create_content_fingerprint (get_or (Master.d_invoice_text d) []) ->
  let r := fst (Master._multi_regional_fraud_analysis now db d usd) in
  Master.fraud_detected r = true /\ Master.confidence r == 1.
Proof.
  intros I R T F r. subst r.
  unfold Master._multi_regional_fraud_analysis. cbn [fst].
  set (region := get_or (Master.d_region d) (of_string "Unknown")) in *.
  set (fp := Master._create_content_fingerprint _) in *.
  pose proof (scan_database_spec now region fp db) as S.
  set (dup := {| Master.dup_invoice_id := Master.e_invoice_id e;
                 Master.dup_region := Master.e_region e;
                 Master.dup_similarity :=
                   Difflib.ratio fp (Master.e_content_fingerprint e);
                 Master.dup_amount_usd := Master.e_usd_amount e;
                 Master.dup_time_diff_hours :=
                   Master.time_diff now (Master.e_timestamp e) |}).
  assert (One : Difflib.ratio fp (Master.e_content_fingerprint e) == 1)
    by (rewrite F; apply ratio_same).
  assert (D : In dup (Master.scan_database now region fp db)).
  { apply S. exists e. repeat split; auto. rewrite One. reflexivity. }
  assert (Le : Forall (fun x => x <= 1)
                 (map Master.dup_similarity
                      (Master.scan_database now region fp db))).
  { apply Forall_map, Forall_forall. intros x Hx. apply S in Hx.
    destruct Hx as (e' & _ & _ & _ & _ & ->). simpl. apply ratio_range. }
  assert (In1 : In (Master.dup_similarity dup)
                  (map Master.dup_similarity
                       (Master.scan_database now region fp db)))
    by (now apply in_map).
  destruct (Master.scan_database now region fp db) as [|first rest];
    [destruct D|].
  cbn [Master.fraud_detected Master.confidence]. split; [reflexivity|].
  cbn [map] in Le, In1. inversion Le as [|? ? L1 L2]; subst.
  assert (Up : fold_left pmax (map Master.dup_similarity rest)
                 (Master.dup_similarity first) <= 1)
    by (now apply (@fold_pmax_forall (fun v => v <= 1))).
  destruct (fold_pmax_ge (map Master.dup_similarity rest)
              (Master.dup_similarity first)) as [G1 G2].
  assert (Lo : 1 <= fold_left pmax (map Master.dup_similarity rest)
                      (Master.dup_similarity first)).
  { assert (V : Master.dup_similarity dup == 1) by exact One.
    assert (X : Master.dup_similarity dup
                <= fold_left pmax (map Master.dup_similarity rest)
                             (Master.dup_similarity first)).
    { destruct In1 as [E|E]; [rewrite <- E; exact G1|].
      rewrite Forall_forall in G2. exact (G2 _ E). }
    revert X V. generalize (Master.dup_similarity dup). intros q X V. lra. }
  lra.
Qed.

(** What a call of [process_invoice] does with the fraud analysis. *)
Lemma process_invoice_steps (clock : Pipeline.Readings)
    (self : Pipeline.System) (d : Master.InvoiceData) :
  exists res self' usd,
    Pipeline.process_invoice clock self d = Some (res, self')
    /\ Pipeline.fraud_detection res
       = fst (Master._multi_regional_fraud_analysis
                (Pipeline.in_analysis clock)
                (Pipeline.cross_regional_database self) d usd)
    /\ Pipeline.cross_regional_database self'
       = snd (Master._multi_regional_fraud_analysis
                (Pipeline.in_analysis clock)
                (Pipeline.cross_regional_database self) d usd)
    /\ (Master.fraud_detected (Pipeline.fraud_detection res) = true ->
        Pipeline.final_recommendation res = Pipeline.BLOCK_FRAUD_RISK).
Proof.
  unfold Pipeline.process_invoice.
  destruct (routing_defined d) as (g & ->).
  destruct (currency_defined d) as (c & -> & _).
  set (v := Pipeline._vendor_verification_analysis d).
  pose proof (master_analysis_facts (Pipeline.in_analysis clock)
                (Pipeline.cross_regional_database self) d
                (Pipeline.usd_amount c)) as M.
  destruct (Master._multi_regional_fraud_analysis _ _ d _) as [f db'] eqn:E.
  cbv zeta in M. cbn [fst snd] in M. destruct M as (M1 & _).
  destruct (decision_blocks g c v f) as (_ & D2 & _).
  eexists. eexists. exists (Pipeline.usd_amount c).
  split; [reflexivity|]. rewrite E.
  cbn [Pipeline.fraud_detection Pipeline.final_recommendation
       Pipeline.cross_regional_database fst snd].
  split; [reflexivity|]. split; [reflexivity|].
  intro H. apply D2; [exact H|now apply M1].
Qed.

Lemma process_all_keeps_entries
    (invoices : list (Pipeline.Readings * Master.InvoiceData)) :
  forall self,
  exists results self' added,
    Pipeline.process_all self invoices = Some (results, self')
    /\ Pipeline.cross_regional_database self'
       = Pipeline.cross_regional_database self ++ added.
Proof.
  induction invoices as [|[clock d] rest IH]; intro self.
  - exists [], self, []. now rewrite app_nil_r.
  - cbn [Pipeline.process_all].
    destruct (process_invoice_steps clock self d)
      as (res & self1 & usd & -> & _ & Db & _).
    destruct (IH self1) as (results & self2 & added & -> & Db2).
    eexists. eexists. eexists. split; [reflexivity|].
    rewrite Db2, Db. unfold Master._multi_regional_fraud_analysis.
    cbn [snd]. rewrite <- app_assoc. reflexivity.
Qed.

Lemma process_all_app
    (l1 l2 : list (Pipeline.Readings * Master.InvoiceData)) :
  forall self results1 self1 results2 self2,
    Pipeline.process_all self l1 = Some (results1, self1) ->
    Pipeline.process_all self1 l2 = Some (results2, self2) ->
    Pipeline.process_all self (l1 ++ l2)
    = Some (results1 ++ results2, self2).
Proof.
  induction l1 as [|[clock d] l1 IH];
    intros self results1 self1 results2 self2 H1 H2.
  - cbn in H1. inversion H1; subst. exact H2.
  - cbn [Pipeline.process_all app] in *.
    destruct (Pipeline.process_invoice clock self d) as [[res s]|];
      [|discriminate].
    destruct (Pipeline.process_all s l1) as [[rs s']|] eqn:E;
      [|discriminate].
    inversion H1; subst.
    now rewrite (@IH _ _ _ _ _ E H2).
Qed.

(** X18.  When the text of an invoice is submitted a second time under
    another region, and the two fraud analyses are at most 72 hours
    apart, the second submission is reported as fraud with the confidence
    1 and its recommendation is the block for fraud risk, whatever was
    processed before and between the two and whatever the other fields of
    the two invoices are. *)
Theorem resubmission_is_blocked (self : Pipeline.System)
    (before between : list (Pipeline.Readings * Master.InvoiceData))
    (clock1 clock2 : Pipeline.Readings) (d1 d2 : Master.InvoiceData) :
  get_or (Master.d_invoice_text d1) []
  = get_or (Master.d_invoice_text d2) [] ->
  get_or (Master.d_region d1) (of_string "Unknown")
  <> get_or (Master.d_region d2) (of_string "Unknown") ->
  Master.time_diff (Pipeline.in_analysis clock2) (Pipeline.in_analysis clock1)
  <= 72 ->
  exists results res self',
    Pipeline.process_all self
      (before ++ (clock1, d1) :: between ++ [(clock2, d2)])
    = Some (results ++ [res], self')
    /\ length results = S (length before + length between)
    /\ Master.fraud_detected (Pipeline.fraud_detection res) = true
    /\ Master.confidence (Pipeline.fraud_detection res) == 1
    /\ Pipeline.final_recommendation res = Pipeline.BLOCK_FRAUD_RISK.
Proof.
  intros Text Region Time.
  destruct (process_all_keeps_entries before self)
    as (rs0 & s0 & add0 & E0 & _).
  destruct (process_invoice_steps clock1 s0 d1)
    as (r1 & s1 & usd1 & E1 & _ & Db1 & _).
  destruct (process_all_keeps_entries between s1)
    as (rs2 & s2 & add2 & E2 & Db2).
  destruct (process_invoice_steps clock2 s2 d2)
    as (r3 & s3 & usd3 & E3 & F3 & _ & B3).
  set (e := {| Master.e_invoice_id := get_or (Master.d_invoice_id d1) [];
               Master.e_region :=
                 get_or (Master.d_region d1) (of_string "Unknown");
               Master.e_content_fingerprint :=
                 Master._create_content_fingerprint
                   (get_or (Master.d_invoice_text d1) []);
               Master.e_usd_amount := usd1;
               Master.e_timestamp := Pipeline.in_analysis clock1 |}).
  assert (I : In e (Pipeline.cross_regional_database s2)).
  { rewrite Db2, Db1. unfold Master._multi_regional_fraud_analysis.
    cbn [snd]. apply in_or_app. left. apply in_or_app. right. now left. }
  destruct (@master_detects_copy (Pipeline.in_analysis clock2)
              (Pipeline.cross_regional_database s2) d2 usd3 e I)
    as [Det Conf]; [exact Region|exact Time|cbn; now rewrite Text|].
  rewrite <- F3 in Det, Conf.
  exists (rs0 ++ r1 :: rs2), r3, s3.
  split.
  - assert (Last : Pipeline.process_all s2 [(clock2, d2)]
                   = Some ([r3], s3))
      by (cbn [Pipeline.process_all]; now rewrite E3).
    assert (Mid : Pipeline.process_all s0 ((clock1, d1) :: between
                                             ++ [(clock2, d2)])
                  = Some (r1 :: rs2 ++ [r3], s3)).
    { cbn [Pipeline.process_all]. rewrite E1.
      now rewrite (@process_all_app _ _ _ _ _ _ _ E2 Last). }
    rewrite (@process_all_app _ _ _ _ _ _ _ E0 Mid).
    now rewrite <- app_assoc.
  - split.
    + rewrite length_app. cbn [length].
      assert (L0 : length rs0 = length before).
      { clear - E0. revert self rs0 s0 E0.
        induction before as [|[c d] l IH]; intros self rs0 s0 E0;
          cbn [Pipeline.process_all] in E0.
        - now inversion E0.
        - destruct (Pipeline.process_invoice c self d) as [[r s]|];
            [|discriminate].
          destruct (Pipeline.process_all s l) as [[rs s']|] eqn:E;
            [|discriminate].
          inversion E0; subst. cbn [length]. f_equal. eapply IH, E. }
      assert (L2 : length rs2 = length between).
      { clear - E2. revert s1 rs2 s2 E2.
        induction between as [|[c d] l IH]; intros s1 rs2 s2 E2;
          cbn [Pipeline.process_all] in E2.
        - now inversion E2.
        - destruct (Pipeline.process_invoice c s1 d) as [[r s]|];
            [|discriminate].
          destruct (Pipeline.process_all s l) as [[rs s']|] eqn:E;
            [|discriminate].
          inversion E2; subst. cbn [length]. f_equal. eapply IH, E. }
      lia.
    + split; [exact Det|]. split; [exact Conf|]. now apply B3.
Qed.

Lemma resubmission_is_blocked_witness :
  exists results res self',
    Pipeline.process_all Pipeline.initial_system
      ([] ++ (clock_at 0, master_view de_1)
          :: [] ++ [(clock_at 7200000000, master_view us_1)])
    = Some (results ++ [res], self')
    /\ Pipeline.final_recommendation res = Pipeline.BLOCK_FRAUD_RISK.
Proof.
  destruct (@resubmission_is_blocked Pipeline.initial_system [] []
              (clock_at 0) (clock_at 7200000000)
              (master_view de_1) (master_view us_1))
    as (results & res & self' & E & _ & _ & _ & B).
  - reflexivity.
  - vm_compute. discriminate.
  - vm_compute. discriminate.
  - exists results, res, self'. split; assumption.
Defined.

(** *** An exact copy, in the detector *)

Lemma filter_none (A : Type) (f : A -> bool) (l : list A) :
  (forall x, In x l -> f x = false) -> filter f l = [].
Proof.
  induction l as [|a l IH]; intro H; simpl; [reflexivity|].
  rewrite (H a) by now left. apply IH. intros x Hx. apply H. now right.
Qed.

Lemma total_nonneg (l : list Q) :
  Forall (fun v => 0 <= v) l -> 0 <= total l.
Proof. induction 1 as [|v l Hv Hl IH]; simpl; [lra|]. lra. Qed.

Lemma pairwise_average_same (items : list str) :
  items <> [] -> 0 < pairwise_average items items.
Proof.
  destruct items as [|x l]; [congruence|]. intros _.
  unfold pairwise_average.
  set (ps := list_prod (x :: l) (x :: l)).
  assert (E : exists rest, ps = (x, x) :: rest)
    by (eexists; reflexivity).
  destruct E as [rest E].
  assert (All : Forall (fun v => 0 <= v)
                  (map (fun p => Difflib.ratio (lower (fst p)) (lower (snd p)))
                       rest)).
  { apply Forall_map, Forall_forall. intros p _. apply ratio_range. }
  apply total_nonneg in All.
  rewrite E. cbn [map total fold_right fst snd length].
  fold (total (map (fun p => Difflib.ratio (lower (fst p)) (lower (snd p)))
                   rest)).
  rewrite ratio_same.
  apply Qlt_shift_div_l.
  - change 0 with (inject_Z 0). rewrite <- Zlt_Qlt. lia.
  - lra.
Qed.

(** The similarity of two invoices of equal fingerprints that have a
    reference of purchase order and a delivery address. *)
Lemma copy_similarity (i1 i2 : RegionalInvoice) :
  fingerprint i1 = fingerprint i2 ->
  po_reference (fingerprint i1) <> [] ->
  delivery_address (fingerprint i1) <> [] ->
  _quick_similarity_check i1 i2 = true
  /\ overall_similarity (_compare_invoices_detailed i1 i2)
     == (85 # 100)
        + (45 # 100) * _compare_line_items (line_items (fingerprint i1))
                                           (line_items (fingerprint i1)).
Proof.
  intros F P A. split.
  - apply quick_check_cases. left. unfold same_po. rewrite <- F. auto.
  - rewrite overall_similarity_parts. rewrite <- F.
    rewrite ratio_same.
    assert (Po : po_indicator i1 i2 = 1).
    { unfold po_indicator. rewrite <- F.
      apply truthy_iff in P. rewrite P. cbn [andb].
      now rewrite (proj2 (eqs_iff _ _) eq_refl). }
    assert (Ad : address_score i1 i2 == 1).
    { unfold address_score. rewrite <- F.
      apply truthy_iff in A. rewrite A. cbn [andb]. apply ratio_same. }
    rewrite Po, Ad. ring.
Qed.

Lemma search_finds (cur : RegionalInvoice) (db : list RegionalInvoice)
    (ex : RegionalInvoice) :
  In ex db -> in_window cur ex -> region ex <> region cur ->
  _quick_similarity_check cur ex = true ->
  In ex (_search_cross_regional_duplicates db cur).
Proof.
  intros I W R Q.
  unfold _search_cross_regional_duplicates. rewrite search_database_filter.
  apply filter_In. split; [|exact Q].
  apply filter_In. split; [exact I|].
  apply andb_true_iff. split.
  - unfold in_windowb. unfold in_window in W. now apply Z.leb_le.
  - unfold other_regionb. destruct (eqs (region ex) (region cur)) eqn:E;
      [apply eqs_iff in E; contradiction|reflexivity].
Qed.

(** X19.  The detector raises an alert on an exact copy: when the database
    holds an invoice of another region, at most 72 hours from the
    submission, whose fingerprint is that of the submitted text, and this
    text has a reference of purchase order, a delivery address and one line
    item at least, the submission is answered by an alert that lists the
    stored invoice among its matches, and it is not stored. *)
Theorem detector_flags_exact_copy (now later : Z)
    (db : list RegionalInvoice) (d : InvoiceData) (ex : RegionalInvoice) :
  let cur := _create_regional_invoice now d in
  In ex db ->
  fingerprint ex = fingerprint cur ->
  region ex <> region cur ->
  in_window cur ex ->
  po_reference (fingerprint cur) <> [] ->
  delivery_address (fingerprint cur) <> [] ->
  line_items (fingerprint cur) <> [] ->
  exists alert,
    detect_multi_regional_fraud now later db d = Some (Some alert, db)
    /\ In ex (duplicate_invoices alert)
    /\ In ex (ev_matches (evidence_details alert))
    /\ 85 # 100 < confidence_score alert.
Proof.
  intros cur I F R W P A L.
  destruct (@copy_similarity cur ex (eq_sym F) P A) as [Q S].
  pose proof (@search_finds cur db ex I W R Q) as C.
  assert (M : is_match cur ex = true).
  { unfold is_match. apply gtb_iff. rewrite S.
    rewrite compare_line_items_average by assumption.
    pose proof (pairwise_average_same L). lra. }
  assert (Fm : In ex (filter (is_match cur)
                        (_search_cross_regional_duplicates db cur)))
    by (apply filter_In; split; assumption).
  destruct (alert_iff_some_candidate_shape now later db d) as [_ S2].
  fold cur in S2.
  destruct S2 as (c & E & [C1 _] & _).
  { intro X. rewrite X in Fm. destruct Fm. }
  eexists. split; [exact E|].
  cbn [duplicate_invoices evidence_details confidence_score
       _generate_fraud_alert].
  split; [now right|]. split; [|exact C1].
  unfold _analyze_content_similarity.
  rewrite analyze_matches. exact Fm.
Qed.

Lemma detector_flags_exact_copy_witness :
  exists alert,
    detect_multi_regional_fraud 7200 7200
      [_create_regional_invoice 0 de_1] us_1
    = Some (Some alert, [_create_regional_invoice 0 de_1])
    /\ In (_create_regional_invoice 0 de_1) (duplicate_invoices alert).
Proof.
  destruct (@detector_flags_exact_copy 7200 7200
              [_create_regional_invoice 0 de_1] us_1
              (_create_regional_invoice 0 de_1))
    as (alert & E & I & _).
  - left. reflexivity.
  - reflexivity.
  - vm_compute. discriminate.
  - vm_compute. discriminate.
  - vm_compute. discriminate.
  - vm_compute. discriminate.
  - vm_compute. discriminate.
  - exists alert. split; assumption.
Defined.

(** X20.  An exact copy without line items is not a match: two invoices of
    equal fingerprints with a reference of purchase order and a delivery
    address but no line item have the overall similarity 0.85 exactly,
    which is not above the threshold; when every invoice the search finds
    is such a copy, the submission raises no alert and is stored. *)
Theorem copy_without_items_not_flagged (now later : Z)
    (db : list RegionalInvoice) (d : InvoiceData) :
  let cur := _create_regional_invoice now d in
  po_reference (fingerprint cur) <> [] ->
  delivery_address (fingerprint cur) <> [] ->
  line_items (fingerprint cur) = [] ->
  (forall ex, In ex (_search_cross_regional_duplicates db cur) ->
              fingerprint ex = fingerprint cur) ->
  (forall ex, fingerprint ex = fingerprint cur ->
              overall_similarity (_compare_invoices_detailed cur ex)
              == 85 # 100
              /\ is_match cur ex = false)
  /\ detect_multi_regional_fraud now later db d = Some (None, db ++ [cur]).
Proof.
  intros cur P A L Copies.
  assert (N : forall ex, fingerprint ex = fingerprint cur ->
                overall_similarity (_compare_invoices_detailed cur ex)
                == 85 # 100
                /\ is_match cur ex = false).
  { intros ex F.
    destruct (@copy_similarity cur ex (eq_sym F) P A) as [_ S].
    rewrite L in S. rewrite compare_line_items_empty in S by now left.
    assert (S' : overall_similarity (_compare_invoices_detailed cur ex)
                 == 85 # 100) by (rewrite S; ring).
    split; [exact S'|]. unfold is_match. apply gtb_false_iff.
    rewrite S'. lra. }
  split; [exact N|].
  destruct (alert_iff_some_candidate_shape now later db d) as [S1 _].
  fold cur in S1. apply S1.
  apply filter_none. intros ex Hex. apply N. now apply Copies.
Qed.

Lemma copy_without_items_not_flagged_witness :
  detect_multi_regional_fraud 7200 7200 [_create_regional_invoice 0 de_2] us_2
  = Some (None, [_create_regional_invoice 0 de_2]
                ++ [_create_regional_invoice 7200 us_2]).
Proof.
  apply (@copy_without_items_not_flagged 7200 7200
           [_create_regional_invoice 0 de_2] us_2).
  - vm_compute. discriminate.
  - vm_compute. discriminate.
  - vm_compute. reflexivity.
  - intros ex H. vm_compute in H. destruct H as [<-|[]]. reflexivity.
Defined.

(** *** The fields of a fingerprint *)

Lemma strip_strip (s : str) : strip (strip s) = strip s.
Proof.
  destruct (strip_no_lead s) as [A B]. now apply strip_fixed.
Qed.

Lemma first_match_stripped (patterns : list regex) (text : str) :
  strip (first_match patterns text) = first_match patterns text.
Proof.
  induction patterns as [|p ps IH]; simpl; [reflexivity|].
  destruct (search p text); [apply strip_strip|exact IH].
Qed.

Lemma lower_lower_str (s : str) : lower (lower s) = lower s.
Proof.
  induction s as [|c s IH]; simpl; [reflexivity|].
  f_equal; [|exact IH]. apply eqc_iff, lower_lower.
Qed.

(** X21.  In the fingerprint of any text the vendor name, the reference of
    purchase order, the delivery address and every line item carry no
    white space at their ends, no extracted amount is negative, and the
    keywords are in small letters and without duplicates. *)
Theorem fingerprint_fields_clean (invoice_text : str) :
  let fp := _generate_content_fingerprint invoice_text in
  strip (vendor_name fp) = vendor_name fp
  /\ strip (po_reference fp) = po_reference fp
  /\ strip (delivery_address fp) = delivery_address fp
  /\ Forall (fun item => strip item = item) (line_items fp)
  /\ Forall (fun amount => 0 <= amount) (amounts fp)
  /\ Forall (fun keyword => lower keyword = keyword) (extracted_keywords fp)
  /\ NoDup (extracted_keywords fp).
Proof.
  intro fp. subst fp. unfold _generate_content_fingerprint.
  cbn [vendor_name po_reference delivery_address line_items amounts
       extracted_keywords].
  split; [apply first_match_stripped|].
  split; [apply first_match_stripped|].
  split; [apply first_match_stripped|].
  split.
  { apply Forall_forall. intros item H.
    apply in_flat_map in H. destruct H as (p & _ & H).
    apply in_map_iff in H. destruct H as (m & <- & _). apply strip_strip. }
  split.
  { apply Forall_forall. intros a H.
    apply in_flat_map in H. destruct H as (p & _ & H).
    unfold amounts_of in H.
    apply in_flat_map in H. destruct H as (m & _ & H).
    destruct (parse_float _) as [q|] eqn:E; [|contradiction].
    destruct H as [<-|[]]. now apply parse_float_nonneg in E. }
  unfold _extract_keywords, list_set. split; [|apply NoDup_nodup].
  apply Forall_forall. intros k H. apply nodup_In in H.
  cbn [app] in H. apply in_app_or in H.
  destruct H as [H|H]; apply in_map_iff in H; destruct H as (m & <- & _);
    apply lower_lower_str.
Qed.
